(** * HotSweep: address specifications, strategy detection and transfer execution

    A shallow embedding of
    - [packages/core/src/address/parser.ts]      (module [Parser]),
    - [packages/core/src/transfer/strategy.ts]   (module [Strategy]),
    - [packages/core/src/transfer/signatures.ts] (module [Signatures]),
    - [packages/core/src/transfer/executor.ts]   (module [Executor]),
    and of the lookups and texts around them:
    - [packages/core/src/config/loader.ts]       (module [Config]),
    - [packages/core/src/wallet/derivation.ts]   (module [Derivation]),
    - [packages/core/src/config/dotpath.ts]      (module [DotPath]),
    - [packages/core/src/balance/query.ts]       (module [Query]),
    - [packages/auth/src/siwe.ts]                (module [Siwe]),
    followed by the properties proved about them.

    Conventions of the embedding.
    - JavaScript strings are modelled as [string] restricted to ASCII
      (code units below 128); numbers that hold indices, chain ids and
      decimals are mathematical integers [Z], [bigint] is [Z].  A
      JavaScript number is a double: it is the integer it stands for, and
      its text is its decimal text, only among the safe integers (below
      2^53 in absolute value, [Js.safe_integer]).  The properties that
      turn on the text of a number or on reading a number back are stated
      for safe integers.
    - A [Record<string, V>] is an association list in insertion order,
      looked up by its first matching key.  Where the source tests a key
      with the operator [in] (the wallet labels), the names that an
      object inherits from [Object.prototype] are modelled too
      ([Js.inherited]); elsewhere the keys looked up are taken not to be
      among those names.
    - Everything the code awaits from the chain or from the signer is an
      operation of the class [Env]: it takes the world, answers with a
      value or with the message of the error it throws, and gives the next
      world.  Each such call is appended to the trace of the run. *)

From Stdlib Require Import ZArith String Ascii List.
From stdpp Require Import base numbers list sorting strings pretty gmap.

Open Scope string_scope.
Open Scope Z_scope.

(* ===================================================================== *)
(** ** JavaScript primitives used by the sources *)
(* ===================================================================== *)

Module Js.

(** [WhiteSpace] and [LineTerminator] code units below 128: the characters
    removed by [trim], skipped by [parseInt] and matched by [\s]. *)
Definition is_space (c : ascii) : bool :=
  let n := nat_of_ascii c in
  ((9 <=? n)%nat && (n <=? 13)%nat) || (n =? 32)%nat.

(** [\d] *)
Definition is_digit (c : ascii) : bool :=
  let n := nat_of_ascii c in (48 <=? n)%nat && (n <=? 57)%nat.

Definition digit_val (c : ascii) : Z := Z.of_nat (nat_of_ascii c) - 48.

Fixpoint drop_spaces (s : string) : string :=
  match s with
  | String c s' => if is_space c then drop_spaces s' else s
  | EmptyString => EmptyString
  end.

Fixpoint rev_string (acc s : string) : string :=
  match s with
  | String c s' => rev_string (String c acc) s'
  | EmptyString => acc
  end.

(** [s.trim()] *)
Definition trim (s : string) : string :=
  rev_string "" (drop_spaces (rev_string "" (drop_spaces s))).

(** [s.split(sep)] for a separator of one character. *)
Fixpoint split (sep : ascii) (s : string) : list string :=
  match s with
  | EmptyString => [EmptyString]
  | String c s' =>
      if Ascii.eqb c sep then EmptyString :: split sep s'
      else match split sep s' with
           | w :: ws => String c w :: ws
           | [] => [String c EmptyString]
           end
  end.

(** [s.includes(c)] for a needle of one character. *)
Fixpoint includes (c : ascii) (s : string) : bool :=
  match s with
  | EmptyString => false
  | String d s' => Ascii.eqb d c || includes c s'
  end.

Fixpoint all_chars (p : ascii -> bool) (s : string) : bool :=
  match s with
  | EmptyString => true
  | String c s' => p c && all_chars p s'
  end.

(** [/^[...]+$/.test(s)] for a character class [p]. *)
Definition matches_plus (p : ascii -> bool) (s : string) : bool :=
  match s with
  | EmptyString => false
  | _ => all_chars p s
  end.

(** [Number.MAX_SAFE_INTEGER], 2^53 - 1, and [Number.isSafeInteger] on
    an integer: among the safe integers a double is the integer itself,
    [String] writes its decimal text and [parseInt] reads it exactly. *)
Definition MAX_SAFE_INTEGER : Z := 9007199254740991.

Definition safe_integer (n : Z) : Prop :=
  - MAX_SAFE_INTEGER ≤ n ≤ MAX_SAFE_INTEGER.

(** The digits read by [parseInt]: the value of the longest prefix of
    decimal digits, and whether at least one digit was read. *)
Fixpoint read_digits (acc : Z) (seen : bool) (s : string) : option Z :=
  match s with
  | String c s' =>
      if is_digit c then read_digits (10 * acc + digit_val c) true s'
      else if seen then Some acc else None
  | EmptyString => if seen then Some acc else None
  end.

(** [parseInt(s, 10)]; [None] is [NaN].  Leading white space is skipped,
    one sign is accepted, and whatever follows the digits is ignored.
    The value is the exact value of the digits: it is the number that
    JavaScript gives when that value is a safe integer; beyond, JavaScript
    rounds it to a double. *)
Definition parseInt (s : string) : option Z :=
  match drop_spaces s with
  | String "-" s' => Z.opp <$> read_digits 0 false s'
  | String "+" s' => read_digits 0 false s'
  | s' => read_digits 0 false s'
  end.

Definition lower_char (c : ascii) : ascii :=
  let n := nat_of_ascii c in
  if (65 <=? n)%nat && (n <=? 90)%nat then ascii_of_nat (n + 32) else c.

Definition upper_char (c : ascii) : ascii :=
  let n := nat_of_ascii c in
  if (97 <=? n)%nat && (n <=? 122)%nat then ascii_of_nat (n - 32) else c.

Fixpoint map_string (f : ascii -> ascii) (s : string) : string :=
  match s with
  | EmptyString => EmptyString
  | String c s' => String (f c) (map_string f s')
  end.

Definition toLowerCase : string -> string := map_string lower_char.
Definition toUpperCase : string -> string := map_string upper_char.

(** [String(n)] and [`${n}`] for a safe integer [n]: its decimal text.
    (From 10^21 on JavaScript writes a number with an exponent, and
    beyond the safe integers a double need not be the integer meant.) *)
Definition string_of_number (n : Z) : string := pretty n.

(** [[...new Set(l)]]: the elements of [l] in the order of their first
    occurrence. *)
Fixpoint set_spread_go (seen l : list Z) : list Z :=
  match l with
  | [] => []
  | x :: l' =>
      if bool_decide (x ∈ seen) then set_spread_go seen l'
      else x :: set_spread_go (x :: seen) l'
  end.

Definition set_spread (l : list Z) : list Z := set_spread_go [] l.

(** [l.sort((a, b) => a - b)] *)
Definition sort_numeric (l : list Z) : list Z := merge_sort Z.le l.

(** The names that every object inherits from [Object.prototype]: the
    operator [in] finds them in any plain object. *)
Definition inherited (name : string) : bool :=
  bool_decide (name ∈ [ "constructor"; "__defineGetter__"; "__defineSetter__";
                        "hasOwnProperty"; "__lookupGetter__"; "__lookupSetter__";
                        "isPrototypeOf"; "propertyIsEnumerable"; "toString";
                        "valueOf"; "__proto__"; "toLocaleString" ]).

(** Lookup in a [Record<string, V>]. *)
Fixpoint record_get {V} (r : list (string * V)) (k : string) : option V :=
  match r with
  | [] => None
  | (k', v) :: r' => if String.eqb k' k then Some v else record_get r' k
  end.

End Js.

(* ===================================================================== *)
(** ** Errors, addresses, strategies ([packages/types]) *)
(* ===================================================================== *)

Definition Address := string.
Definition Hex := string.

(** [ErrorCodes] *)
Inductive ErrorCode :=
| CONFIG_NOT_FOUND | CONFIG_INVALID | CONFIG_PARSE_ERROR | CONFIG_PATH_NOT_FOUND
| CONFIG_TYPE_MISMATCH
| WALLET_NOT_FOUND | WALLET_DISABLED | WALLET_KEY_NOT_FOUND | WALLET_INVALID_ADDRESS
| WALLET_MNEMONIC_INVALID | WALLET_XPUB_INVALID | WALLET_XPRIV_INVALID
| CHAIN_NOT_FOUND | CHAIN_DISABLED | CHAIN_RPC_ERROR | CHAIN_UNSUPPORTED
| TOKEN_NOT_FOUND | TOKEN_DISABLED | TOKEN_INVALID_ADDRESS
| TRANSFER_INSUFFICIENT_BALANCE | TRANSFER_INSUFFICIENT_GAS | TRANSFER_FAILED
| TRANSFER_SIMULATION_FAILED | TRANSFER_NONCE_ERROR | TRANSFER_GAS_ESTIMATION_FAILED
| STRATEGY_UNSUPPORTED | STRATEGY_PERMIT_FAILED | STRATEGY_AUTH_FAILED
| STRATEGY_SIGNATURE_FAILED
| CONTRACT_NOT_DEPLOYED | CONTRACT_CALL_FAILED | CONTRACT_DEPLOY_FAILED
| BALANCE_QUERY_FAILED | BALANCE_MULTICALL_FAILED
| ADDRESS_INVALID | ADDRESS_RANGE_INVALID | ADDRESS_INDEX_OUT_OF_RANGE
| ADDRESS_LABEL_NOT_FOUND
| INTERNAL_ERROR | VALIDATION_ERROR | NOT_IMPLEMENTED | RATE_LIMITED | TIMEOUT.

(** What a [throw] carries: a [HotSweepError] with its code and message, or
    any other [Error] with its message. *)
Inductive Thrown :=
| HotSweepError (code : ErrorCode) (message : string)
| OtherError (message : string).

Definition Res (A : Type) : Type := Thrown + A.

(** Whether a call returned rather than threw. *)
Definition succeeded {E A} (r : E + A) : bool :=
  match r with
  | inl _ => false
  | inr _ => true
  end.

Definition res_map {A B} (f : A -> B) (r : Res A) : Res B :=
  match r with
  | inl e => inl e
  | inr a => inr (f a)
  end.

Inductive SweepStrategy := auto | eip7702 | eip2612 | eip3009 | legacy.

Global Instance SweepStrategy_eq_dec : EqDecision SweepStrategy.
Proof. solve_decision. Defined.

Definition NATIVE_TOKEN_ADDRESS : Address :=
  "0xEeeeeEeeeEeEeeEeEeEeeEEEeeeeEeeeeeeeEEeE".

(** [tokenAddress.toLowerCase() === NATIVE_TOKEN_ADDRESS.toLowerCase()] *)
Definition is_native (tokenAddress : Address) : bool :=
  String.eqb (Js.toLowerCase tokenAddress) (Js.toLowerCase NATIVE_TOKEN_ADDRESS).

Inductive AddressSpec :=
| SpecIndex (value : Z)
| SpecIndices (value : list Z)
| SpecRange (value : string)
| SpecAddress (value : Address)
| SpecLabel (value : string).

Record WalletConfig := { wallet_address : Address }.

(** The value [undefined] in the place of an address (the [address] of a
    value that is no wallet): it is written as the text that a template
    prints for it, which is the text of no address. *)
Definition undefined_address : Address := "undefined".

Record ResolvedAddress := { identifier : string; address : Address }.

(* ===================================================================== *)
(** ** [address/parser.ts] *)
(* ===================================================================== *)

Module Parser.
Import Js.

(** The first argument of [parseAddressSpec]: [string | number | AddressSpec]. *)
Inductive RawSpec :=
| RawObject (spec : AddressSpec)
| RawNumber (n : Z)
| RawString (s : string).

Section WithIsAddress.
(** [isAddress] of viem. *)
Variable isAddress : string -> bool.

Definition parseAddressSpec (value : RawSpec)
    (wallets : option (list (string * WalletConfig))) : AddressSpec :=
  match value with
  | RawObject spec => spec
  | RawNumber n => SpecIndex n
  | RawString value =>
      let str := trim value in
      if isAddress str then SpecAddress str
      else if matches_plus is_digit str then
        SpecIndex (default 0 (parseInt str))
      else if matches_plus (fun c => is_digit c || Ascii.eqb c "," || is_space c) str
              && negb (includes "-" str) then
        SpecIndices (omap (fun s => parseInt (trim s)) (split "," str))
      else if matches_plus
                (fun c => is_digit c || Ascii.eqb c "-" || Ascii.eqb c "," || is_space c) str
              && includes "-" str then
        SpecRange str
      else
        match wallets with
        | Some w => if bool_decide (is_Some (record_get w str)) || inherited str
                    then SpecLabel str else SpecLabel str
        | None => SpecLabel str
        end
  end.
End WithIsAddress.

(** The inclusive loop [for (let i = start; i <= end; i++) indices.push(i)]. *)
Definition push_range (start end_ : Z) : list Z := seqZ start (end_ - start + 1).

(** One iteration of the loop over [parts]: the indices pushed by the
    part, or the error thrown. *)
Definition parsePart (part : string) : Res (list Z) :=
  if includes "-" part then
    let fields := split "-" part in
    let start := parseInt (trim (default "" (fields !! 0%nat))) in
    let end_ := parseInt (trim (default "" (fields !! 1%nat))) in
    match start, end_ with
    | Some start, Some end_ =>
        if start >? end_ then
          inl (HotSweepError ADDRESS_RANGE_INVALID
                 ("Invalid range: start (" +:+ string_of_number start +:+
                  ") > end (" +:+ string_of_number end_ +:+ ")"))
        else inr (push_range start end_)
    | _, _ =>
        inl (HotSweepError ADDRESS_RANGE_INVALID ("Invalid range part: " +:+ part))
    end
  else
    match parseInt part with
    | None => inl (HotSweepError ADDRESS_RANGE_INVALID ("Invalid index: " +:+ part))
    | Some index => inr [index]
    end.

Fixpoint parseParts (indices : list Z) (parts : list string) : Res (list Z) :=
  match parts with
  | [] => inr indices
  | part :: parts' =>
      match parsePart part with
      | inl e => inl e
      | inr pushed => parseParts (indices ++ pushed) parts'
      end
  end.

Definition parseRange (range : string) : Res (list Z) :=
  match parseParts [] (trim <$> split "," range) with
  | inl e => inl e
  | inr indices => inr (sort_numeric (set_spread indices))
  end.

Definition resolveToIndices (spec : AddressSpec) : Res (list Z) :=
  match spec with
  | SpecIndex value => inr [value]
  | SpecIndices value => inr (sort_numeric (set_spread value))
  | SpecRange value => parseRange value
  | SpecAddress _ =>
      inl (HotSweepError VALIDATION_ERROR "Cannot resolve address to indices")
  | SpecLabel _ =>
      inl (HotSweepError VALIDATION_ERROR "Cannot resolve label to indices")
  end.

Section WithResolver.
Variable wallets : option (list (string * WalletConfig)).
(** The optional [addressResolver]; it may throw. *)
Variable addressResolver : option (Z -> Res Address).

(** [!wallets || !(label in wallets)] and then [wallets[label]!.address].
    The operator [in] sees the own keys of [wallets] and the names it
    inherits from [Object.prototype]; under an inherited name the value
    is not a wallet and its [address] is [undefined].  [None] is the case
    in which the source throws. *)
Definition lookup_wallet (label : string) : option Address :=
  wallets ≫= (fun w =>
    match record_get w label with
    | Some wallet => Some (wallet_address wallet)
    | None => if inherited label then Some undefined_address else None
    end).

(** [indices.map((index) => ({identifier: String(index), address: addressResolver(index)}))]:
    the first throwing call aborts the map. *)
Fixpoint map_resolver (resolver : Z -> Res Address) (indices : list Z)
    : Res (list ResolvedAddress) :=
  match indices with
  | [] => inr []
  | index :: rest =>
      match resolver index with
      | inl e => inl e
      | inr a =>
          match map_resolver resolver rest with
          | inl e => inl e
          | inr tl => inr ({| identifier := string_of_number index; address := a |} :: tl)
          end
      end
  end.

Definition resolveToAddress (spec : AddressSpec) : Res Address :=
  match spec with
  | SpecAddress value => inr value
  | SpecLabel value =>
      match lookup_wallet value with
      | None => inl (HotSweepError ADDRESS_LABEL_NOT_FOUND
                       ("Wallet label not found: " +:+ value))
      | Some a => inr a
      end
  | SpecIndex value =>
      match addressResolver with
      | None => inl (HotSweepError VALIDATION_ERROR
                       "Address resolver required for index resolution")
      | Some resolver => resolver value
      end
  | SpecIndices _ =>
      inl (HotSweepError VALIDATION_ERROR "Cannot resolve indices to a single address")
  | SpecRange _ =>
      inl (HotSweepError VALIDATION_ERROR "Cannot resolve range to a single address")
  end.

Definition resolveToAddresses (spec : AddressSpec) : Res (list ResolvedAddress) :=
  match spec with
  | SpecAddress value => inr [ {| identifier := value; address := value |} ]
  | SpecLabel value =>
      match lookup_wallet value with
      | None => inl (HotSweepError ADDRESS_LABEL_NOT_FOUND
                       ("Wallet label not found: " +:+ value))
      | Some a => inr [ {| identifier := value; address := a |} ]
      end
  | SpecIndex value =>
      match addressResolver with
      | None => inl (HotSweepError VALIDATION_ERROR
                       "Address resolver required for index resolution")
      | Some resolver =>
          match resolver value with
          | inl e => inl e
          | inr a => inr [ {| identifier := string_of_number value; address := a |} ]
          end
      end
  | SpecIndices value =>
      match addressResolver with
      | None => inl (HotSweepError VALIDATION_ERROR
                       "Address resolver required for indices resolution")
      | Some resolver => map_resolver resolver value
      end
  | SpecRange value =>
      match addressResolver with
      | None => inl (HotSweepError VALIDATION_ERROR
                       "Address resolver required for range resolution")
      | Some resolver =>
          match parseRange value with
          | inl e => inl e
          | inr indices => map_resolver resolver indices
          end
      end
  end.
End WithResolver.

End Parser.


(* ===================================================================== *)
(** ** Configuration, requests and results ([packages/types]) *)
(* ===================================================================== *)

(** The fields of [ChainConfig], [TokenConfig] and [HotSweepConfig] that the
    embedded code reads. *)
Record ChainConfig := {
  chain_namespace : string;
  chain_chainId : option Z;
  chain_name : string;
  chain_aliases : option (list string);
  chain_nativeSymbol : string;
}.

Record TokenConfig := {
  token_address : option Address;
  token_decimals : option Z;
  token_strategy : option SweepStrategy;
}.

Record HotSweepConfig := {
  chains : list (string * ChainConfig);
  wallets : list (string * WalletConfig);
  tokens : list (string * list (string * TokenConfig));
}.

(** [options.chain : string | number | CAIP2ChainId] *)
Inductive ChainRef :=
| ChainString (s : string)
| ChainNumber (n : Z).

Record TransferOptions := {
  opt_from : string + AddressSpec;
  opt_to : string + AddressSpec;
  opt_chain : ChainRef;
  opt_token : string;
  opt_amount : string;
  opt_strategy : option SweepStrategy;
  opt_dryRun : bool;
}.

Record Receipt := {
  blockNumber : Z;
  gasUsed : Z;
  effectiveGasPrice : Z;
}.

Record ChainInfo := {
  info_id : option Z;
  info_name : string;
  info_caip2Id : string;
}.

Record TransferResultSuccess := {
  res_from : ResolvedAddress;
  res_to : ResolvedAddress;
  res_chain : ChainInfo;
  res_token_symbol : string;
  res_token_address : Address;
  res_amount_value : string;
  res_amount_raw : string;
  res_strategy : SweepStrategy;
  res_tx_hash : Hex;
  res_tx_receipt : option Receipt;
}.

Inductive TransferResult :=
| Success (r : TransferResultSuccess)
| Failure (from to : ResolvedAddress) (code : ErrorCode) (message : string).

Record PermitData := {
  permit_owner : Address;
  permit_spender : Address;
  permit_value : Z;
  permit_deadline : Z;
  permit_v : option Z;
  permit_r : Hex;
  permit_s : Hex;
}.

Record AuthorizationData := {
  auth_from : Address;
  auth_to : Address;
  auth_value : Z;
  auth_validAfter : Z;
  auth_validBefore : Z;
  auth_nonce : Hex;
  auth_v : option Z;
  auth_r : Hex;
  auth_s : Hex;
}.

(** The EIP-712 payload handed to [account.signTypedData]. *)
Record TypedDomain := {
  domain_name : string;
  domain_version : string;
  domain_chainId : Z;
  domain_verifyingContract : Address;
}.

Inductive TypedMessage :=
| PermitMessage (owner spender : Address) (value nonce deadline : Z)
| TransferWithAuthorizationMessage
    (from to : Address) (value validAfter validBefore : Z) (nonce : Hex).

(* ===================================================================== *)
(** ** The chain, the signer and the trace of a run *)
(* ===================================================================== *)

(** The calls that leave the process. *)
Inductive Call :=
| GetChainId
| GetGasPrice
| GetBalance (owner : Address)
| ReadSymbol (token : Address)
| ReadName (token : Address)
| ReadBalanceOf (token owner : Address)
| ReadNonces (token owner : Address)
| ReadDomainSeparator (token : Address)
| ReadAuthorizationState (token authorizer : Address) (nonce : Hex)
| WaitForTransactionReceipt (hash : Hex)
| SignTypedData (signer : Address) (domain : TypedDomain) (message : TypedMessage)
| GetRandomValues
| SendTransaction (signer to : Address) (value : Z)
| WriteTransfer (signer token to : Address) (amount : Z)
| WritePermit (signer token : Address) (data : PermitData)
| WriteTransferWithAuthorization (signer token : Address) (data : AuthorizationData).

Inductive Reply :=
| Threw (message : string)
| GaveNumber (n : Z)
| GaveText (s : string)
| GaveBool (b : bool)
| GaveReceipt (r : Receipt).

Record Event := { call : Call; reply : Reply }.

(** A call that produces a signature. *)
Definition is_signature (c : Call) : bool :=
  match c with SignTypedData _ _ _ => true | _ => false end.

(** A call that submits a transaction (and so consumes an account nonce). *)
Definition is_submission (c : Call) : bool :=
  match c with
  | SendTransaction _ _ _ | WriteTransfer _ _ _ _ | WritePermit _ _ _
  | WriteTransferWithAuthorization _ _ _ => true
  | _ => false
  end.

(** A capability probe of [detectStrategy]. *)
Definition is_probe (c : Call) : bool :=
  match c with
  | ReadDomainSeparator _ | ReadAuthorizationState _ _ _ => true
  | _ => false
  end.

(** A call made by [detectStrategy]. *)
Definition is_detection (c : Call) : bool :=
  match c with
  | GetChainId => true
  | _ => is_probe c
  end.

(** A read of the balance of the source address. *)
Definition is_balance_read (c : Call) : bool :=
  match c with
  | GetBalance _ | ReadBalanceOf _ _ => true
  | _ => false
  end.

(** The reads that feed the computation of the amount. *)
Definition is_amount_read (c : Call) : bool :=
  match c with
  | GetGasPrice => true
  | _ => is_balance_read c
  end.

(** What a dry run may call: the balance read, the gas-price read of a
    native sweep, and the calls of [detectStrategy]. *)
Definition is_dry_run_call (c : Call) : bool :=
  match c with
  | GetGasPrice => true
  | _ => is_balance_read c || is_detection c
  end.

(** Neither a submission nor a wait for a receipt. *)
Definition is_prelude (c : Call) : bool :=
  match c with
  | WaitForTransactionReceipt _ => false
  | _ => negb (is_submission c)
  end.

(** The address-generator context of a [TransferContext]. *)
Record AddressGeneratorContext := {
  ctx_mnemonic : option string;
  ctx_xpriv : option string;
  ctx_passphrase : option string;
}.

(** What the embedded code takes from viem, from the modules of the
    repository that derive keys and addresses, and from the chain.
    [W] is the world (chain and signer state), [Client] a [PublicClient],
    [Account] a [LocalAccount].  A chain operation answers with the message
    of the error it throws or with its value. *)
Class Env (W Client Account : Type) := {
  (* viem *)
  isAddress : string -> bool;
  parseUnits : string -> Z -> string + Z;
  formatUnits : Z -> Z -> string;
  account_address : Account -> Address;
  (* chain/client.ts, address/generator.ts, wallet/ *)
  getPublicClient : HotSweepConfig -> string -> Res Client;
  generateAddress : AddressGeneratorContext -> Z -> Res Address;
  accountFromMnemonic : string -> option string -> Z -> Res Account;
  accountFromExtendedKey : string -> Z -> Res Account;
  (* PublicClient *)
  rpc_getChainId : Client -> W -> (string + Z) * W;
  rpc_getGasPrice : Client -> W -> (string + Z) * W;
  rpc_getBalance : Client -> Address -> W -> (string + Z) * W;
  rpc_symbol : Client -> Address -> W -> (string + string) * W;
  rpc_name : Client -> Address -> W -> (string + string) * W;
  rpc_balanceOf : Client -> Address -> Address -> W -> (string + Z) * W;
  rpc_nonces : Client -> Address -> Address -> W -> (string + Z) * W;
  rpc_DOMAIN_SEPARATOR : Client -> Address -> W -> (string + Hex) * W;
  rpc_authorizationState : Client -> Address -> Address -> Hex -> W -> (string + bool) * W;
  rpc_waitForTransactionReceipt : Client -> Hex -> W -> (string + Receipt) * W;
  (* LocalAccount and crypto *)
  acct_signTypedData : Account -> TypedDomain -> TypedMessage -> W -> (string + Hex) * W;
  crypto_getRandomValues : W -> Hex * W;
  (* WalletClient of an account on a chain *)
  wallet_sendTransaction : Account -> string -> Address -> Z -> W -> (string + Hex) * W;
  wallet_transfer : Account -> string -> Address -> Address -> Z -> W -> (string + Hex) * W;
  wallet_permit : Account -> string -> Address -> PermitData -> W -> (string + Hex) * W;
  wallet_transferWithAuthorization :
    Account -> string -> Address -> AuthorizationData -> W -> (string + Hex) * W;
}.

(** The state of a run: the world, the module-level [strategyCache] and the
    calls made so far, oldest first. *)
Record State (W : Type) := {
  world : W;
  strategyCache : gmap string SweepStrategy;
  trace : list Event;
}.
Arguments world {W} _.
Arguments strategyCache {W} _.
Arguments trace {W} _.

(** Computations that may throw. *)
Definition M (W A : Type) : Type := State W -> Res A * State W.

Definition ret {W A} (a : A) : M W A := fun st => (inr a, st).
Definition throw {W A} (e : Thrown) : M W A := fun st => (inl e, st).
Definition bind {W A B} (m : M W A) (k : A -> M W B) : M W B :=
  fun st => match m st with
            | (inl e, st') => (inl e, st')
            | (inr a, st') => k a st'
            end.
Definition try_catch {W A} (m : M W A) (handler : Thrown -> M W A) : M W A :=
  fun st => match m st with
            | (inl e, st') => handler e st'
            | (inr a, st') => (inr a, st')
            end.
Definition lift {W A} (r : Res A) : M W A := fun st => (r, st).

Notation "'let*' x ':=' m 'in' k" := (bind m (fun x => k))
  (at level 10, x pattern, m at level 100, k at level 200).

(** One awaited call: the operation runs on the world, the call and its
    reply are recorded, and a failure is thrown as a plain [Error]. *)
Definition perform {W A} (c : Call) (give : A -> Reply)
    (op : W -> (string + A) * W) : M W A :=
  fun st =>
    let '(r, w) := op (world st) in
    let rep := match r with inl msg => Threw msg | inr a => give a end in
    (match r with inl msg => inl (OtherError msg) | inr a => inr a end,
     {| world := w; strategyCache := strategyCache st;
        trace := trace st ++ [ {| call := c; reply := rep |} ] |}).

Definition cache_get {W} (key : string) : M W (option SweepStrategy) :=
  fun st => (inr (strategyCache st !! key), st).

Definition cache_set {W} (key : string) (s : SweepStrategy) : M W unit :=
  fun st => (inr tt, {| world := world st;
                        strategyCache := <[key := s]> (strategyCache st);
                        trace := trace st |}).

Definition cache_clear {W} : M W unit :=
  fun st => (inr tt, {| world := world st; strategyCache := ∅; trace := trace st |}).

(* ===================================================================== *)
(** ** [transfer/strategy.ts] *)
(* ===================================================================== *)

Module Strategy.
Import Js.

Definition getCacheKey (token : Address) (chainId : Z) : string :=
  string_of_number chainId +:+ ":" +:+ toLowerCase token.

Section WithEnv.
Context {W Client Account : Type} `{!Env W Client Account}.

Definition getChainId (client : Client) : M W Z :=
  perform GetChainId GaveNumber (rpc_getChainId client).

(** [checkEIP2612Support]: the rejection of the read is turned into
    [null], and the answer is whether the value read is not [null]. *)
Definition checkEIP2612Support (client : Client) (tokenAddress : Address) : M W bool :=
  try_catch
    (let* domainSeparator :=
       try_catch
         (let* d := perform (ReadDomainSeparator tokenAddress) GaveText
                      (rpc_DOMAIN_SEPARATOR client tokenAddress) in
          ret (Some d))
         (fun _ => ret None) in
     ret (bool_decide (domainSeparator ≠ None)))
    (fun _ => ret false).

(** [checkEIP3009Support]: the authorization state of the token itself
    under the zero nonce is read; the value read is ignored. *)
Definition checkEIP3009Support (client : Client) (tokenAddress : Address) : M W bool :=
  try_catch
    (let* _ := perform
                 (ReadAuthorizationState tokenAddress tokenAddress
                    "0x0000000000000000000000000000000000000000000000000000000000000000")
                 GaveBool
                 (rpc_authorizationState client tokenAddress tokenAddress
                    "0x0000000000000000000000000000000000000000000000000000000000000000") in
     ret true)
    (fun _ => ret false).

(** [detectStrategy].  The two probes of [Promise.all] are issued in
    the order of the array, and both are always issued. *)
Definition detectStrategy (client : Client) (tokenAddress : Address)
    (tokenConfig : option TokenConfig) : M W SweepStrategy :=
  (* lines 106-132: what runs when no strategy is forced *)
  let detect : M W SweepStrategy :=
    let* chainId := getChainId client in
    let cacheKey := getCacheKey tokenAddress chainId in
    let* cached := cache_get cacheKey in
    match cached with
    | Some cached => ret cached
    | None =>
        let* supportsEIP3009 := checkEIP3009Support client tokenAddress in
        let* supportsEIP2612 := checkEIP2612Support client tokenAddress in
        let strategy :=
          if supportsEIP3009 : bool then eip3009
          else if supportsEIP2612 : bool then eip2612
          else legacy in
        let* _ := cache_set cacheKey strategy in
        ret strategy
    end in
  if is_native tokenAddress then
    ret legacy
  else
    match tokenConfig ≫= token_strategy with
    | Some forced => if bool_decide (forced ≠ auto) then ret forced else detect
    | None => detect
    end.

Definition clearStrategyCache : M W unit := cache_clear.

End WithEnv.
End Strategy.

(* ===================================================================== *)
(** ** [transfer/signatures.ts] *)
(* ===================================================================== *)

Module Signatures.
Import Js.

Definition maxUint256 : Z := 2 ^ 256 - 1.

Definition hex_val (c : ascii) : option Z :=
  let n := nat_of_ascii c in
  if (48 <=? n)%nat && (n <=? 57)%nat then Some (Z.of_nat n - 48)
  else if (97 <=? n)%nat && (n <=? 102)%nat then Some (Z.of_nat n - 87)
  else if (65 <=? n)%nat && (n <=? 70)%nat then Some (Z.of_nat n - 55)
  else None.

Fixpoint read_hex (acc : Z) (seen : bool) (s : string) : option Z :=
  match s with
  | String c s' =>
      match hex_val c with
      | Some d => read_hex (16 * acc + d) true s'
      | None => if seen then Some acc else None
      end
  | EmptyString => if seen then Some acc else None
  end.

Definition strip_0x (s : string) : string :=
  match s with
  | String "0" (String "x" s') => s'
  | String "0" (String "X" s') => s'
  | _ => s
  end.

(** [parseInt(s, 16)] *)
Definition parseInt16 (s : string) : option Z :=
  match drop_spaces s with
  | String "-" s' => Z.opp <$> read_hex 0 false (strip_0x s')
  | String "+" s' => read_hex 0 false (strip_0x s')
  | s' => read_hex 0 false (strip_0x s')
  end.

(** [s.slice(a, b)] for [0 <= a <= b]. *)
Definition slice (a b : nat) (s : string) : string := substring a (b - a) s.

Definition parseSignature (signature : Hex) : Hex * Hex * option Z :=
  let sig := substring 2 (String.length signature) signature in
  let r := "0x" +:+ slice 0 64 sig in
  let s := "0x" +:+ slice 64 128 sig in
  let v := parseInt16 (slice 128 130 sig) in
  (r, s, v).

Section WithEnv.
Context {W Client Account : Type} `{!Env W Client Account}.

Definition signPermit (account : Account) (client : Client)
    (tokenAddress : Address) (tokenName : string) (tokenVersion : option string)
    (spender : Address) (value nonce : Z) (deadline : option Z) : M W PermitData :=
  let* chainId := Strategy.getChainId client in
  let deadline := default maxUint256 deadline in
  let domain := {| domain_name := tokenName;
                   domain_version := default "1" tokenVersion;
                   domain_chainId := chainId;
                   domain_verifyingContract := tokenAddress |} in
  let message := PermitMessage (account_address account) spender value nonce deadline in
  let* signature :=
    perform (SignTypedData (account_address account) domain message) GaveText
      (acct_signTypedData account domain message) in
  let '(r, s, v) := parseSignature signature in
  ret {| permit_owner := account_address account;
         permit_spender := spender;
         permit_value := value;
         permit_deadline := deadline;
         permit_v := v; permit_r := r; permit_s := s |}.

Definition generateAuthorizationNonce : M W Hex :=
  perform GetRandomValues GaveText
    (fun w => let '(h, w') := crypto_getRandomValues w in (inr h, w')).

Definition signTransferWithAuthorization (account : Account) (client : Client)
    (tokenAddress : Address) (tokenName : string) (tokenVersion : option string)
    (to : Address) (value : Z) (validAfter validBefore : option Z)
    (nonce : option Hex) : M W AuthorizationData :=
  let* chainId := Strategy.getChainId client in
  let validAfter := default 0 validAfter in
  let validBefore := default maxUint256 validBefore in
  let* nonce := match nonce with
                | Some n => ret n
                | None => generateAuthorizationNonce
                end in
  let domain := {| domain_name := tokenName;
                   domain_version := default "2" tokenVersion;
                   domain_chainId := chainId;
                   domain_verifyingContract := tokenAddress |} in
  let message :=
    TransferWithAuthorizationMessage (account_address account) to value
      validAfter validBefore nonce in
  let* signature :=
    perform (SignTypedData (account_address account) domain message) GaveText
      (acct_signTypedData account domain message) in
  let '(r, s, v) := parseSignature signature in
  ret {| auth_from := account_address account;
         auth_to := to;
         auth_value := value;
         auth_validAfter := validAfter;
         auth_validBefore := validBefore;
         auth_nonce := nonce;
         auth_v := v; auth_r := r; auth_s := s |}.

End WithEnv.
End Signatures.

(* ===================================================================== *)
(** ** [config/loader.ts]: the lookups used by the executor *)
(* ===================================================================== *)

Module Config.
Import Js.

Definition getTokenConfig (config : HotSweepConfig) (chainId symbol : string)
    : option TokenConfig :=
  match record_get (tokens config) chainId with
  | None => None
  | Some chainTokens => record_get chainTokens symbol
  end.

(** The loop over [Object.entries(config.chains)] of [toCaip2ChainId]. *)
Fixpoint find_chain (normalized : string) (entries : list (string * ChainConfig))
    : option string :=
  match entries with
  | [] => None
  | (caip2Id, chain) :: rest =>
      if String.eqb (toLowerCase (chain_name chain)) normalized then Some caip2Id
      else if existsb (fun a => String.eqb (toLowerCase a) normalized)
                (default [] (chain_aliases chain)) then Some caip2Id
      else find_chain normalized rest
  end.

Definition chainRef_string (identifier : ChainRef) : string :=
  match identifier with
  | ChainString s => s
  | ChainNumber n => string_of_number n
  end.

Definition toCaip2ChainId (config : HotSweepConfig) (identifier : ChainRef)
    : option string :=
  let is_caip2 :=
    match identifier with
    | ChainString s => includes ":" s
    | ChainNumber _ => false
    end in
  let is_numeric :=
    match identifier with
    | ChainNumber _ => true
    | ChainString s => matches_plus is_digit s
    end in
  if is_caip2 then Some (chainRef_string identifier)
  else if is_numeric then
    let caip2Id := "eip155:" +:+ chainRef_string identifier in
    if bool_decide (is_Some (record_get (chains config) caip2Id))
    then Some caip2Id else None
  else find_chain (toLowerCase (chainRef_string identifier)) (chains config).


(** The loop over [Object.values(config.chains)] of [getChainConfig]. *)
Fixpoint find_chain_config (normalized : string) (values : list ChainConfig)
    : option ChainConfig :=
  match values with
  | [] => None
  | chain :: rest =>
      if String.eqb (toLowerCase (chain_name chain)) normalized then Some chain
      else if existsb (fun a => String.eqb (toLowerCase a) normalized)
                (default [] (chain_aliases chain)) then Some chain
      else find_chain_config normalized rest
  end.

Definition getChainConfig (config : HotSweepConfig) (identifier : ChainRef)
    : option ChainConfig :=
  match identifier with
  | ChainString s =>
      if includes ":" s then record_get (chains config) s
      else if matches_plus is_digit s then record_get (chains config) ("eip155:" +:+ s)
      else find_chain_config (toLowerCase s) (snd <$> chains config)
  | ChainNumber n => record_get (chains config) ("eip155:" +:+ string_of_number n)
  end.

End Config.

(* ===================================================================== *)
(** ** [transfer/executor.ts] *)
(* ===================================================================== *)

Module Executor.
Import Js.

Record TransferContext (Account : Type) := {
  config : HotSweepConfig;
  addressContext : option AddressGeneratorContext;
  signerAccount : option Account;
}.
Arguments config {Account} _.
Arguments addressContext {Account} _.
Arguments signerAccount {Account} _.

(** [`${strategy}`] *)
Definition strategy_string (s : SweepStrategy) : string :=
  match s with
  | auto => "auto"
  | eip7702 => "eip7702"
  | eip2612 => "eip2612"
  | eip3009 => "eip3009"
  | legacy => "legacy"
  end.

(** [String(options.from)] *)
Definition spec_string (v : string + AddressSpec) : string :=
  match v with
  | inl s => s
  | inr _ => "[object Object]"
  end.

(** A string that is neither [undefined] nor empty. *)
Definition truthy (s : option string) : option string :=
  match s with
  | Some "" => None
  | _ => s
  end.

(** [/^0x[a-fA-F0-9]{40}$/.test(token)] *)
Definition is_hex_address (token : string) : bool :=
  match token with
  | String "0" (String "x" rest) =>
      (String.length rest =? 40)%nat
      && all_chars (fun c => bool_decide (is_Some (Signatures.hex_val c))) rest
  | _ => false
  end.

Definition resolveTokenAddress (config : HotSweepConfig) (chainId token : string)
    : Res Address :=
  if is_hex_address token then inr token
  else
    let chainConfig := record_get (chains config) chainId in
    if bool_decide (Some (toUpperCase token)
                    = (fun c => toUpperCase (chain_nativeSymbol c)) <$> chainConfig)
       || String.eqb (toLowerCase token) "native"
    then inr NATIVE_TOKEN_ADDRESS
    else
      match truthy (Config.getTokenConfig config chainId token ≫= token_address) with
      | Some a => inr a
      | None =>
          inl (HotSweepError TOKEN_NOT_FOUND
                 ("Token not found: " +:+ token +:+ " on chain " +:+ chainId))
      end.

(** The result assembled in the [catch] clauses. *)
Definition failure_of (from to : ResolvedAddress) (error : Thrown) : TransferResult :=
  match error with
  | HotSweepError code message => Failure from to code message
  | OtherError message => Failure from to TRANSFER_FAILED message
  end.

Section WithEnv.
Context {W Client Account : Type} `{!Env W Client Account}.

Definition getSignerAccount (context : TransferContext Account) (identifier : string)
    : Res (option Account) :=
  match signerAccount context with
  | Some account => inr (Some account)
  | None =>
      match addressContext context with
      | Some actx =>
          match parseInt identifier with
          | Some index =>
              match truthy (ctx_mnemonic actx) with
              | Some mnemonic =>
                  res_map Some (accountFromMnemonic mnemonic (ctx_passphrase actx) index)
              | None =>
                  match truthy (ctx_xpriv actx) with
                  | Some xpriv => res_map Some (accountFromExtendedKey xpriv index)
                  | None => inr None
                  end
              end
          | None => inr None
          end
      | None => inr None
      end
  end.

(** Reading [chainConfig.chainId] for the result literal of a dry run:
    [chainConfig] is typed [ChainConfig] and obtained by
    [config.chains[chainId]!], and the read throws a [TypeError] when the
    chain identifier is not a key of [config.chains]. *)
Definition chainConfig_read (chainConfig : option ChainConfig) : M W ChainConfig :=
  match chainConfig with
  | Some c => ret c
  | None => throw (OtherError "Cannot read properties of undefined (reading 'chainId')")
  end.

(** [buildChainDefinition(chainConfig, chainId)] of [chain/client.ts], by
    which a real run makes its wallet client: a chain that is not of the
    namespace [eip155], or has no chain id or the chain id 0, is refused;
    on [undefined] the read of its namespace throws a [TypeError].  The
    chain definition built is stood for by the configuration it is built
    from.  A configuration is taken to be of its declared type, which has
    [rpcUrls.default.http]: the reads of it, here and for the transport
    of the wallet client, do not throw. *)
Definition buildChainDefinition (chainConfig : option ChainConfig) (caip2Id : string)
    : Res ChainConfig :=
  match chainConfig with
  | Some c =>
      if negb (String.eqb (chain_namespace c) "eip155")
         || match chain_chainId c with
            | Some id => id =? 0
            | None => true
            end
      then inl (HotSweepError CHAIN_UNSUPPORTED
                  ("Non-EVM chains not supported yet: " +:+ caip2Id))
      else inr c
  | None => inl (OtherError "Cannot read properties of undefined (reading 'namespace')")
  end.

(** [executeSingleTransfer], lines 435-446: "Check balance". *)
Definition checkBalance (client : Client) (tokenAddress fromAddress : Address) : M W Z :=
  if is_native tokenAddress
  then perform (GetBalance fromAddress) GaveNumber (rpc_getBalance client fromAddress)
  else perform (ReadBalanceOf tokenAddress fromAddress) GaveNumber
         (rpc_balanceOf client tokenAddress fromAddress).

(** Lines 448-462: "Calculate transfer amount". *)
Definition calculateTransferAmount (client : Client) (tokenAddress : Address)
    (decimals : Z) (amount : string) (balance : Z) : M W Z :=
  if String.eqb amount "all" then
    if is_native tokenAddress then
      (* Reserve gas for transfer *)
      let* gasPrice := perform GetGasPrice GaveNumber (rpc_getGasPrice client) in
      let estimatedGas := 21000 in
      let gasCost := gasPrice * estimatedGas * 2 in
      ret (if balance >? gasCost then balance - gasCost else 0)
    else ret balance
  else
    match parseUnits amount decimals with
    | inl msg => throw (OtherError msg)
    | inr v => ret v
    end.

(** Lines 464-476: the two guards on the amount. *)
Definition guardTransferAmount (decimals balance transferAmount : Z) : M W unit :=
  if transferAmount =? 0 then
    throw (HotSweepError TRANSFER_INSUFFICIENT_BALANCE "Insufficient balance for transfer")
  else if transferAmount >? balance then
    throw (HotSweepError TRANSFER_INSUFFICIENT_BALANCE
             ("Insufficient balance: " +:+ formatUnits balance decimals +:+ " < "
              +:+ formatUnits transferAmount decimals))
  else ret tt.

(** Lines 478-483: "Determine strategy". *)
Definition determineStrategy (context : TransferContext Account) (client : Client)
    (chainId : string) (tokenAddress : Address) (symbol : string)
    (strategyOption : option SweepStrategy) : M W SweepStrategy :=
  let tokenConfig :=
    record_get (tokens (config context)) chainId ≫= (fun t => record_get t symbol) in
  match strategyOption with
  | Some s =>
      if bool_decide (s = auto)
      then Strategy.detectStrategy client tokenAddress tokenConfig
      else ret s
  | None => Strategy.detectStrategy client tokenAddress tokenConfig
  end.

(** Lines 525-666: "Execute based on strategy"; the value is [txHash]. *)
Definition submitTransfer (client : Client) (account : Account) (chainId : string)
    (fromAddress toAddress tokenAddress : Address) (transferAmount : Z)
    (strategy : SweepStrategy) : M W Hex :=
  let signer := account_address account in
  if is_native tokenAddress then
    (* Native transfer *)
    perform (SendTransaction signer toAddress transferAmount) GaveText
      (wallet_sendTransaction account chainId toAddress transferAmount)
  else
    match strategy with
    | legacy =>
        (* ERC20 transfer *)
        perform (WriteTransfer signer tokenAddress toAddress transferAmount) GaveText
          (wallet_transfer account chainId tokenAddress toAddress transferAmount)
    | eip2612 =>
        (* EIP-2612 permit + transferFrom *)
        let* tokenName :=
          perform (ReadName tokenAddress) GaveText (rpc_name client tokenAddress) in
        let* nonce :=
          perform (ReadNonces tokenAddress fromAddress) GaveNumber
            (rpc_nonces client tokenAddress fromAddress) in
        let* permitData :=
          Signatures.signPermit account client tokenAddress tokenName None
            toAddress transferAmount nonce None in
        (* Execute permit + transfer *)
        let* txHash :=
          perform (WritePermit signer tokenAddress permitData) GaveText
            (wallet_permit account chainId tokenAddress permitData) in
        (* Transfer after permit *)
        let* _ :=
          perform (WriteTransfer signer tokenAddress toAddress transferAmount) GaveText
            (wallet_transfer account chainId tokenAddress toAddress transferAmount) in
        ret txHash
    | eip3009 =>
        (* EIP-3009 transferWithAuthorization *)
        let* tokenName :=
          perform (ReadName tokenAddress) GaveText (rpc_name client tokenAddress) in
        let* authData :=
          Signatures.signTransferWithAuthorization account client tokenAddress
            tokenName None toAddress transferAmount None None None in
        perform (WriteTransferWithAuthorization signer tokenAddress authData) GaveText
          (wallet_transferWithAuthorization account chainId tokenAddress authData)
    | _ =>
        throw (HotSweepError STRATEGY_UNSUPPORTED
                 ("Strategy not supported: " +:+ strategy_string strategy))
    end.

(** The [TransferResultSuccess] literal of lines 487-504 and 671-693. *)
Definition successResult (chainId : string) (cc : ChainConfig)
    (fromAddress : Address) (fromIdentifier : string)
    (toAddress : Address) (toIdentifier : string)
    (tokenAddress : Address) (symbol : string) (decimals transferAmount : Z)
    (strategy : SweepStrategy) (hash : Hex) (receipt : option Receipt)
    : TransferResult :=
  Success
    {| res_from := {| identifier := fromIdentifier; address := fromAddress |};
       res_to := {| identifier := toIdentifier; address := toAddress |};
       res_chain := {| info_id := chain_chainId cc;
                       info_name := chain_name cc;
                       info_caip2Id := chainId |};
       res_token_symbol := symbol;
       res_token_address := tokenAddress;
       res_amount_value := formatUnits transferAmount decimals;
       res_amount_raw := string_of_number transferAmount;
       res_strategy := strategy;
       res_tx_hash := hash;
       res_tx_receipt := receipt |}.

Definition executeSingleTransfer
    (context : TransferContext Account) (client : Client)
    (chainId : string) (chainConfig : option ChainConfig)
    (fromAddress : Address) (fromIdentifier : string)
    (toAddress : Address) (toIdentifier : string)
    (tokenAddress : Address) (symbol : string) (decimals : Z)
    (amount : string) (strategyOption : option SweepStrategy) (dryRun : bool)
    : M W TransferResult :=
  (* Check balance *)
  let* balance := checkBalance client tokenAddress fromAddress in
  (* Calculate transfer amount *)
  let* transferAmount :=
    calculateTransferAmount client tokenAddress decimals amount balance in
  let* _ := guardTransferAmount decimals balance transferAmount in
  (* Determine strategy *)
  let* strategy :=
    determineStrategy context client chainId tokenAddress symbol strategyOption in
  if dryRun then
    (* Simulate only *)
    let* cc := chainConfig_read chainConfig in
    ret (successResult chainId cc fromAddress fromIdentifier toAddress toIdentifier
           tokenAddress symbol decimals transferAmount strategy "0x" None)
  else
  (* Get signer account *)
  let* account :=
    match getSignerAccount context fromIdentifier with
    | inl e => throw e
    | inr None =>
        throw (HotSweepError WALLET_KEY_NOT_FOUND
                 ("No signer available for address: " +:+ fromAddress))
    | inr (Some account) => ret account
    end in
  (* Create wallet client *)
  let* cc := lift (buildChainDefinition chainConfig chainId) in
  (* Execute based on strategy *)
  let* txHash :=
    submitTransfer client account chainId fromAddress toAddress tokenAddress
      transferAmount strategy in
  (* Wait for confirmation *)
  let* receipt :=
    perform (WaitForTransactionReceipt txHash) GaveReceipt
      (rpc_waitForTransactionReceipt client txHash) in
  ret (successResult chainId cc fromAddress fromIdentifier toAddress toIdentifier
         tokenAddress symbol decimals transferAmount strategy txHash (Some receipt)).

(** The loop [for (const { identifier, address: fromAddress } of fromAddresses)]
    with its [try]/[catch]; [results] is the array built so far. *)
Fixpoint transferEach
    (context : TransferContext Account) (client : Client)
    (chainId : string) (chainConfig : option ChainConfig)
    (toAddress : Address) (options : TransferOptions)
    (tokenAddress : Address) (symbol : string) (decimals : Z)
    (results : list TransferResult) (fromAddresses : list ResolvedAddress)
    : M W (list TransferResult) :=
  match fromAddresses with
  | [] => ret results
  | {| identifier := identifier; address := fromAddress |} :: rest =>
      let* result :=
        try_catch
          (executeSingleTransfer context client chainId chainConfig
             fromAddress identifier toAddress (spec_string (opt_to options))
             tokenAddress symbol decimals
             (opt_amount options) (opt_strategy options) (opt_dryRun options))
          (fun error =>
             ret (failure_of
                    {| identifier := identifier; address := fromAddress |}
                    {| identifier := spec_string (opt_to options); address := toAddress |}
                    error)) in
      transferEach context client chainId chainConfig toAddress options
        tokenAddress symbol decimals (results ++ [result]) rest
  end.

(** [results.length === 1 ? results[0]! : results[results.length - 1]!];
    [None] is [undefined]. *)
Definition pick_result (results : list TransferResult) : option TransferResult :=
  if (length results =? 1)%nat then results !! 0%nat else last results.

(** Everything up to the loop: what the request resolves to. *)
Record Resolved := {
  r_chainId : string;
  r_chainConfig : option ChainConfig;
  r_client : Client;
  r_fromAddresses : list ResolvedAddress;
  r_toAddress : Address;
  r_tokenAddress : Address;
  r_symbol : string;
  r_decimals : Z;
}.

Definition resolveRequest (context : TransferContext Account)
    (options : TransferOptions) : M W Resolved :=
  let config := config context in
  (* Resolve chain *)
  let* chainId :=
    match truthy (Config.toCaip2ChainId config (opt_chain options)) with
    | None =>
        throw (HotSweepError CHAIN_NOT_FOUND
                 ("Chain not found: " +:+ Config.chainRef_string (opt_chain options)))
    | Some chainId => ret chainId
    end in
  let chainConfig := record_get (chains config) chainId in
  let* client := lift (getPublicClient config chainId) in
  (* Resolve addresses *)
  let fromSpec :=
    Parser.parseAddressSpec isAddress
      (Parser.RawString (spec_string (opt_from options))) (Some (wallets config)) in
  let toSpec :=
    Parser.parseAddressSpec isAddress
      (Parser.RawString (spec_string (opt_to options))) (Some (wallets config)) in
  let addressResolver :=
    (fun actx index => generateAddress actx index) <$> addressContext context in
  let* fromAddresses :=
    lift (Parser.resolveToAddresses (Some (wallets config)) addressResolver fromSpec) in
  let* toAddress :=
    lift (Parser.resolveToAddress (Some (wallets config)) addressResolver toSpec) in
  (* Resolve token *)
  let* tokenAddress := lift (resolveTokenAddress config chainId (opt_token options)) in
  let tokenConfig := Config.getTokenConfig config chainId (opt_token options) in
  let isNative := is_native tokenAddress in
  let decimals := default (if isNative then 18 else 18) (tokenConfig ≫= token_decimals) in
  (* Get token symbol *)
  let* symbol :=
    if negb isNative && negb (String.eqb tokenAddress NATIVE_TOKEN_ADDRESS) then
      try_catch
        (perform (ReadSymbol tokenAddress) GaveText (rpc_symbol client tokenAddress))
        (fun _ => ret (opt_token options))
    else ret (opt_token options) in
  ret {| r_chainId := chainId; r_chainConfig := chainConfig; r_client := client;
         r_fromAddresses := fromAddresses; r_toAddress := toAddress;
         r_tokenAddress := tokenAddress; r_symbol := symbol; r_decimals := decimals |}.

Definition executeTransfer (context : TransferContext Account)
    (options : TransferOptions) : M W (option TransferResult) :=
  try_catch
    (let* r := resolveRequest context options in
     (* Execute transfers for each source address *)
     let* results :=
       transferEach context (r_client r) (r_chainId r) (r_chainConfig r)
         (r_toAddress r) options (r_tokenAddress r) (r_symbol r) (r_decimals r)
         [] (r_fromAddresses r) in
     (* Return first result for single transfer, or last for batch *)
     ret (pick_result results))
    (fun error =>
       let fromSpec :=
         Parser.parseAddressSpec isAddress
           (Parser.RawString (spec_string (opt_from options)))
           (Some (wallets (config context))) in
       let toSpec :=
         Parser.parseAddressSpec isAddress
           (Parser.RawString (spec_string (opt_to options)))
           (Some (wallets (config context))) in
       ret (Some (failure_of
                    {| identifier := spec_string (opt_from options);
                       address := match fromSpec with
                                  | SpecAddress value => value
                                  | _ => "0x0"
                                  end |}
                    {| identifier := spec_string (opt_to options);
                       address := match toSpec with
                                  | SpecAddress value => value
                                  | _ => "0x0"
                                  end |}
                    error))).

End WithEnv.
End Executor.

(* ===================================================================== *)
(** ** The specification of range expansion, in its own words *)
(* ===================================================================== *)

Module Spec.
Import Js.

(** A bare integer: a non-empty run of decimal digits. *)
Definition bare_integer (s : string) : option Z :=
  if matches_plus is_digit s then parseInt s else None.

(** A segment is either a bare integer or a [start-end] pair; anything
    else is non-numeric ([None]).  White space around a segment and around
    its bounds is not significant. *)
Definition segment_bounds (segment : string) : option (Z * Z) :=
  match split "-" (trim segment) with
  | [n] => (fun v => (v, v)) <$> bare_integer n
  | [a; b] =>
      match bare_integer (trim a), bare_integer (trim b) with
      | Some start, Some end_ => Some (start, end_)
      | _, _ => None
      end
  | _ => None
  end.

(** [expandRange] fails with [InvalidRange] when a segment is non-numeric
    or [start > end]. *)
Definition segment_rejected (segment : string) : bool :=
  match segment_bounds segment with
  | None => true
  | Some (start, end_) => start >? end_
  end.

Definition expandRange_fails (text : string) : bool :=
  existsb segment_rejected (split "," text).

End Spec.

(* ===================================================================== *)
(** ** A small chain to run the embedding on *)
(* ===================================================================== *)

Module Demo.
Import Js.

(** What the chain answers: the balance of each holder, the gas price,
    the two capabilities of every token, and whether submissions are
    accepted. *)
Record Chain := {
  balance : Address → Z;
  gasPrice : Z;
  has3009 : bool;
  has2612 : bool;
  accepts : bool;
}.

Definition answer {A} (ok : bool) (a : A) (w : nat) : (string + A) * nat :=
  (if ok then inr a else inl "execution reverted", w).

(** A submission is given the next transaction hash; the world counts the
    transactions submitted so far. *)
Definition submit (c : Chain) (w : nat) : (string + Hex) * nat :=
  if accepts c then (inr ("0xtx" +:+ pretty w), S w)
  else (inl "execution reverted", w).

Definition env (c : Chain) : Env nat unit string := {|
  isAddress := Executor.is_hex_address;
  parseUnits := fun s _ =>
    match Spec.bare_integer s with
    | Some n => inr n
    | None => inl "Number is not a valid decimal number."
    end;
  formatUnits := fun v _ => pretty v;
  account_address := fun a => a;
  getPublicClient := fun _ _ => inr tt;
  generateAddress := fun _ i => inr ("0xd" +:+ pretty i);
  accountFromMnemonic := fun _ _ i => inr ("0xd" +:+ pretty i);
  accountFromExtendedKey := fun _ i => inr ("0xd" +:+ pretty i);
  rpc_getChainId := fun _ => answer true 31337;
  rpc_getGasPrice := fun _ => answer true (gasPrice c);
  rpc_getBalance := fun _ holder => answer true (balance c holder);
  rpc_symbol := fun _ _ => answer true "TKN";
  rpc_name := fun _ _ => answer true "Token";
  rpc_balanceOf := fun _ _ holder => answer true (balance c holder);
  rpc_nonces := fun _ _ _ => answer true 0;
  rpc_DOMAIN_SEPARATOR := fun _ _ => answer (has2612 c) "0x00";
  rpc_authorizationState := fun _ _ _ _ => answer (has3009 c) false;
  rpc_waitForTransactionReceipt := fun _ _ =>
    answer true {| blockNumber := 1; gasUsed := 21000; effectiveGasPrice := gasPrice c |};
  acct_signTypedData := fun _ _ _ => answer true "0xsig";
  crypto_getRandomValues := fun w => ("0x01", w);
  wallet_sendTransaction := fun _ _ _ _ => submit c;
  wallet_transfer := fun _ _ _ _ _ => submit c;
  wallet_permit := fun _ _ _ _ => submit c;
  wallet_transferWithAuthorization := fun _ _ _ _ => submit c;
|}.

Definition start : State nat := {| world := 0%nat; strategyCache := ∅; trace := [] |}.

Definition token : Address := "0x5FbDB2315678afecb367f032d93F642f64180aa3".
Definition hot : Address := "0x70997970C51812dc3A010C7d01b50e0d17dc79C8".

Definition anvil : ChainConfig := {|
  chain_namespace := "eip155";
  chain_chainId := Some 31337;
  chain_name := "anvil";
  chain_aliases := None;
  chain_nativeSymbol := "ETH";
|}.

Definition hotsweep : HotSweepConfig := {|
  chains := [("eip155:31337", anvil)];
  wallets := [("hot-wallet", {| wallet_address := hot |})];
  tokens := [("eip155:31337",
              [("TKN", {| token_address := Some token;
                          token_decimals := Some 18;
                          token_strategy := None |})])];
|}.

Definition context : Executor.TransferContext string := {|
  Executor.config := hotsweep;
  Executor.addressContext :=
    Some {| ctx_mnemonic := Some "test test test"; ctx_xpriv := None;
            ctx_passphrase := None |};
  Executor.signerAccount := None;
|}.

Definition request (from token amount : string) (dryRun : bool) : TransferOptions := {|
  opt_from := inl from;
  opt_to := inl "hot-wallet";
  opt_chain := ChainString "anvil";
  opt_token := token;
  opt_amount := amount;
  opt_strategy := None;
  opt_dryRun := dryRun;
|}.

(** Every holder has 100000 units; tokens support permits only. *)
Definition rich : Chain :=
  {| balance := fun _ => 100000; gasPrice := 1;
     has3009 := false; has2612 := true; accepts := true |}.

(** The address of index 0 is empty, every other holder has 100000 units. *)
Definition uneven : Chain :=
  {| balance := fun holder => if String.eqb holder "0xd0" then 0 else 100000;
     gasPrice := 1; has3009 := false; has2612 := true; accepts := true |}.

(** Every holder has 1000 units and the gas price is 1: the reserve of a
    native sweep, 42000, exceeds the balance. *)
Definition poor : Chain :=
  {| balance := fun _ => 1000; gasPrice := 1;
     has3009 := false; has2612 := true; accepts := true |}.

(** Tokens support both authorizations and permits. *)
Definition capable : Chain :=
  {| balance := fun _ => 100000; gasPrice := 1;
     has3009 := true; has2612 := true; accepts := true |}.

End Demo.

(* ===================================================================== *)
(** ** [wallet/derivation.ts]: derivation paths *)
(* ===================================================================== *)

Module Derivation.
Import Js.

Record HDPath := {
  purpose : Z;
  coinType : Z;
  account : Z;
  change : Z;
  addressIndex : Z;
}.

Definition ETH_COIN_TYPE : Z := 60.

(** [buildPath]: the components left out of [options] take their defaults. *)
Definition buildPath (purpose coinType account change : option Z) (addressIndex : Z)
    : string :=
  "m/" +:+ string_of_number (default 44 purpose) +:+ "'/"
  +:+ string_of_number (default ETH_COIN_TYPE coinType) +:+ "'/"
  +:+ string_of_number (default 0 account) +:+ "'/"
  +:+ string_of_number (default 0 change) +:+ "/"
  +:+ string_of_number addressIndex.

Definition getParentPath (coinType : option Z) : string :=
  "m/44'/" +:+ string_of_number (default ETH_COIN_TYPE coinType) +:+ "'/0'/0".

(** The longest run of digits at the head of a text, and what follows it. *)
Fixpoint take_digits (s : string) : string * string :=
  match s with
  | String c s' =>
      if is_digit c then let '(digits, rest) := take_digits s' in (String c digits, rest)
      else (EmptyString, s)
  | EmptyString => (EmptyString, EmptyString)
  end.

(** A group [(\d+)] at the head of a text. *)
Definition group (s : string) : option (string * string) :=
  match take_digits s with
  | (EmptyString, _) => None
  | (digits, rest) => Some (digits, rest)
  end.

(** A literal at the head of a text. *)
Fixpoint literal (lit s : string) : option string :=
  match lit, s with
  | EmptyString, _ => Some s
  | String c lit', String d s' => if Ascii.eqb c d then literal lit' s' else None
  | String _ _, EmptyString => None
  end.

(** [path.match(/^m\/(\d+)'\/(\d+)'\/(\d+)'\/(\d+)\/(\d+)$/)]: the five
    groups.  Every group is followed by a character that is not a digit
    or by the end of the text, so the longest run of digits is the only
    candidate for it. *)
Definition match_path (path : string)
    : option (string * string * string * string * string) :=
  rest ← literal "m/" path;
  '(g1, rest) ← group rest;
  rest ← literal "'/" rest;
  '(g2, rest) ← group rest;
  rest ← literal "'/" rest;
  '(g3, rest) ← group rest;
  rest ← literal "'/" rest;
  '(g4, rest) ← group rest;
  rest ← literal "/" rest;
  '(g5, rest) ← group rest;
  match rest with
  | EmptyString => Some (g1, g2, g3, g4, g5)
  | _ => None
  end.

Definition parsePath (path : string) : Res HDPath :=
  match match_path path with
  | None => inl (HotSweepError ADDRESS_INVALID ("Invalid derivation path: " +:+ path))
  | Some (g1, g2, g3, g4, g5) =>
      inr {| purpose := default 0 (parseInt g1);
             coinType := default 0 (parseInt g2);
             account := default 0 (parseInt g3);
             change := default 0 (parseInt g4);
             addressIndex := default 0 (parseInt g5) |}
  end.

End Derivation.

(* ===================================================================== *)
(** ** [config/dotpath.ts]: the text of a configuration path *)
(* ===================================================================== *)

Module DotPath.
Import Js.

(** The single and the double quote. *)
Definition is_quote (c : ascii) : bool :=
  Ascii.eqb c "'" || Ascii.eqb c "034".

Fixpoint drop_last_quote (s : string) : string :=
  match s with
  | EmptyString => EmptyString
  | String c EmptyString => if is_quote c then EmptyString else s
  | String c s' => String c (drop_last_quote s')
  end.

(** The [replace] that cleans a bracketed part: its pattern matches a
    quote at the start of the text or a quote at its end, and every
    match is removed.  So a quote at the start is removed, then a quote
    at the end of what is left. *)
Definition strip_quotes (current : string) : string :=
  drop_last_quote
    match current with
    | String c rest => if is_quote c then rest else current
    | EmptyString => EmptyString
    end.

(** [if (current) parts.push(current)] *)
Definition push (parts : list string) (current : string) : list string :=
  match current with
  | EmptyString => parts
  | _ => (parts ++ [current])%list
  end.

(** The loop of [parseDotPath] over the characters that are left, with
    its three variables. *)
Fixpoint parse_loop (parts : list string) (current : string) (inBracket : bool)
    (path : string) : list string :=
  match path with
  | EmptyString => push parts current
  | String char rest =>
      if Ascii.eqb char "[" then
        parse_loop (push parts current) "" true rest
      else if Ascii.eqb char "]" then
        parse_loop
          match current with
          | EmptyString => parts
          | _ => (parts ++ [strip_quotes current])%list
          end "" false rest
      else if Ascii.eqb char "." && negb inBracket then
        parse_loop (push parts current) "" inBracket rest
      else
        parse_loop parts (current +:+ String char "") inBracket rest
  end.

Definition parseDotPath (path : string) : list string :=
  match path with
  | EmptyString => []
  | _ => parse_loop [] "" false path
  end.

(** [parts.join(".")] *)
Fixpoint buildDotPath (parts : list string) : string :=
  match parts with
  | [] => ""
  | [part] => part
  | part :: rest => part +:+ "." +:+ buildDotPath rest
  end.

End DotPath.

(* ===================================================================== *)
(** ** [balance/query.ts]: the targets of a balance query *)
(* ===================================================================== *)

Module Query.
Import Js.

(** ["index" | "label" | "address"] *)
Inductive IdentifierType := TypeIndex | TypeLabel | TypeAddress.

Definition inferIdentifierType (identifier : string) : IdentifierType :=
  if matches_plus is_digit identifier then TypeIndex
  else if Executor.is_hex_address identifier then TypeAddress
  else TypeLabel.

Section WithEnv.
Context {W Client Account : Type} `{!Env W Client Account}.

Definition resolveTargetAddresses (config : HotSweepConfig)
    (target : string + AddressSpec) (context : option AddressGeneratorContext)
    : Res (list ResolvedAddress) :=
  let spec :=
    Parser.parseAddressSpec isAddress (Parser.RawString (Executor.spec_string target))
      (Some (wallets config)) in
  let addressResolver := (fun context index => generateAddress context index) <$> context in
  Parser.resolveToAddresses (Some (wallets config)) addressResolver spec.

End WithEnv.
End Query.

(* ===================================================================== *)
(** ** [auth/siwe.ts]: the store of sign-in nonces *)
(* ===================================================================== *)

Module Siwe.

(** The [nonceStore] is modelled by the time of creation of every nonce
    in it. *)
Definition NONCE_TTL : Z := 5 * 60 * 1000.

(** [cleanupExpiredNonces], [now] being what [Date.now()] gives. *)
Definition cleanupExpiredNonces (now : Z) (store : gmap string Z) : gmap string Z :=
  filter (fun entry => ¬ (now - entry.2 > NONCE_TTL)) store.

(** What [generateNonce] does to the store: [nonce] is what
    [generateSiweNonce()] gives, [createdAt] what [Date.now()] gives when
    the nonce is stored and [now] what it gives in the cleanup that
    follows. *)
Definition generateNonce (nonce : string) (createdAt now : Z) (store : gmap string Z)
    : gmap string Z :=
  cleanupExpiredNonces now (<[nonce := createdAt]> store).

(** [verifyNonce], [now] being what [Date.now()] gives. *)
Definition verifyNonce (now : Z) (nonce : string) (store : gmap string Z)
    : bool * gmap string Z :=
  match store !! nonce with
  | None => (false, store)
  | Some createdAt =>
      if bool_decide (now - createdAt > NONCE_TTL) then (false, delete nonce store)
      else (true, store)
  end.

Definition consumeNonce (now : Z) (nonce : string) (store : gmap string Z)
    : bool * gmap string Z :=
  let '(valid, store) := verifyNonce now nonce store in
  if valid then (true, delete nonce store) else (false, store).

End Siwe.

(* ===================================================================== *)
(** ** Further cases for the small chain *)
(* ===================================================================== *)

Module Cases.

(** As [Demo.env], but the node does not answer the chain-id read. *)
Definition unreachable (c : Demo.Chain) : Env nat unit string := {|
  isAddress := isAddress (Env := Demo.env c);
  parseUnits := parseUnits (Env := Demo.env c);
  formatUnits := formatUnits (Env := Demo.env c);
  account_address := account_address (Env := Demo.env c);
  getPublicClient := getPublicClient (Env := Demo.env c);
  generateAddress := generateAddress (Env := Demo.env c);
  accountFromMnemonic := accountFromMnemonic (Env := Demo.env c);
  accountFromExtendedKey := accountFromExtendedKey (Env := Demo.env c);
  rpc_getChainId := fun _ w => (inl "fetch failed", w);
  rpc_getGasPrice := rpc_getGasPrice (Env := Demo.env c);
  rpc_getBalance := rpc_getBalance (Env := Demo.env c);
  rpc_symbol := rpc_symbol (Env := Demo.env c);
  rpc_name := rpc_name (Env := Demo.env c);
  rpc_balanceOf := rpc_balanceOf (Env := Demo.env c);
  rpc_nonces := rpc_nonces (Env := Demo.env c);
  rpc_DOMAIN_SEPARATOR := rpc_DOMAIN_SEPARATOR (Env := Demo.env c);
  rpc_authorizationState := rpc_authorizationState (Env := Demo.env c);
  rpc_waitForTransactionReceipt := rpc_waitForTransactionReceipt (Env := Demo.env c);
  acct_signTypedData := acct_signTypedData (Env := Demo.env c);
  crypto_getRandomValues := crypto_getRandomValues (Env := Demo.env c);
  wallet_sendTransaction := wallet_sendTransaction (Env := Demo.env c);
  wallet_transfer := wallet_transfer (Env := Demo.env c);
  wallet_permit := wallet_permit (Env := Demo.env c);
  wallet_transferWithAuthorization := wallet_transferWithAuthorization (Env := Demo.env c);
|}.

(** A context without any key: no signer and no address generator. *)
Definition keyless : Executor.TransferContext string := {|
  Executor.config := Demo.hotsweep;
  Executor.addressContext := None;
  Executor.signerAccount := None;
|}.

End Cases.

(* ===================================================================== *)
(** ** The vocabulary of the properties *)
(* ===================================================================== *)

(** The nonce under which [checkEIP3009Support] reads the authorization
    state. *)
Definition zero_nonce : Hex :=
  "0x0000000000000000000000000000000000000000000000000000000000000000".

(** No strategy is forced by the token configuration. *)
Definition unforced (tokenConfig : option TokenConfig) : Prop :=
  tokenConfig ≫= token_strategy = None ∨ tokenConfig ≫= token_strategy = Some auto.

(** [stepwise R m]: every run of [m], whether it returns or throws, relates
    the state it starts from to the state it ends in by [R]. *)
Definition stepwise {W A} (R : relation (State W)) (m : M W A) : Prop :=
  ∀ st r st', m st = (r, st') → R st st'.

(** The run appended to the trace only calls that satisfy [P]. *)
Definition emits {W} (P : Call → bool) : relation (State W) :=
  fun st st' => ∃ evs, trace st' = (trace st ++ evs)%list
                       ∧ Forall (fun e => P (call e) = true) evs.

(** The [strategyCache] holds no [auto]. *)
Definition no_auto {W} (st : State W) : Prop :=
  ∀ key, strategyCache st !! key ≠ Some auto.

Definition keeps_no_auto {W} : relation (State W) :=
  fun st st' => no_auto st → no_auto st'.

(** A specification that is resolved through indices. *)
Definition by_index (spec : AddressSpec) : bool :=
  match spec with
  | SpecIndex _ | SpecIndices _ | SpecRange _ => true
  | SpecAddress _ | SpecLabel _ => false
  end.

(** What a transfer of the native asset may call. *)
Definition is_native_call (c : Call) : bool :=
  match c with
  | GetBalance _ | GetGasPrice | SendTransaction _ _ _ | WaitForTransactionReceipt _ => true
  | _ => false
  end.

(** Every strategy cached before is cached after. *)
Definition cache_grows {W} : relation (State W) :=
  fun st st' => strategyCache st ⊆ strategyCache st'.

(** A part of a configuration path that [parseDotPath] reads as it
    stands: not empty, without a dot and without brackets. *)
Definition plain_part (part : string) : Prop :=
  part ≠ "" ∧ Js.includes "." part = false ∧ Js.includes "[" part = false
  ∧ Js.includes "]" part = false.

Section Units.
Context {W Client Account : Type} `{!Env W Client Account}.
Import Executor.

(** The outcome recorded for one source address: the result its unit
    returned, or the [Failure] that carries the source and destination
    identifiers, the code of the [HotSweepError] thrown (or
    [TRANSFER_FAILED] for any other error) and its message. *)
Definition unit_outcome (source destination : ResolvedAddress)
    (out : Res TransferResult) : TransferResult :=
  match out with
  | inr result => result
  | inl (HotSweepError code message) => Failure source destination code message
  | inl (OtherError message) => Failure source destination TRANSFER_FAILED message
  end.

(** [unitsRun ... st sources outcomes st']: starting in [st], the unit of
    every source address is run once, in order, each from the state the
    previous one ended in, whether that one returned or threw;
    [outcomes] are their outcomes, one per address, and [st'] is the state
    after the last. *)
Inductive unitsRun (context : TransferContext Account) (client : Client)
    (chainId : string) (chainConfig : option ChainConfig) (toAddress : Address)
    (options : TransferOptions) (tokenAddress : Address) (symbol : string)
    (decimals : Z)
    : State W → list ResolvedAddress → list TransferResult → State W → Prop :=
| units_done st :
    unitsRun context client chainId chainConfig toAddress options tokenAddress
      symbol decimals st [] [] st
| units_step st source rest out st1 outcomes st2 :
    executeSingleTransfer context client chainId chainConfig
      (address source) (identifier source) toAddress (spec_string (opt_to options))
      tokenAddress symbol decimals
      (opt_amount options) (opt_strategy options) (opt_dryRun options) st
    = (out, st1) →
    unitsRun context client chainId chainConfig toAddress options tokenAddress
      symbol decimals st1 rest outcomes st2 →
    unitsRun context client chainId chainConfig toAddress options tokenAddress
      symbol decimals st (source :: rest)
      (unit_outcome source
         {| identifier := spec_string (opt_to options); address := toAddress |} out
       :: outcomes)
      st2.

End Units.

(* ===================================================================== *)
(** * Properties *)
(* ===================================================================== *)

(** ** Sets and sorting *)

Section SortFacts.
Import Js.

Lemma elem_of_set_spread_go seen l x :
  x ∈ set_spread_go seen l ↔ x ∈ l ∧ x ∉ seen.
Proof.
  revert seen. induction l as [|y l IH]; intros seen; simpl.
  - split; [intros Hx; inversion Hx | intros [Hx _]; inversion Hx].
  - case_bool_decide as Hy.
    + rewrite IH, elem_of_cons. split; [tauto|].
      intros [[->|Hx] Hn]; [contradiction | tauto].
    + rewrite !elem_of_cons, IH, elem_of_cons. split.
      * intros [->|[Hx Hn]]; [tauto|]. split; [tauto|]. intros Hs. apply Hn. tauto.
      * intros [[->|Hx] Hn]; [tauto|].
        destruct (decide (x = y)) as [->|Hne]; [tauto|].
        right. split; [done|]. intros [?|?]; [done|contradiction].
Qed.

Lemma NoDup_set_spread_go seen l : NoDup (set_spread_go seen l).
Proof.
  revert seen. induction l as [|y l IH]; intros seen; simpl.
  - constructor.
  - case_bool_decide as Hy; [apply IH|].
    constructor; [|apply IH].
    rewrite elem_of_set_spread_go, elem_of_cons. tauto.
Qed.

Lemma elem_of_set_spread l x : x ∈ set_spread l ↔ x ∈ l.
Proof.
  unfold set_spread. rewrite elem_of_set_spread_go. split; [tauto|].
  intros Hx. split; [done|]. intros Hn. inversion Hn.
Qed.

Lemma NoDup_set_spread l : NoDup (set_spread l).
Proof. apply NoDup_set_spread_go. Qed.

Lemma elem_of_sort_numeric l x : x ∈ sort_numeric l ↔ x ∈ l.
Proof. unfold sort_numeric. by rewrite merge_sort_Permutation. Qed.

Lemma StronglySorted_le_NoDup_lt (l : list Z) :
  StronglySorted Z.le l → NoDup l → StronglySorted Z.lt l.
Proof.
  induction 1 as [|x l Hs IH Hall]; intros Hnd; [constructor|].
  apply NoDup_cons in Hnd as [Hx Hnd].
  constructor; [by apply IH|].
  rewrite Forall_forall in Hall |- *. intros y Hy.
  assert (x ≠ y) by (intros ->; contradiction).
  specialize (Hall y Hy). lia.
Qed.

(** [[...new Set(l)].sort((a, b) => a - b)] is strictly increasing and has
    the elements of [l]. *)
Lemma normalize_strictly_increasing l :
  StronglySorted Z.lt (sort_numeric (set_spread l)).
Proof.
  apply StronglySorted_le_NoDup_lt.
  - unfold sort_numeric. apply (StronglySorted_merge_sort Z.le).
  - unfold sort_numeric. rewrite merge_sort_Permutation. apply NoDup_set_spread.
Qed.

Lemma elem_of_normalize l x : x ∈ sort_numeric (set_spread l) ↔ x ∈ l.
Proof. by rewrite elem_of_sort_numeric, elem_of_set_spread. Qed.

End SortFacts.

(** ** [parseRange] *)

Section ParserFacts.
Import Js Parser.

Lemma elem_of_push_range start end_ x :
  x ∈ push_range start end_ ↔ start ≤ x ≤ end_.
Proof. unfold push_range. rewrite elem_of_seqZ. lia. Qed.

Lemma parsePart_error part e :
  parsePart part = inl e → ∃ msg, e = HotSweepError ADDRESS_RANGE_INVALID msg.
Proof.
  unfold parsePart. intros H.
  destruct (includes "-" part).
  - destruct (parseInt (trim (default "" (split "-" part !! 0%nat)))) as [a|];
      destruct (parseInt (trim (default "" (split "-" part !! 1%nat)))) as [b|];
      try (inversion H; eauto; fail).
    destruct (a >? b); inversion H; eauto.
  - destruct (parseInt part); inversion H; eauto.
Qed.

Lemma elem_of_concat (x : Z) (ls : list (list Z)) :
  x ∈ concat ls ↔ ∃ l, x ∈ l ∧ l ∈ ls.
Proof.
  induction ls as [|l ls IH]; simpl.
  - split; [intros H; inversion H | intros (l & _ & H); inversion H].
  - rewrite elem_of_app, IH. split.
    + intros [H|(l' & H1 & H2)]; [exists l; split; [done|left] | exists l'; split; [done|by right]].
    + intros (l' & H1 & H2). apply elem_of_cons in H2 as [->|H2]; [by left|right; eauto].
Qed.

Lemma parseParts_inr acc parts l :
  parseParts acc parts = inr l →
  ∃ pushed, Forall2 (fun p ps => parsePart p = inr ps) parts pushed
            ∧ l = (acc ++ concat pushed)%list.
Proof.
  revert acc. induction parts as [|p parts IH]; intros acc; simpl.
  - intros [= <-]. exists []. split; [constructor|]. by rewrite app_nil_r.
  - destruct (parsePart p) as [e|ps] eqn:Hp; [discriminate|].
    intros H. apply IH in H as (pushed & HF & ->).
    exists (ps :: pushed). split; [by constructor|].
    simpl. by rewrite app_assoc.
Qed.

Lemma parseParts_inl acc parts e :
  parseParts acc parts = inl e → ∃ p, p ∈ parts ∧ parsePart p = inl e.
Proof.
  revert acc. induction parts as [|p parts IH]; intros acc; simpl; [discriminate|].
  destruct (parsePart p) as [e'|ps] eqn:Hp.
  - intros [= <-]. exists p. split; [left|done].
  - intros H. apply IH in H as (q & Hq & He). exists q. split; [by right|done].
Qed.

Lemma parseParts_bad acc parts p e :
  p ∈ parts → parsePart p = inl e → ∃ e', parseParts acc parts = inl e'.
Proof.
  revert acc. induction parts as [|q parts IH]; intros acc Hin Hp.
  - inversion Hin.
  - simpl. destruct (parsePart q) as [e'|ps] eqn:Hq; [eauto|].
    apply elem_of_cons in Hin as [->|Hin]; [congruence|].
    by apply IH.
Qed.

(** Whatever [parseRange] returns is strictly increasing. *)
Lemma parseRange_strictly_increasing range l :
  parseRange range = inr l → StronglySorted Z.lt l.
Proof.
  unfold parseRange.
  destruct (parseParts [] (trim <$> split "," range)); intros [= <-].
  apply normalize_strictly_increasing.
Qed.

(** [parseRange] returns exactly the indices covered by its segments. *)
Lemma parseRange_elements range l x :
  parseRange range = inr l →
  x ∈ l ↔ ∃ part pushed, part ∈ (trim <$> split "," range)
                         ∧ parsePart part = inr pushed ∧ x ∈ pushed.
Proof.
  unfold parseRange.
  destruct (parseParts [] (trim <$> split "," range)) as [e|ix] eqn:Hp; intros [= <-].
  apply parseParts_inr in Hp as (pushed & HF & ->). simpl.
  rewrite elem_of_normalize, elem_of_concat. split.
  - intros (ps & Hx & Hps).
    apply list_elem_of_lookup in Hps as [i Hi].
    destruct (Forall2_lookup_r _ _ _ _ _ HF Hi) as (p & Hpi & Hpp).
    exists p, ps. split; [|done]. apply list_elem_of_lookup. eauto.
  - intros (p & ps & Hin & Hpp & Hx).
    apply list_elem_of_lookup in Hin as [i Hi].
    destruct (Forall2_lookup_l _ _ _ _ _ HF Hi) as (ps' & Hpi & Hpp').
    exists ps. split; [done|]. apply list_elem_of_lookup. exists i. congruence.
Qed.

(** [parseRange] throws nothing but [ADDRESS_RANGE_INVALID], and throws
    exactly when the reading of one of its segments fails. *)
Lemma parseRange_error range e :
  parseRange range = inl e → ∃ msg, e = HotSweepError ADDRESS_RANGE_INVALID msg.
Proof.
  unfold parseRange.
  destruct (parseParts [] (trim <$> split "," range)) as [e'|ix] eqn:Hp; [|discriminate].
  intros [= <-]. apply parseParts_inl in Hp as (p & _ & Hp). by eapply parsePart_error.
Qed.

Lemma parseRange_fails_iff range :
  (∃ e, parseRange range = inl e) ↔
  ∃ part e, part ∈ (trim <$> split "," range) ∧ parsePart part = inl e.
Proof.
  unfold parseRange. split.
  - intros [e H].
    destruct (parseParts [] (trim <$> split "," range)) as [e'|ix] eqn:Hp; [|discriminate].
    apply parseParts_inl in Hp as (p & Hin & Hp). eauto.
  - intros (p & e & Hin & Hp).
    destruct (parseParts_bad [] _ _ _ Hin Hp) as [e' ->]. eauto.
Qed.

(** The examples of the parser's test suite. *)
Example parseRange_mixed :
  parseRange "0-2,10,20-22" = inr [0; 1; 2; 10; 20; 21; 22].
Proof. vm_compute. reflexivity. Qed.

Example parseRange_overlap : parseRange "1-3,2-4" = inr [1; 2; 3; 4].
Proof. vm_compute. reflexivity. Qed.

Example parseRange_whitespace : parseRange "1 , 2 , 3-5" = inr [1; 2; 3; 4; 5].
Proof. vm_compute. reflexivity. Qed.

Example parseRange_reversed :
  parseRange "10-5"
  = inl (HotSweepError ADDRESS_RANGE_INVALID "Invalid range: start (10) > end (5)").
Proof. vm_compute. reflexivity. Qed.

Example parseRange_letters :
  parseRange "abc" = inl (HotSweepError ADDRESS_RANGE_INVALID "Invalid index: abc").
Proof. vm_compute. reflexivity. Qed.

End ParserFacts.

(** ** Resolution of [indices] and [range] specifications *)

Section ResolveFacts.
Import Js Parser.

Lemma map_resolver_identifiers resolver indices l :
  map_resolver resolver indices = inr l →
  identifier <$> l = string_of_number <$> indices.
Proof.
  revert l. induction indices as [|i indices IH]; intros l; simpl.
  - by intros [= <-].
  - destruct (resolver i) as [e|a]; [discriminate|].
    destruct (map_resolver resolver indices) as [e|tl]; [discriminate|].
    intros [= <-]. simpl. f_equal. by apply IH.
Qed.

(** [resolveToIndices] normalizes both kinds of specification. *)
Lemma resolveToIndices_strictly_increasing spec l :
  (∃ value, spec = SpecIndices value) ∨ (∃ text, spec = SpecRange text) →
  resolveToIndices spec = inr l → StronglySorted Z.lt l.
Proof.
  intros [[value ->]|[text ->]]; simpl.
  - intros [= <-]. apply normalize_strictly_increasing.
  - apply parseRange_strictly_increasing.
Qed.

(** [resolveToAddresses] resolves a range through [parseRange], hence over
    a strictly increasing sequence of indices. *)
Lemma resolveToAddresses_range wallets resolver text l :
  resolveToAddresses wallets (Some resolver) (SpecRange text) = inr l →
  ∃ indices, parseRange text = inr indices
             ∧ StronglySorted Z.lt indices
             ∧ identifier <$> l = string_of_number <$> indices.
Proof.
  simpl. destruct (parseRange text) as [e|indices] eqn:Hp; [discriminate|].
  intros H. exists indices. split; [done|]. split.
  - by eapply parseRange_strictly_increasing.
  - by eapply map_resolver_identifiers.
Qed.

(** [resolveToAddresses] maps an index list as it stands: order and
    repetitions are those of the list. *)
Lemma resolveToAddresses_indices wallets resolver value l :
  resolveToAddresses wallets (Some resolver) (SpecIndices value) = inr l →
  identifier <$> l = string_of_number <$> value.
Proof. simpl. apply map_resolver_identifiers. Qed.

(** A label is resolved when it is a key of [wallets] or a name that
    [wallets] inherits, and under an inherited name that is no key the
    address is [undefined]. *)
Lemma resolveToAddresses_label wallets resolver label :
  resolveToAddresses (Some wallets) resolver (SpecLabel label)
  = match record_get wallets label with
    | Some wallet => inr [ {| identifier := label; address := wallet_address wallet |} ]
    | None =>
        if inherited label
        then inr [ {| identifier := label; address := undefined_address |} ]
        else inl (HotSweepError ADDRESS_LABEL_NOT_FOUND
                    ("Wallet label not found: " +:+ label))
    end.
Proof.
  simpl. unfold lookup_wallet. simpl.
  destruct (record_get wallets label); [reflexivity|]. by destruct (inherited label).
Qed.

End ResolveFacts.

(** C3.  The claim: every resolution of a [Range] or [IndexList]
    specification, to indices or to addresses, works on a strictly
    increasing, duplicate-free sequence of indices.  On the code,
    [resolveToIndices] sorts and de-duplicates the index list [5, 1, 5] to
    [1, 5], but [resolveToAddresses] maps the same list as it stands: the
    resolved identifiers are "5", "1", "5", in that order, and that
    sequence of indices is not strictly increasing.  The list is the one
    [parseAddressSpec] makes of the text "5,1,5". *)
Theorem resolveToAddresses_indices_not_normalized :
  let resolver := fun i : Z => inr ("0xd" +:+ pretty i) : Res Address in
  Parser.parseAddressSpec Executor.is_hex_address (Parser.RawString "5,1,5") None
  = SpecIndices [5; 1; 5]
  ∧ Parser.resolveToIndices (SpecIndices [5; 1; 5]) = inr [1; 5]
  ∧ Parser.resolveToAddresses None (Some resolver) (SpecIndices [5; 1; 5])
    = inr [ {| identifier := "5"; address := "0xd5" |};
            {| identifier := "1"; address := "0xd1" |};
            {| identifier := "5"; address := "0xd5" |} ]
  ∧ ¬ StronglySorted Z.lt [5; 1; 5].
Proof.
  split; [vm_compute; reflexivity|].
  split; [vm_compute; reflexivity|]. split; [vm_compute; reflexivity|].
  intros H. apply StronglySorted_inv in H as [_ H].
  apply Forall_inv in H. lia.
Qed.

(** C7.  The claim: [parseRange] returns the sorted, duplicate-free
    expansion of its segments and fails with [InvalidRange] exactly when a
    segment is non-numeric or has [start > end].  On the code the segment
    "1x", which is neither a bare integer nor a [start-end] pair, is read by
    [parseInt] as 1 and accepted; likewise "1-2-3", a text that
    [parseAddressSpec] classifies as a range, is read as the pair 1-2. *)
Theorem parseRange_accepts_non_numeric_segment :
  Spec.expandRange_fails "1x" = true
  ∧ Parser.parseRange "1x" = inr [1]
  ∧ Spec.expandRange_fails "1-2-3" = true
  ∧ Parser.parseRange "1-2-3" = inr [1; 2]
  ∧ Parser.parseAddressSpec Executor.is_hex_address (Parser.RawString "1-2-3") None
    = SpecRange "1-2-3".
Proof. repeat split; vm_compute; reflexivity. Qed.

(** ** A logic of runs *)

Section Logic.
Context {W : Type}.
Implicit Types (R : relation (State W)) (P : Call → bool).

Global Instance emits_preorder P : PreOrder (emits (W := W) P).
Proof.
  split.
  - intros st. exists []. split; [by rewrite app_nil_r | constructor].
  - intros st1 st2 st3 (e1 & H1 & F1) (e2 & H2 & F2).
    exists (e1 ++ e2)%list. split; [by rewrite H2, H1, app_assoc|].
    by apply Forall_app.
Qed.

Global Instance keeps_no_auto_preorder : PreOrder (keeps_no_auto (W := W)).
Proof. split; [intros st H; exact H | intros st1 st2 st3 H1 H2 H; apply H2, H1, H]. Qed.

Lemma stepwise_ret R `{!Reflexive R} {A} (a : A) : stepwise R (ret a).
Proof. intros st r st' [= _ <-]. reflexivity. Qed.

Lemma stepwise_throw R `{!Reflexive R} {A} e : stepwise R (throw (A := A) e).
Proof. intros st r st' [= _ <-]. reflexivity. Qed.

Lemma stepwise_lift R `{!Reflexive R} {A} (x : Res A) : stepwise R (lift x).
Proof. intros st r st' [= _ <-]. reflexivity. Qed.

Lemma stepwise_cache_get R `{!Reflexive R} key : stepwise R (cache_get key).
Proof. intros st r st' [= _ <-]. reflexivity. Qed.

Lemma stepwise_bind R `{!Transitive R} {A B} (m : M W A) (k : A → M W B) :
  stepwise R m → (∀ a, stepwise R (k a)) → stepwise R (bind m k).
Proof.
  intros Hm Hk st r st'. unfold bind.
  destruct (m st) as [[e|a] st1] eqn:E.
  - intros [= _ <-]. by eapply Hm.
  - intros H. etransitivity; [by eapply Hm | by eapply Hk].
Qed.

Lemma stepwise_try_catch R `{!Transitive R} {A} (m : M W A) (h : Thrown → M W A) :
  stepwise R m → (∀ e, stepwise R (h e)) → stepwise R (try_catch m h).
Proof.
  intros Hm Hh st r st'. unfold try_catch.
  destruct (m st) as [[e|a] st1] eqn:E.
  - intros H. etransitivity; [by eapply Hm | by eapply Hh].
  - intros [= _ <-]. by eapply Hm.
Qed.

Lemma stepwise_mono P Q {A} (m : M W A) :
  (∀ c, P c = true → Q c = true) → stepwise (emits P) m → stepwise (emits Q) m.
Proof.
  intros HPQ Hm st r st' H. destruct (Hm _ _ _ H) as (evs & Ht & HF).
  exists evs. split; [done|]. eapply Forall_impl; [exact HF|]. intros e. apply HPQ.
Qed.

Lemma perform_run {A} c (give : A → Reply) (op : W → (string + A) * W) st :
  perform c give op st =
    (match (op (world st)).1 with inl msg => inl (OtherError msg) | inr a => inr a end,
     {| world := (op (world st)).2; strategyCache := strategyCache st;
        trace := trace st ++ [ {| call := c;
                                  reply := match (op (world st)).1 with
                                           | inl msg => Threw msg
                                           | inr a => give a
                                           end |} ] |}).
Proof. unfold perform. by destruct (op (world st)) as [[msg|a] w]. Qed.

Lemma emits_perform P {A} c (give : A → Reply) (op : W → (string + A) * W) :
  P c = true → stepwise (emits P) (perform c give op).
Proof.
  intros HP st r st'. rewrite perform_run. intros [= _ <-]. simpl.
  eexists. split; [reflexivity|]. constructor; [exact HP | constructor].
Qed.

Lemma emits_cache_set P key s : stepwise (emits P) (cache_set (W := W) key s).
Proof. intros st r st' [= _ <-]. simpl. exists []. split; [by rewrite app_nil_r | constructor]. Qed.

Lemma no_auto_perform {A} c (give : A → Reply) (op : W → (string + A) * W) :
  stepwise keeps_no_auto (perform c give op).
Proof. intros st r st'. rewrite perform_run. intros [= _ <-] H. exact H. Qed.

Lemma no_auto_cache_set key s :
  s ≠ auto → stepwise keeps_no_auto (cache_set (W := W) key s).
Proof.
  intros Hs st r st' [= _ <-] Hno k. simpl.
  destruct (decide (key = k)) as [->|Hne].
  - rewrite lookup_insert_eq. congruence.
  - rewrite lookup_insert_ne by done. apply Hno.
Qed.

End Logic.

(** Splits a [stepwise] goal along the structure of the program. *)
Ltac stepwise_split :=
  repeat first
    [ apply stepwise_ret; apply _
    | apply stepwise_throw; apply _
    | apply stepwise_lift; apply _
    | apply stepwise_cache_get; apply _
    | apply stepwise_bind; [apply _ | | intros ?]
    | apply stepwise_try_catch; [apply _ | | intros ?]
    | match goal with
      | |- stepwise _ (match ?x with _ => _ end) => destruct x
      | |- stepwise _ (let '(_, _) := ?x in _) => destruct x
      end
    | progress cbv zeta ].

(** ** [detectStrategy] *)

Section StrategyFacts.
Context {W Client Account : Type} `{!Env W Client Account}.
Import Js Strategy.

Lemma checkEIP3009Support_run client token st :
  checkEIP3009Support client token st =
    (inr (succeeded (rpc_authorizationState client token token zero_nonce (world st)).1),
     (perform (ReadAuthorizationState token token zero_nonce) GaveBool
        (rpc_authorizationState client token token zero_nonce) st).2).
Proof.
  unfold checkEIP3009Support, try_catch, bind. fold zero_nonce.
  rewrite perform_run.
  by destruct (rpc_authorizationState client token token zero_nonce (world st)) as [[msg|b] w].
Qed.

Lemma checkEIP2612Support_run client token st :
  checkEIP2612Support client token st =
    (inr (succeeded (rpc_DOMAIN_SEPARATOR client token (world st)).1),
     (perform (ReadDomainSeparator token) GaveText
        (rpc_DOMAIN_SEPARATOR client token) st).2).
Proof.
  unfold checkEIP2612Support, try_catch, bind.
  rewrite perform_run.
  by destruct (rpc_DOMAIN_SEPARATOR client token (world st)) as [[msg|b] w].
Qed.

Lemma getChainId_run client st :
  getChainId client st = perform GetChainId GaveNumber (rpc_getChainId client) st.
Proof. reflexivity. Qed.

(** [detectStrategy] talks to the chain only to read the chain id and to
    probe the two capabilities. *)
Lemma detectStrategy_emits client token tokenConfig :
  stepwise (emits is_detection) (detectStrategy client token tokenConfig).
Proof.
  unfold detectStrategy, getChainId, checkEIP3009Support, checkEIP2612Support.
  stepwise_split; try (apply emits_perform; reflexivity); apply emits_cache_set.
Qed.

(** [detectStrategy] never stores [auto]. *)
Lemma detectStrategy_keeps_no_auto client token tokenConfig :
  stepwise keeps_no_auto (detectStrategy client token tokenConfig).
Proof.
  unfold detectStrategy, getChainId, checkEIP3009Support, checkEIP2612Support.
  stepwise_split; try apply no_auto_perform;
    apply no_auto_cache_set; repeat case_match; discriminate.
Qed.

Lemma clearStrategyCache_no_auto (st : State W) :
  no_auto (clearStrategyCache st).2.
Proof. intros key. simpl. by rewrite lookup_empty. Qed.

(** What a run of [detectStrategy] does on a token that is not native and
    has no forced strategy, once the chain id is read: a cached strategy
    is returned as it is; otherwise both probes run, the strategy is
    chosen by priority and stored. *)
Lemma detectStrategy_unforced client token tokenConfig st chainId w1 :
  is_native token = false → unforced tokenConfig →
  rpc_getChainId client (world st) = (inr chainId, w1) →
  let st1 := {| world := w1; strategyCache := strategyCache st;
                trace := trace st ++ [ {| call := GetChainId; reply := GaveNumber chainId |} ] |} in
  detectStrategy client token tokenConfig st =
    match strategyCache st !! getCacheKey token chainId with
    | Some cached => (inr cached, st1)
    | None =>
        let a := rpc_authorizationState client token token zero_nonce w1 in
        let d := rpc_DOMAIN_SEPARATOR client token a.2 in
        let strategy := if succeeded a.1 then eip3009
                        else if succeeded d.1 then eip2612 else legacy in
        (inr strategy,
         {| world := d.2;
            strategyCache := <[getCacheKey token chainId := strategy]> (strategyCache st);
            trace := trace st ++
              [ {| call := GetChainId; reply := GaveNumber chainId |};
                {| call := ReadAuthorizationState token token zero_nonce;
                   reply := match a.1 with inl msg => Threw msg | inr b => GaveBool b end |};
                {| call := ReadDomainSeparator token;
                   reply := match d.1 with inl msg => Threw msg | inr h => GaveText h end |} ] |})
    end.
Proof.
  intros Hnat Hun Hid st1.
  assert (detectStrategy client token tokenConfig st =
          (let* chainId := getChainId client in
           let cacheKey := getCacheKey token chainId in
           let* cached := cache_get cacheKey in
           match cached with
           | Some cached => ret cached
           | None =>
               let* supportsEIP3009 := checkEIP3009Support client token in
               let* supportsEIP2612 := checkEIP2612Support client token in
               let strategy :=
                 if supportsEIP3009 : bool then eip3009
                 else if supportsEIP2612 : bool then eip2612
                 else legacy in
               let* _ := cache_set cacheKey strategy in
               ret strategy
           end) st) as ->.
  { unfold detectStrategy. rewrite Hnat.
    destruct Hun as [-> | ->]; [reflexivity|].
    by rewrite bool_decide_eq_false_2 by (intros H; by apply H). }
  unfold bind at 1. rewrite getChainId_run, perform_run, Hid. simpl.
  unfold bind at 1, cache_get at 1. simpl. fold st1.
  destruct (strategyCache st !! getCacheKey token chainId) as [cached|] eqn:Hc; [reflexivity|].
  unfold bind at 1. rewrite checkEIP3009Support_run, perform_run. simpl.
  unfold bind at 1. rewrite checkEIP2612Support_run, perform_run. simpl.
  unfold bind, cache_set, ret. simpl.
  by rewrite <- !app_assoc.
Qed.

End StrategyFacts.

Section StrategyClaims.
Context {W Client Account : Type} `{!Env W Client Account}.
Import Js Strategy.

(** C4.  For a token that is not native, with no forced strategy and no
    cache entry under the chain id just read, [detectStrategy] returns a
    strategy whatever the two probes answer, and never throws: [eip3009]
    when the authorization probe succeeds (also when the approval probe
    succeeds too), [eip2612] when only the approval probe succeeds, and
    [legacy] when both fail. *)
Theorem detectStrategy_priority client token tokenConfig st chainId w1 r3009 w2 r2612 w3 :
  is_native token = false →
  unforced tokenConfig →
  rpc_getChainId client (world st) = (inr chainId, w1) →
  strategyCache st !! getCacheKey token chainId = None →
  rpc_authorizationState client token token zero_nonce w1 = (r3009, w2) →
  rpc_DOMAIN_SEPARATOR client token w2 = (r2612, w3) →
  ∃ st', detectStrategy client token tokenConfig st
         = (inr match r3009, r2612 with
                | inr _, _ => eip3009
                | inl _, inr _ => eip2612
                | inl _, inl _ => legacy
                end, st').
Proof.
  intros Hnat Hun Hid Hmiss H3009 H2612.
  rewrite (detectStrategy_unforced _ _ _ _ _ _ Hnat Hun Hid), Hmiss.
  cbv zeta. rewrite H3009. simpl. rewrite H2612. simpl.
  eexists. f_equal. f_equal. by destruct r3009, r2612.
Qed.

(** C5.  For a token that is not native and whose configuration forces a
    strategy other than [auto], [detectStrategy] returns that strategy
    and leaves the state as it found it: no call is made, the cache is
    neither consulted nor written, and nothing in the state, the cache
    included, has any influence on the answer. *)
Theorem detectStrategy_forced client token tokenConfig forced (st : State W) :
  is_native token = false →
  token_strategy tokenConfig = Some forced →
  forced ≠ auto →
  detectStrategy client token (Some tokenConfig) st = (inr forced, st).
Proof.
  intros Hnat Hcfg Hforced. unfold detectStrategy. rewrite Hnat. simpl.
  rewrite Hcfg. by rewrite bool_decide_eq_true_2.
Qed.

(** C9.  Two calls of [detectStrategy] in succession for a token that is
    not native and has no forced strategy, both reading the same chain
    id: the first returns a strategy other than [auto], leaves it in the
    cache under the key of the token, keeps the cache free of [auto] and
    makes at most the two probe reads of one detection; the second
    returns the same strategy after reading the chain id only, with no
    probe, and leaves the cache as it is. *)
Theorem detectStrategy_twice client token tokenConfig st chainId w1 :
  is_native token = false →
  unforced tokenConfig →
  no_auto st →
  rpc_getChainId client (world st) = (inr chainId, w1) →
  ∃ s st1,
    detectStrategy client token tokenConfig st = (inr s, st1)
    ∧ s ≠ auto
    ∧ strategyCache st1 !! getCacheKey token chainId = Some s
    ∧ no_auto st1
    ∧ (∃ evs, trace st1 = (trace st ++ evs)%list
              ∧ (length (filter (fun e => is_probe (call e) = true) evs) ≤ 2)%nat)
    ∧ ∀ w2, rpc_getChainId client (world st1) = (inr chainId, w2) →
        ∃ st2,
          detectStrategy client token tokenConfig st1 = (inr s, st2)
          ∧ trace st2
            = (trace st1 ++ [ {| call := GetChainId; reply := GaveNumber chainId |} ])%list
          ∧ strategyCache st2 = strategyCache st1.
Proof.
  intros Hnat Hun Hno Hid.
  destruct (detectStrategy client token tokenConfig st) as [r st1] eqn:Hrun.
  pose proof (detectStrategy_keeps_no_auto _ _ _ _ _ _ Hrun Hno) as Hno1.
  rewrite (detectStrategy_unforced _ _ _ _ _ _ Hnat Hun Hid) in Hrun.
  assert (∃ s, r = inr s ∧ strategyCache st1 !! getCacheKey token chainId = Some s
               ∧ ∃ evs, trace st1 = (trace st ++ evs)%list
                 ∧ (length (filter (fun e => is_probe (call e) = true) evs) ≤ 2)%nat)
    as (s & -> & Hs & Hevs).
  { destruct (strategyCache st !! getCacheKey token chainId) as [cached|] eqn:Hc.
    - injection Hrun as <- <-. exists cached. split; [done|]. split; [done|].
      eexists. split; [reflexivity|]. simpl. lia.
    - cbv zeta in Hrun. injection Hrun as <- <-. eexists. split; [reflexivity|].
      split; [simpl; by rewrite lookup_insert_eq|].
      eexists. split; [reflexivity|]. simpl. lia. }
  exists s, st1. split; [done|]. split; [intros ->; by eapply Hno1|].
  split; [done|]. split; [done|]. split; [done|].
  intros w2 Hid2.
  rewrite (detectStrategy_unforced _ _ _ _ _ _ Hnat Hun Hid2), Hs.
  eexists. split; [reflexivity|]. by split.
Qed.

End StrategyClaims.

Lemma no_auto_start : no_auto Demo.start.
Proof. intros key. unfold Demo.start. simpl. by rewrite lookup_empty. Qed.

Lemma detectStrategy_priority_witness :
  ∃ st', Strategy.detectStrategy
           (Env0 := Demo.env Demo.capable)
           tt Demo.token None Demo.start
         = (inr eip3009, st').
Proof.
  exact (detectStrategy_priority
           (Env0 := Demo.env Demo.capable)
           tt Demo.token None Demo.start 31337 0%nat (inr false) 0%nat (inr "0x00") 0%nat
           eq_refl (or_introl eq_refl) eq_refl eq_refl eq_refl eq_refl).
Defined.

Lemma detectStrategy_forced_witness :
  Strategy.detectStrategy (Env0 := Demo.env Demo.rich) tt Demo.token
    (Some {| token_address := Some Demo.token; token_decimals := None;
             token_strategy := Some eip3009 |})
    Demo.start
  = (inr eip3009, Demo.start).
Proof.
  apply (detectStrategy_forced (Env0 := Demo.env Demo.rich)); [reflexivity | reflexivity | discriminate].
Defined.

Lemma detectStrategy_twice_witness :
  ∃ s st1,
    Strategy.detectStrategy (Env0 := Demo.env Demo.rich) tt Demo.token None Demo.start
    = (inr s, st1)
    ∧ s ≠ auto
    ∧ strategyCache st1 !! Strategy.getCacheKey Demo.token 31337 = Some s
    ∧ no_auto st1
    ∧ (∃ evs, trace st1 = (trace Demo.start ++ evs)%list
              ∧ (length (filter (fun e => is_probe (call e) = true) evs) ≤ 2)%nat)
    ∧ ∀ w2, rpc_getChainId (Env := Demo.env Demo.rich) tt (world st1) = (inr 31337, w2) →
        ∃ st2,
          Strategy.detectStrategy (Env0 := Demo.env Demo.rich) tt Demo.token None st1 = (inr s, st2)
          ∧ trace st2
            = (trace st1 ++ [ {| call := GetChainId; reply := GaveNumber 31337 |} ])%list
          ∧ strategyCache st2 = strategyCache st1.
Proof.
  apply (detectStrategy_twice (Env0 := Demo.env Demo.rich) tt Demo.token None Demo.start 31337 0%nat);
    [reflexivity | left; reflexivity | apply no_auto_start | reflexivity].
Defined.

(** ** Runs of [bind] and [perform] *)

Section MonadFacts.
Context {W : Type}.

Lemma bind_ok {A B} (m : M W A) (k : A → M W B) st a st1 :
  m st = (inr a, st1) → bind m k st = k a st1.
Proof. intros H. unfold bind. by rewrite H. Qed.

Lemma bind_err {A B} (m : M W A) (k : A → M W B) st e st1 :
  m st = (inl e, st1) → bind m k st = (inl e, st1).
Proof. intros H. unfold bind. by rewrite H. Qed.

Lemma bind_inr {A B} (m : M W A) (k : A → M W B) st b st' :
  bind m k st = (inr b, st') → ∃ a st1, m st = (inr a, st1) ∧ k a st1 = (inr b, st').
Proof.
  unfold bind. destruct (m st) as [[e|a] st1]; [discriminate|]. eauto.
Qed.

Lemma ret_inr {A} (a b : A) (st st' : State W) :
  ret a st = (inr b, st') → a = b ∧ st = st'.
Proof. by intros [= <- <-]. Qed.

Lemma lift_inr {A} (r : Res A) (b : A) (st st' : State W) :
  lift r st = (inr b, st') → r = inr b ∧ st = st'.
Proof. by intros [= <- <-]. Qed.

Lemma perform_ok {A} c (give : A → Reply) (op : W → (string + A) * W) st a w :
  op (world st) = (inr a, w) →
  perform c give op st
  = (inr a, {| world := w; strategyCache := strategyCache st;
               trace := trace st ++ [ {| call := c; reply := give a |} ] |}).
Proof. intros H. rewrite perform_run, H. reflexivity. Qed.

Lemma perform_err {A} c (give : A → Reply) (op : W → (string + A) * W) st msg w :
  op (world st) = (inl msg, w) →
  perform c give op st
  = (inl (OtherError msg),
     {| world := w; strategyCache := strategyCache st;
        trace := trace st ++ [ {| call := c; reply := Threw msg |} ] |}).
Proof. intros H. rewrite perform_run, H. reflexivity. Qed.

Lemma perform_inr {A} c (give : A → Reply) (op : W → (string + A) * W) st a st' :
  perform c give op st = (inr a, st') →
  ∃ w, op (world st) = (inr a, w)
       ∧ st' = {| world := w; strategyCache := strategyCache st;
                  trace := trace st ++ [ {| call := c; reply := give a |} ] |}.
Proof.
  rewrite perform_run. destruct (op (world st)) as [[msg|a'] w]; simpl; [discriminate|].
  intros [= <- <-]. eauto.
Qed.

End MonadFacts.

(** ** The phases of [executeSingleTransfer] *)

Section ExecutorFacts.
Context {W Client Account : Type} `{!Env W Client Account}.
Import Js Executor.

Lemma detectStrategy_emits_prelude client token tokenConfig :
  stepwise (emits is_prelude) (Strategy.detectStrategy client token tokenConfig).
Proof. eapply stepwise_mono; [|apply detectStrategy_emits]. by intros []. Qed.

Lemma checkBalance_emits client tokenAddress fromAddress :
  stepwise (emits is_amount_read) (checkBalance client tokenAddress fromAddress).
Proof. unfold checkBalance. stepwise_split; apply emits_perform; reflexivity. Qed.

Lemma calculateTransferAmount_emits client tokenAddress decimals amount balance :
  stepwise (emits is_amount_read)
    (calculateTransferAmount client tokenAddress decimals amount balance).
Proof.
  unfold calculateTransferAmount. stepwise_split; apply emits_perform; reflexivity.
Qed.

Lemma amount_read_prelude c : is_amount_read c = true → is_prelude c = true.
Proof. by destruct c. Qed.

Lemma determineStrategy_emits context client chainId tokenAddress symbol strategyOption :
  stepwise (emits is_prelude)
    (determineStrategy context client chainId tokenAddress symbol strategyOption).
Proof.
  unfold determineStrategy. stepwise_split; apply detectStrategy_emits_prelude.
Qed.

Lemma signPermit_emits account client tokenAddress tokenName tokenVersion
    spender value nonce deadline :
  stepwise (emits is_prelude)
    (Signatures.signPermit account client tokenAddress tokenName tokenVersion
       spender value nonce deadline).
Proof.
  unfold Signatures.signPermit, Strategy.getChainId.
  stepwise_split; apply emits_perform; reflexivity.
Qed.


(** The guards let through exactly the amounts that are not zero and do
    not exceed the balance, and touch nothing. *)
Lemma guardTransferAmount_inr decimals balance transferAmount (st st' : State W) u :
  guardTransferAmount decimals balance transferAmount st = (inr u, st') →
  st' = st ∧ transferAmount ≠ 0 ∧ transferAmount ≤ balance.
Proof.
  unfold guardTransferAmount.
  destruct (transferAmount =? 0) eqn:Hz; [discriminate|].
  destruct (transferAmount >? balance) eqn:Hg; [discriminate|].
  intros [= _ <-]. split; [done|]. split; lia.
Qed.

Lemma guardTransferAmount_rejects decimals balance transferAmount (st : State W) :
  transferAmount = 0 ∨ transferAmount > balance →
  ∃ message, guardTransferAmount decimals balance transferAmount st
             = (inl (HotSweepError TRANSFER_INSUFFICIENT_BALANCE message), st).
Proof.
  intros Hbad. unfold guardTransferAmount.
  destruct (transferAmount =? 0) eqn:Hz; [by eexists|].
  destruct (transferAmount >? balance) eqn:Hg; [by eexists|]. lia.
Qed.

Lemma determineStrategy_emits_detection context client chainId tokenAddress symbol
    strategyOption :
  stepwise (emits is_detection)
    (determineStrategy context client chainId tokenAddress symbol strategyOption).
Proof. unfold determineStrategy. stepwise_split; apply detectStrategy_emits. Qed.





(** [buildChainDefinition] accepts the chains of the namespace [eip155]
    that have a chain id other than 0, and no other. *)
Lemma buildChainDefinition_inr chainConfig caip2Id cc :
  buildChainDefinition chainConfig caip2Id = inr cc ↔
  chainConfig = Some cc ∧ chain_namespace cc = "eip155"
  ∧ ∃ id, chain_chainId cc = Some id ∧ id ≠ 0.
Proof.
  unfold buildChainDefinition. split.
  - destruct chainConfig as [c|]; [|discriminate].
    destruct (String.eqb (chain_namespace c) "eip155") eqn:Hns; [|discriminate].
    apply String.eqb_eq in Hns.
    destruct (chain_chainId c) as [id|] eqn:Hid; [|discriminate].
    destruct (id =? 0) eqn:Hz; [discriminate|]. simpl.
    intros [= <-]. repeat split; [done|]. exists id. split; [done|lia].
  - intros (-> & Hns & id & Hid & Hnz). rewrite Hns, Hid. simpl.
    destruct (id =? 0) eqn:Hz; [lia|]. reflexivity.
Qed.

(** A dry run calls nothing but the balance read, the gas-price read and
    the calls of [detectStrategy], whatever its outcome. *)
Lemma dry_run_emits context client chainId chainConfig fromAddress fromIdentifier
    toAddress toIdentifier tokenAddress symbol decimals amount strategyOption :
  stepwise (emits is_dry_run_call)
    (executeSingleTransfer context client chainId chainConfig fromAddress fromIdentifier
       toAddress toIdentifier tokenAddress symbol decimals amount strategyOption true).
Proof.
  unfold executeSingleTransfer, checkBalance, calculateTransferAmount, guardTransferAmount,
    determineStrategy, chainConfig_read.
  stepwise_split; try (apply emits_perform; reflexivity).
  all: eapply stepwise_mono; [|apply detectStrategy_emits]; by intros [].
Qed.

(** How a run of [executeSingleTransfer] that returns is made up. *)
Lemma executeSingleTransfer_inr context client chainId chainConfig fromAddress
    fromIdentifier toAddress toIdentifier tokenAddress symbol decimals amount
    strategyOption dryRun st res st' :
  executeSingleTransfer context client chainId chainConfig fromAddress fromIdentifier
    toAddress toIdentifier tokenAddress symbol decimals amount strategyOption dryRun st
  = (inr res, st') →
  ∃ balance s1 transferAmount s2 strategy s3 cc,
    checkBalance client tokenAddress fromAddress st = (inr balance, s1)
    ∧ calculateTransferAmount client tokenAddress decimals amount balance s1
      = (inr transferAmount, s2)
    ∧ transferAmount ≠ 0 ∧ transferAmount ≤ balance
    ∧ determineStrategy context client chainId tokenAddress symbol strategyOption s2
      = (inr strategy, s3)
    ∧ chainConfig = Some cc
    ∧ if dryRun then
        st' = s3
        ∧ res = successResult chainId cc fromAddress fromIdentifier toAddress toIdentifier
                  tokenAddress symbol decimals transferAmount strategy "0x" None
      else
        ∃ account txHash s4 receipt,
          getSignerAccount context fromIdentifier = inr (Some account)
          ∧ submitTransfer client account chainId fromAddress toAddress tokenAddress
              transferAmount strategy s3 = (inr txHash, s4)
          ∧ perform (WaitForTransactionReceipt txHash) GaveReceipt
              (rpc_waitForTransactionReceipt client txHash) s4 = (inr receipt, st')
          ∧ res = successResult chainId cc fromAddress fromIdentifier toAddress
                    toIdentifier tokenAddress symbol decimals transferAmount strategy
                    txHash (Some receipt).
Proof.
  intros H. unfold executeSingleTransfer in H.
  apply bind_inr in H as (balance & s1 & H1 & H).
  apply bind_inr in H as (transferAmount & s2 & H2 & H).
  apply bind_inr in H as (u & s2' & Hg & H).
  apply guardTransferAmount_inr in Hg as (-> & Hnz & Hle).
  apply bind_inr in H as (strategy & s3 & H3 & H).
  destruct dryRun.
  - apply bind_inr in H as (cc & s3' & Hcc & H).
    destruct chainConfig as [cc'|]; [|discriminate].
    apply ret_inr in Hcc as [-> <-]. apply ret_inr in H as [<- <-].
    by exists balance, s1, transferAmount, s2, strategy, s3, cc.
  - apply bind_inr in H as (account & s3' & Hacc & H).
    apply bind_inr in H as (cc & s3'' & Hcc & H).
    apply bind_inr in H as (txHash & s4 & Hsub & H).
    apply bind_inr in H as (receipt & s5 & Hwait & H).
    apply ret_inr in H as [<- <-].
    apply lift_inr in Hcc as [Hcc <-].
    apply buildChainDefinition_inr in Hcc as (-> & _).
    destruct (getSignerAccount context fromIdentifier) as [e|[account'|]] eqn:Hsigner;
      try discriminate.
    apply ret_inr in Hacc as [-> <-].
    exists balance, s1, transferAmount, s2, strategy, s3, cc.
    repeat (split; [done|]). by exists account, txHash, s4, receipt.
Qed.

(** The [eip2612] path of a token transfer, when it returns: everything
    before the permit is neither a submission nor a wait, then the permit
    is submitted, then the transfer, and the value is the hash of the
    permit. *)
Lemma submitTransfer_permit client account chainId fromAddress toAddress tokenAddress
    transferAmount st txHash st' :
  is_native tokenAddress = false →
  submitTransfer client account chainId fromAddress toAddress tokenAddress
    transferAmount eip2612 st = (inr txHash, st') →
  ∃ evs data transferHash,
    trace st' =
      (trace st ++ evs ++
         [ {| call := WritePermit (account_address account) tokenAddress data;
              reply := GaveText txHash |};
           {| call := WriteTransfer (account_address account) tokenAddress toAddress
                        transferAmount;
              reply := GaveText transferHash |} ])%list
    ∧ Forall (fun e => is_prelude (call e) = true) evs.
Proof.
  intros Hn H. unfold submitTransfer in H. rewrite Hn in H.
  apply bind_inr in H as (name & s1 & H1 & H).
  apply bind_inr in H as (nonce & s2 & H2 & H).
  apply bind_inr in H as (data & s3 & H3 & H).
  apply bind_inr in H as (h1 & s4 & H4 & H).
  apply bind_inr in H as (h2 & s5 & H5 & H).
  apply ret_inr in H as [-> ->].
  apply perform_inr in H4 as (w4 & _ & ->).
  apply perform_inr in H5 as (w5 & _ & ->).
  assert (emits is_prelude st s3) as (evs & Ht & HF).
  { etransitivity; [eapply emits_perform, H1; reflexivity|].
    etransitivity; [eapply emits_perform, H2; reflexivity|].
    eapply signPermit_emits, H3. }
  exists evs, data, h2. split; [|done]. simpl. rewrite Ht. by rewrite <- !app_assoc.
Qed.


Lemma guardTransferAmount_ok decimals balance transferAmount (st : State W) :
  transferAmount ≠ 0 → transferAmount ≤ balance →
  guardTransferAmount decimals balance transferAmount st = (inr tt, st).
Proof.
  intros Hnz Hle. unfold guardTransferAmount.
  destruct (transferAmount =? 0) eqn:Hz; [lia|].
  destruct (transferAmount >? balance) eqn:Hg; [lia|]. reflexivity.
Qed.

(** A dry run whose phases return gives the simulated result. *)
Lemma executeSingleTransfer_dry_run context client chainId cc fromAddress
    fromIdentifier toAddress toIdentifier tokenAddress symbol decimals amount
    strategyOption st balance s1 transferAmount s2 strategy s3 :
  checkBalance client tokenAddress fromAddress st = (inr balance, s1) →
  calculateTransferAmount client tokenAddress decimals amount balance s1
  = (inr transferAmount, s2) →
  transferAmount ≠ 0 → transferAmount ≤ balance →
  determineStrategy context client chainId tokenAddress symbol strategyOption s2
  = (inr strategy, s3) →
  executeSingleTransfer context client chainId (Some cc) fromAddress fromIdentifier
    toAddress toIdentifier tokenAddress symbol decimals amount strategyOption true st
  = (inr (successResult chainId cc fromAddress fromIdentifier toAddress toIdentifier
            tokenAddress symbol decimals transferAmount strategy "0x" None), s3).
Proof.
  intros H1 H2 Hnz Hle H3. unfold executeSingleTransfer.
  rewrite (bind_ok _ _ _ _ _ H1), (bind_ok _ _ _ _ _ H2).
  rewrite (bind_ok _ _ _ _ _ (guardTransferAmount_ok decimals _ _ s2 Hnz Hle)).
  rewrite (bind_ok _ _ _ _ _ H3). reflexivity.
Qed.

(** A unit whose computed amount is zero or exceeds the balance read
    throws [TRANSFER_INSUFFICIENT_BALANCE] in the state reached by the
    computation of the amount. *)
Lemma executeSingleTransfer_insufficient context client chainId chainConfig fromAddress
    fromIdentifier toAddress toIdentifier tokenAddress symbol decimals amount
    strategyOption dryRun st balance s1 transferAmount s2 :
  checkBalance client tokenAddress fromAddress st = (inr balance, s1) →
  calculateTransferAmount client tokenAddress decimals amount balance s1
  = (inr transferAmount, s2) →
  transferAmount = 0 ∨ transferAmount > balance →
  ∃ message,
    executeSingleTransfer context client chainId chainConfig fromAddress fromIdentifier
      toAddress toIdentifier tokenAddress symbol decimals amount strategyOption dryRun st
    = (inl (HotSweepError TRANSFER_INSUFFICIENT_BALANCE message), s2).
Proof.
  intros H1 H2 Hbad.
  destruct (guardTransferAmount_rejects decimals balance transferAmount s2 Hbad)
    as [message Hg].
  exists message. unfold executeSingleTransfer.
  rewrite (bind_ok _ _ _ _ _ H1), (bind_ok _ _ _ _ _ H2).
  by rewrite (bind_err _ _ _ _ _ Hg).
Qed.

(** For the native asset the strategy is determined without any call. *)
Lemma determineStrategy_native context client chainId tokenAddress symbol strategyOption
    (st : State W) :
  is_native tokenAddress = true →
  determineStrategy context client chainId tokenAddress symbol strategyOption st
  = (inr match strategyOption with
         | Some s => if bool_decide (s = auto) then legacy else s
         | None => legacy
         end, st).
Proof.
  intros Hn. unfold determineStrategy, Strategy.detectStrategy. rewrite Hn.
  destruct strategyOption as [s|]; [|reflexivity]. by case_bool_decide.
Qed.

(** The amount of a native sweep, once the gas price is read. *)
Lemma calculateTransferAmount_native_all client tokenAddress decimals balance st P w :
  is_native tokenAddress = true →
  rpc_getGasPrice client (world st) = (inr P, w) →
  calculateTransferAmount client tokenAddress decimals "all" balance st
  = (inr (if 0 <? balance - 2 * P * 21000 then balance - 2 * P * 21000 else 0),
     {| world := w; strategyCache := strategyCache st;
        trace := trace st ++ [ {| call := GetGasPrice; reply := GaveNumber P |} ] |}).
Proof.
  intros Hn HP. unfold calculateTransferAmount. rewrite Hn. simpl.
  rewrite (bind_ok _ _ _ _ _ (perform_ok GetGasPrice GaveNumber _ st P w HP)).
  unfold ret. f_equal. f_equal.
  destruct (balance >? P * 21000 * 2) eqn:Hgt;
    destruct (0 <? balance - 2 * P * 21000) eqn:Hlt; lia.
Qed.

End ExecutorFacts.

Section ExecutorClaims.
Context {W Client Account : Type} `{!Env W Client Account}.
Import Js Executor.

(** C2.  For a sweep of the native asset ([amount] is "all"), once the
    balance B and the gas price P are read: when B - 2 * P * 21000 <= 0
    the unit throws [TRANSFER_INSUFFICIENT_BALANCE] having made those two
    reads and nothing else; when it is positive (and P is not negative)
    the amount is B - 2 * P * 21000: a dry run returns it, and a real run
    that has a signer submits exactly that value right after the two
    reads when [buildChainDefinition] accepts the chain, and throws the
    refusal of [buildChainDefinition], having made the two reads only,
    when it does not.  For every request, when the amount computed is zero or exceeds the balance read,
    the unit throws [TRANSFER_INSUFFICIENT_BALANCE] having made only the
    balance read and, for a native sweep, the gas-price read: no
    signature, no submission. *)
Theorem sweep_all_reserves_gas context client chainId chainConfig fromAddress
    fromIdentifier toAddress toIdentifier tokenAddress symbol decimals
    strategyOption dryRun st :
  let unit amount dry :=
    executeSingleTransfer context client chainId chainConfig fromAddress fromIdentifier
      toAddress toIdentifier tokenAddress symbol decimals amount strategyOption dry st in
  (∀ B w1 P w2,
     is_native tokenAddress = true →
     rpc_getBalance client fromAddress (world st) = (inr B, w1) →
     rpc_getGasPrice client w1 = (inr P, w2) →
     let reads :=
       {| world := w2; strategyCache := strategyCache st;
          trace := trace st ++
            [ {| call := GetBalance fromAddress; reply := GaveNumber B |};
              {| call := GetGasPrice; reply := GaveNumber P |} ] |} in
     (0 < B - 2 * P * 21000 →
      calculateTransferAmount client tokenAddress decimals "all" B
        {| world := w1; strategyCache := strategyCache st;
           trace := trace st ++
             [ {| call := GetBalance fromAddress; reply := GaveNumber B |} ] |}
      = (inr (B - 2 * P * 21000), reads))
     ∧ (B - 2 * P * 21000 ≤ 0 →
      unit "all" dryRun
      = (inl (HotSweepError TRANSFER_INSUFFICIENT_BALANCE
                "Insufficient balance for transfer"), reads))
     ∧ (0 < B - 2 * P * 21000 → 0 ≤ P → ∀ cc, chainConfig = Some cc →
        unit "all" true
        = (inr (successResult chainId cc fromAddress fromIdentifier toAddress
                  toIdentifier tokenAddress symbol decimals (B - 2 * P * 21000)
                  match strategyOption with
                  | Some s => if bool_decide (s = auto) then legacy else s
                  | None => legacy
                  end "0x" None), reads))
     ∧ (0 < B - 2 * P * 21000 → 0 ≤ P → ∀ cc account,
        getSignerAccount context fromIdentifier = inr (Some account) →
        buildChainDefinition chainConfig chainId = inr cc →
        ∃ answer rest,
          trace (unit "all" false).2
          = (trace reads ++
             {| call := SendTransaction (account_address account) toAddress
                          (B - 2 * P * 21000);
                reply := answer |} :: rest)%list)
     ∧ (0 < B - 2 * P * 21000 → 0 ≤ P → ∀ account refusal,
        getSignerAccount context fromIdentifier = inr (Some account) →
        buildChainDefinition chainConfig chainId = inl refusal →
        unit "all" false = (inl refusal, reads)))
  ∧ (∀ amount B s1 transferAmount s2,
       checkBalance client tokenAddress fromAddress st = (inr B, s1) →
       calculateTransferAmount client tokenAddress decimals amount B s1
       = (inr transferAmount, s2) →
       transferAmount = 0 ∨ transferAmount > B →
       ∃ message evs,
         unit amount dryRun
         = (inl (HotSweepError TRANSFER_INSUFFICIENT_BALANCE message), s2)
         ∧ trace s2 = (trace st ++ evs)%list
         ∧ Forall (fun e => is_amount_read (call e) = true
                            ∧ is_signature (call e) = false
                            ∧ is_submission (call e) = false) evs).
Proof.
  intros unit. split.
  - intros B w1 P w2 Hn HB HP reads.
    assert (checkBalance client tokenAddress fromAddress st
            = (inr B, {| world := w1; strategyCache := strategyCache st;
                         trace := trace st ++ [ {| call := GetBalance fromAddress;
                                                   reply := GaveNumber B |} ] |})) as H1.
    { unfold checkBalance. rewrite Hn. by apply perform_ok. }
    pose proof (calculateTransferAmount_native_all client tokenAddress decimals B
                  {| world := w1; strategyCache := strategyCache st;
                     trace := trace st ++ [ {| call := GetBalance fromAddress;
                                               reply := GaveNumber B |} ] |}
                  P w2 Hn HP) as H2.
    simpl in H2. rewrite <- app_assoc in H2. simpl in H2. fold reads in H2.
    split; [|split; [|split; [|split]]].
    + intros Hpos. pose proof H2 as H2'.
      by rewrite (proj2 (Z.ltb_lt _ _)) in H2' by lia.
    + intros Hle. subst unit. cbv beta. unfold executeSingleTransfer.
      rewrite (proj2 (Z.ltb_ge _ _)) in H2 by lia.
      rewrite (bind_ok _ _ _ _ _ H1), (bind_ok _ _ _ _ _ H2). reflexivity.
    + intros Hpos HP0 cc ->. subst unit. cbv beta.
      rewrite (proj2 (Z.ltb_lt _ _)) in H2 by lia.
      eapply executeSingleTransfer_dry_run; [exact H1 | exact H2 | lia | lia |].
      by apply determineStrategy_native.
    + intros Hpos HP0 cc account Hacc Hcc. subst unit. cbv beta.
      rewrite (proj2 (Z.ltb_lt _ _)) in H2 by lia.
      unfold executeSingleTransfer.
      rewrite (bind_ok _ _ _ _ _ H1), (bind_ok _ _ _ _ _ H2).
      rewrite (bind_ok _ _ _ _ _
                 (guardTransferAmount_ok decimals B (B - 2 * P * 21000) reads
                    ltac:(lia) ltac:(lia))).
      rewrite (bind_ok _ _ _ _ _
                 (determineStrategy_native context client chainId tokenAddress symbol
                    strategyOption reads Hn)).
      rewrite Hacc, Hcc. unfold submitTransfer. rewrite Hn.
      unfold bind at 1, ret at 1. unfold bind at 1, lift at 1.
      unfold bind at 1. rewrite perform_run.
      destruct (wallet_sendTransaction account chainId toAddress (B - 2 * P * 21000)
                  (world reads)) as [[msg|h] w3]; simpl.
      * eexists _, []. reflexivity.
      * unfold bind. rewrite perform_run. simpl.
        destruct (rpc_waitForTransactionReceipt client h w3) as [[msg|rc] w4]; simpl;
          rewrite <- app_assoc; eexists _, _; reflexivity.
    + intros Hpos HP0 account refusal Hacc Hcc. subst unit. cbv beta.
      rewrite (proj2 (Z.ltb_lt _ _)) in H2 by lia.
      unfold executeSingleTransfer.
      rewrite (bind_ok _ _ _ _ _ H1), (bind_ok _ _ _ _ _ H2).
      rewrite (bind_ok _ _ _ _ _
                 (guardTransferAmount_ok decimals B (B - 2 * P * 21000) reads
                    ltac:(lia) ltac:(lia))).
      rewrite (bind_ok _ _ _ _ _
                 (determineStrategy_native context client chainId tokenAddress symbol
                    strategyOption reads Hn)).
      rewrite Hacc, Hcc. reflexivity.
  - intros amount B s1 transferAmount s2 H1 H2 Hbad.
    destruct (executeSingleTransfer_insufficient context client chainId chainConfig
                fromAddress fromIdentifier toAddress toIdentifier tokenAddress symbol
                decimals amount strategyOption dryRun st B s1 transferAmount s2 H1 H2 Hbad)
      as [message Hrun].
    assert (emits is_amount_read st s2) as (evs & Ht & HF).
    { etransitivity; [eapply checkBalance_emits, H1|].
      eapply calculateTransferAmount_emits, H2. }
    exists message, evs. split; [exact Hrun|]. split; [exact Ht|].
    eapply Forall_impl; [exact HF|]. intros [c rp] Hc. simpl in *.
    by destruct c.
Qed.


(** C10.  When a real run of a token transfer returns a [Success] whose
    strategy is [eip2612], the calls of the run end with the submission of
    the permit, the submission of the transfer and the wait for one
    receipt; the wait is for the hash the permit was answered with, that
    hash is the one in the result together with the receipt waited for,
    and nothing before the permit is a submission or a wait: the hash the
    transfer was answered with is neither reported nor waited for. *)
Theorem permit_hash_reported context client chainId chainConfig fromAddress
    fromIdentifier toAddress toIdentifier tokenAddress symbol decimals amount
    strategyOption st r st' :
  is_native tokenAddress = false →
  executeSingleTransfer context client chainId chainConfig fromAddress fromIdentifier
    toAddress toIdentifier tokenAddress symbol decimals amount strategyOption false st
  = (inr (Success r), st') →
  res_strategy r = eip2612 →
  ∃ evs signer data transferAmount transferHash receipt,
    trace st' =
      (trace st ++ evs ++
         [ {| call := WritePermit signer tokenAddress data;
              reply := GaveText (res_tx_hash r) |};
           {| call := WriteTransfer signer tokenAddress toAddress transferAmount;
              reply := GaveText transferHash |};
           {| call := WaitForTransactionReceipt (res_tx_hash r);
              reply := GaveReceipt receipt |} ])%list
    ∧ Forall (fun e => is_prelude (call e) = true) evs
    ∧ res_tx_receipt r = Some receipt.
Proof.
  intros Hn Hrun Hstrat.
  apply executeSingleTransfer_inr in Hrun
    as (B & s1 & amt & s2 & strat & s3 & cc & H1 & H2 & _ & _ & H3 & _
        & account & h & s4 & rc & _ & Hsub & Hwait & Hres).
  injection Hres as ->. simpl in Hstrat. subst strat.
  apply (submitTransfer_permit _ _ _ _ _ _ _ _ _ _ Hn) in Hsub
    as (evs1 & data & h2 & Ht1 & HF1).
  apply perform_inr in Hwait as (w & _ & ->).
  assert (emits is_prelude st s3) as (evs0 & Ht0 & HF0).
  { etransitivity; [eapply stepwise_mono, H1;
                    [apply amount_read_prelude | apply checkBalance_emits]|].
    etransitivity; [eapply stepwise_mono, H2;
                    [apply amount_read_prelude | apply calculateTransferAmount_emits]|].
    eapply determineStrategy_emits, H3. }
  exists (evs0 ++ evs1)%list, (account_address account), data, amt, h2, rc. simpl.
  split; [by rewrite Ht1, Ht0, <- !app_assoc|].
  split; [by apply Forall_app|done].
Qed.

End ExecutorClaims.

(** ** The loop over the source addresses and [executeTransfer] *)

Section TransferFacts.
Context {W Client Account : Type} `{!Env W Client Account}.
Import Js Executor.

Lemma failure_of_unit_outcome source destination e :
  failure_of source destination e = unit_outcome source destination (inl e).
Proof. by destruct e. Qed.

(** The loop never throws; it appends to [results] the outcome of every
    source address. *)
Lemma transferEach_run context client chainId chainConfig toAddress options
    tokenAddress symbol decimals fromAddresses :
  ∀ results st, ∃ outcomes st',
    transferEach context client chainId chainConfig toAddress options tokenAddress
      symbol decimals results fromAddresses st
    = (inr (results ++ outcomes)%list, st')
    ∧ unitsRun context client chainId chainConfig toAddress options tokenAddress
        symbol decimals st fromAddresses outcomes st'.
Proof.
  induction fromAddresses as [|[ident addr] rest IH]; intros results st.
  - exists [], st. split; [by rewrite app_nil_r | constructor].
  - simpl. unfold bind at 1, try_catch at 1.
    destruct (executeSingleTransfer context client chainId chainConfig addr ident
                toAddress (spec_string (opt_to options)) tokenAddress symbol decimals
                (opt_amount options) (opt_strategy options) (opt_dryRun options) st)
      as [[e|result] st1] eqn:Hunit.
    + unfold ret at 1.
      destruct (IH (results ++ [failure_of {| identifier := ident; address := addr |}
                                  {| identifier := spec_string (opt_to options);
                                     address := toAddress |} e])%list st1)
        as (outcomes & st' & Hrun & Hunits).
      eexists (_ :: outcomes), st'. split.
      * rewrite Hrun. by rewrite <- app_assoc.
      * rewrite failure_of_unit_outcome.
        by apply (units_step _ _ _ _ _ _ _ _ _ st {| identifier := ident; address := addr |}
                    rest (inl e) st1 outcomes st').
    + destruct (IH (results ++ [result])%list st1) as (outcomes & st' & Hrun & Hunits).
      eexists (_ :: outcomes), st'. split.
      * rewrite Hrun. by rewrite <- app_assoc.
      * by apply (units_step _ _ _ _ _ _ _ _ _ st {| identifier := ident; address := addr |}
                    rest (inr result) st1 outcomes st').
Qed.

Lemma unitsRun_length context client chainId chainConfig toAddress options tokenAddress
    symbol decimals st sources outcomes st' :
  unitsRun context client chainId chainConfig toAddress options tokenAddress symbol
    decimals st sources outcomes st' →
  length outcomes = length sources.
Proof. induction 1; simpl; congruence. Qed.

(** The outcome at each place of the list is that of the unit of the
    source address at that place. *)
Lemma unitsRun_lookup context client chainId chainConfig toAddress options tokenAddress
    symbol decimals st sources outcomes st' :
  unitsRun context client chainId chainConfig toAddress options tokenAddress symbol
    decimals st sources outcomes st' →
  ∀ k source, sources !! k = Some source →
    ∃ stk out stk',
      executeSingleTransfer context client chainId chainConfig
        (address source) (identifier source) toAddress (spec_string (opt_to options))
        tokenAddress symbol decimals
        (opt_amount options) (opt_strategy options) (opt_dryRun options) stk
      = (out, stk')
      ∧ outcomes !! k
        = Some (unit_outcome source
                  {| identifier := spec_string (opt_to options); address := toAddress |}
                  out).
Proof.
  induction 1 as [st|st source' rest out st1 outcomes st2 Hunit _ IH]; intros k source Hk.
  - by rewrite lookup_nil in Hk.
  - destruct k as [|k]; simpl in Hk.
    + injection Hk as ->. by exists st, out, st1.
    + apply IH, Hk.
Qed.

Lemma last_is_Some {A} (l : list A) : l ≠ [] → ∃ x, last l = Some x.
Proof.
  intros Hl. destruct (last l) as [x|] eqn:Hlast; [by exists x|].
  by apply last_None in Hlast.
Qed.

Lemma pick_result_last results : pick_result results = last results.
Proof.
  unfold pick_result. destruct results as [|x [|y results]]; reflexivity.
Qed.

(** Once the request is resolved, [executeTransfer] runs the unit of every
    source address and returns what [pick_result] picks. *)
Lemma executeTransfer_resolved context options st r st1 :
  resolveRequest context options st = (inr r, st1) →
  ∃ results st2,
    unitsRun context (r_client r) (r_chainId r) (r_chainConfig r) (r_toAddress r) options
      (r_tokenAddress r) (r_symbol r) (r_decimals r) st1 (r_fromAddresses r) results st2
    ∧ transferEach context (r_client r) (r_chainId r) (r_chainConfig r) (r_toAddress r)
        options (r_tokenAddress r) (r_symbol r) (r_decimals r) [] (r_fromAddresses r) st1
      = (inr results, st2)
    ∧ executeTransfer context options st = (inr (pick_result results), st2).
Proof.
  intros Hres.
  destruct (transferEach_run context (r_client r) (r_chainId r) (r_chainConfig r)
              (r_toAddress r) options (r_tokenAddress r) (r_symbol r) (r_decimals r)
              (r_fromAddresses r) [] st1) as (results & st2 & Hrun & Hunits).
  simpl in Hrun. exists results, st2. split; [done|]. split; [done|].
  unfold executeTransfer, try_catch.
  rewrite (bind_ok _ _ _ _ _ Hres), (bind_ok _ _ _ _ _ Hrun). reflexivity.
Qed.

(** [executeTransfer] never throws. *)
Lemma executeTransfer_returns context options st :
  ∃ out st', executeTransfer context options st = (inr out, st').
Proof.
  destruct (resolveRequest context options st) as [[e|r] st1] eqn:Hres.
  - unfold executeTransfer, try_catch. rewrite (bind_err _ _ _ _ _ Hres).
    unfold ret. eauto.
  - destruct (executeTransfer_resolved _ _ _ _ _ Hres) as (results & st2 & _ & _ & ->).
    eauto.
Qed.

(** Nothing in the engine stores [auto] in the strategy cache. *)
Lemma executeSingleTransfer_keeps_no_auto context client chainId chainConfig fromAddress
    fromIdentifier toAddress toIdentifier tokenAddress symbol decimals amount
    strategyOption dryRun :
  stepwise keeps_no_auto
    (executeSingleTransfer context client chainId chainConfig fromAddress fromIdentifier
       toAddress toIdentifier tokenAddress symbol decimals amount strategyOption dryRun).
Proof.
  unfold executeSingleTransfer, checkBalance, calculateTransferAmount, guardTransferAmount,
    determineStrategy, chainConfig_read, submitTransfer, Signatures.signPermit,
    Signatures.signTransferWithAuthorization, Signatures.generateAuthorizationNonce,
    Strategy.getChainId.
  stepwise_split; try apply no_auto_perform; apply detectStrategy_keeps_no_auto.
Qed.

Lemma transferEach_keeps_no_auto context client chainId chainConfig toAddress options
    tokenAddress symbol decimals fromAddresses :
  ∀ results,
    stepwise keeps_no_auto
      (transferEach context client chainId chainConfig toAddress options tokenAddress
         symbol decimals results fromAddresses).
Proof.
  induction fromAddresses as [|[ident addr] rest IH]; intros results; simpl.
  - apply stepwise_ret; apply _.
  - apply stepwise_bind; [apply _ | | intros ?; apply IH].
    apply stepwise_try_catch; [apply _ | | intros ?; apply stepwise_ret; apply _].
    apply executeSingleTransfer_keeps_no_auto.
Qed.

Lemma executeTransfer_keeps_no_auto context options :
  stepwise keeps_no_auto (executeTransfer context options).
Proof.
  unfold executeTransfer, resolveRequest.
  stepwise_split; try apply no_auto_perform; apply transferEach_keeps_no_auto.
Qed.
End TransferFacts.

Section TransferClaims.
Context {W Client Account : Type} `{!Env W Client Account}.
Import Js Executor.

(** C1, as the code has it.  For every request that resolves, the unit of
    every expanded source address is run and gives one outcome; what
    [executeTransfer] returns is never the list of them.  When the
    specification expands to at least one address it returns a single
    outcome, the last of them: the only one when the specification
    expands to one address, the outcome of the last address when it
    expands to several.  When it expands to no address, it returns no
    outcome at all ([undefined]). *)
Theorem executeTransfer_returns_last context options st r st1 :
  resolveRequest context options st = (inr r, st1) →
  ∃ results st2,
    unitsRun context (r_client r) (r_chainId r) (r_chainConfig r) (r_toAddress r) options
      (r_tokenAddress r) (r_symbol r) (r_decimals r) st1 (r_fromAddresses r) results st2
    ∧ transferEach context (r_client r) (r_chainId r) (r_chainConfig r) (r_toAddress r)
        options (r_tokenAddress r) (r_symbol r) (r_decimals r) [] (r_fromAddresses r) st1
      = (inr results, st2)
    ∧ length results = length (r_fromAddresses r)
    ∧ executeTransfer context options st = (inr (last results), st2)
    ∧ (r_fromAddresses r ≠ [] →
       ∃ outcome, last results = Some outcome
                  ∧ executeTransfer context options st = (inr (Some outcome), st2))
    ∧ (r_fromAddresses r = [] →
       results = [] ∧ executeTransfer context options st = (inr None, st1))
    ∧ (length (r_fromAddresses r) = 1%nat → ∃ only, results = [only]).
Proof.
  intros Hres.
  destruct (executeTransfer_resolved _ _ _ _ _ Hres)
    as (results & st2 & Hunits & Heach & Hrun).
  pose proof (unitsRun_length _ _ _ _ _ _ _ _ _ _ _ _ _ Hunits) as Hlen.
  rewrite pick_result_last in Hrun.
  exists results, st2. split; [done|]. split; [done|]. split; [done|]. split; [done|].
  split; [|split].
  - intros Hne. destruct (last_is_Some results) as [outcome Hlast].
    { intros ->. by destruct (r_fromAddresses r). }
    exists outcome. split; [done|]. by rewrite Hrun, Hlast.
  - intros Hnil. rewrite Hnil in Hlen, Heach. destruct results; [|discriminate].
    injection Heach as <-. by rewrite Hrun.
  - intros H1. rewrite H1 in Hlen. destruct results as [|x [|y results]]; try discriminate.
    by exists x.
Qed.

(** C8.  [executeTransfer] never throws.  For every request that resolves,
    the unit of every source address is run, in order, whatever the units
    before it did, and the loop records one outcome per source address,
    at the place of the address: what the unit returned or, for a unit
    that throws, the [Failure] that carries the identifier and address of
    its source, the identifier and address of the destination, the code
    of the error ([TRANSFER_FAILED] when the error is not a
    [HotSweepError]) and its message, as [failure_of] makes it.
    [executeTransfer] returns the last of the recorded outcomes, in the
    state reached after the last unit. *)
Theorem per_address_failures_isolated context options st :
  (∃ out st', executeTransfer context options st = (inr out, st'))
  ∧ (∀ r st1,
       resolveRequest context options st = (inr r, st1) →
       ∃ results st2,
         unitsRun context (r_client r) (r_chainId r) (r_chainConfig r) (r_toAddress r)
           options (r_tokenAddress r) (r_symbol r) (r_decimals r)
           st1 (r_fromAddresses r) results st2
         ∧ transferEach context (r_client r) (r_chainId r) (r_chainConfig r)
             (r_toAddress r) options (r_tokenAddress r) (r_symbol r) (r_decimals r)
             [] (r_fromAddresses r) st1
           = (inr results, st2)
         ∧ length results = length (r_fromAddresses r)
         ∧ executeTransfer context options st = (inr (last results), st2)
         ∧ ∀ k source, r_fromAddresses r !! k = Some source →
             ∃ stk out stk',
               executeSingleTransfer context (r_client r) (r_chainId r) (r_chainConfig r)
                 (address source) (identifier source) (r_toAddress r)
                 (spec_string (opt_to options)) (r_tokenAddress r) (r_symbol r)
                 (r_decimals r) (opt_amount options) (opt_strategy options)
                 (opt_dryRun options) stk
               = (out, stk')
               ∧ results !! k
                 = Some match out with
                        | inr result => result
                        | inl error =>
                            failure_of source
                              {| identifier := spec_string (opt_to options);
                                 address := r_toAddress r |} error
                        end)
  ∧ (∀ source destination code message,
       failure_of source destination (HotSweepError code message)
       = Failure source destination code message)
  ∧ (∀ source destination message,
       failure_of source destination (OtherError message)
       = Failure source destination TRANSFER_FAILED message).
Proof.
  split; [apply executeTransfer_returns|]. split; [|by split].
  intros r st1 Hres.
  destruct (executeTransfer_resolved _ _ _ _ _ Hres)
    as (results & st2 & Hunits & Heach & Hrun).
  exists results, st2. split; [done|]. split; [done|].
  split; [by eapply unitsRun_length|]. split; [by rewrite <- pick_result_last|].
  intros k source Hk.
  destruct (unitsRun_lookup _ _ _ _ _ _ _ _ _ _ _ _ _ Hunits k source Hk)
    as (stk & out & stk' & Hunit & Hout).
  exists stk, out, stk'. split; [exact Hunit|]. rewrite Hout.
  destruct out as [error|result]; [by rewrite failure_of_unit_outcome | done].
Qed.

End TransferClaims.

(** ** Runs on the small chain *)

Section DemoRuns.
Import Js Executor.

(** A failing unit does not keep the next one from running. *)
Example demo_failure_then_success :
  ∃ r st1 success st2,
    resolveRequest (Env0 := Demo.env Demo.uneven) Demo.context
      (Demo.request "0-1" "TKN" "5" false) Demo.start = (inr r, st1)
    ∧ transferEach (Env0 := Demo.env Demo.uneven) Demo.context (r_client r) (r_chainId r)
        (r_chainConfig r) (r_toAddress r) (Demo.request "0-1" "TKN" "5" false)
        (r_tokenAddress r) (r_symbol r) (r_decimals r) [] (r_fromAddresses r) st1
      = (inr [ Failure {| identifier := "0"; address := "0xd0" |}
                 {| identifier := "hot-wallet"; address := Demo.hot |}
                 TRANSFER_INSUFFICIENT_BALANCE "Insufficient balance: 0 < 5";
               Success success ], st2)
    ∧ res_from success = {| identifier := "1"; address := "0xd1" |}
    ∧ res_tx_hash success = "0xtx0".
Proof.
  eexists _, _, _, _. split; [vm_compute; reflexivity|].
  split; [vm_compute; reflexivity|]. split; reflexivity.
Qed.

End DemoRuns.

(** C1, as stated, fails.  The request from "0-1" expands to two source
    addresses and both units are run: the first gives a [Failure] (its
    address is empty), the second a [Success].  [executeTransfer] returns
    the second outcome alone; the first is in the list of per-address
    outcomes and is not returned. *)
Lemma executeTransfer_drops_outcomes :
  ∃ r st1 results st2 dropped returned,
    Executor.resolveRequest (Env0 := Demo.env Demo.uneven) Demo.context
      (Demo.request "0-1" "TKN" "5" true) Demo.start = (inr r, st1)
    ∧ length (Executor.r_fromAddresses r) = 2%nat
    ∧ Executor.transferEach (Env0 := Demo.env Demo.uneven) Demo.context
        (Executor.r_client r) (Executor.r_chainId r) (Executor.r_chainConfig r)
        (Executor.r_toAddress r) (Demo.request "0-1" "TKN" "5" true)
        (Executor.r_tokenAddress r) (Executor.r_symbol r) (Executor.r_decimals r)
        [] (Executor.r_fromAddresses r) st1
      = (inr results, st2)
    ∧ length results = 2%nat
    ∧ dropped ∈ results
    ∧ Executor.executeTransfer (Env0 := Demo.env Demo.uneven) Demo.context
        (Demo.request "0-1" "TKN" "5" true) Demo.start
      = (inr (Some returned), st2)
    ∧ returned ≠ dropped.
Proof.
  eexists _, _, _, _, _, _. split; [vm_compute; reflexivity|].
  split; [reflexivity|]. split; [vm_compute; reflexivity|]. split; [reflexivity|].
  split; [apply elem_of_cons; left; reflexivity|].
  split; [vm_compute; reflexivity|]. discriminate.
Qed.

Lemma executeTransfer_returns_last_witness :
  ∃ r st1,
    Executor.resolveRequest (Env0 := Demo.env Demo.uneven) Demo.context
      (Demo.request "0-1" "TKN" "5" true) Demo.start = (inr r, st1)
    ∧ ∃ results st2,
        unitsRun (Env0 := Demo.env Demo.uneven) Demo.context (Executor.r_client r)
          (Executor.r_chainId r) (Executor.r_chainConfig r) (Executor.r_toAddress r)
          (Demo.request "0-1" "TKN" "5" true) (Executor.r_tokenAddress r)
          (Executor.r_symbol r) (Executor.r_decimals r) st1
          (Executor.r_fromAddresses r) results st2
        ∧ Executor.transferEach (Env0 := Demo.env Demo.uneven) Demo.context
            (Executor.r_client r) (Executor.r_chainId r) (Executor.r_chainConfig r)
            (Executor.r_toAddress r) (Demo.request "0-1" "TKN" "5" true)
            (Executor.r_tokenAddress r) (Executor.r_symbol r) (Executor.r_decimals r)
            [] (Executor.r_fromAddresses r) st1
          = (inr results, st2)
        ∧ length results = length (Executor.r_fromAddresses r)
        ∧ Executor.executeTransfer (Env0 := Demo.env Demo.uneven) Demo.context
            (Demo.request "0-1" "TKN" "5" true) Demo.start
          = (inr (last results), st2)
        ∧ (Executor.r_fromAddresses r ≠ [] →
           ∃ outcome,
             last results = Some outcome
             ∧ Executor.executeTransfer (Env0 := Demo.env Demo.uneven) Demo.context
                 (Demo.request "0-1" "TKN" "5" true) Demo.start
               = (inr (Some outcome), st2))
        ∧ (Executor.r_fromAddresses r = [] →
           results = []
           ∧ Executor.executeTransfer (Env0 := Demo.env Demo.uneven) Demo.context
               (Demo.request "0-1" "TKN" "5" true) Demo.start
             = (inr None, st1))
        ∧ (length (Executor.r_fromAddresses r) = 1%nat → ∃ only, results = [only]).
Proof.
  eexists _, _. split; [vm_compute; reflexivity|].
  apply (executeTransfer_returns_last (Env0 := Demo.env Demo.uneven)).
  vm_compute; reflexivity.
Defined.

Lemma per_address_failures_isolated_witness :
  ∃ r st1,
    Executor.resolveRequest (Env0 := Demo.env Demo.uneven) Demo.context
      (Demo.request "0-1" "TKN" "5" false) Demo.start = (inr r, st1)
    ∧ ∃ results st2,
        unitsRun (Env0 := Demo.env Demo.uneven) Demo.context (Executor.r_client r)
          (Executor.r_chainId r) (Executor.r_chainConfig r) (Executor.r_toAddress r)
          (Demo.request "0-1" "TKN" "5" false) (Executor.r_tokenAddress r)
          (Executor.r_symbol r) (Executor.r_decimals r) st1
          (Executor.r_fromAddresses r) results st2
        ∧ Executor.transferEach (Env0 := Demo.env Demo.uneven) Demo.context
            (Executor.r_client r) (Executor.r_chainId r) (Executor.r_chainConfig r)
            (Executor.r_toAddress r) (Demo.request "0-1" "TKN" "5" false)
            (Executor.r_tokenAddress r) (Executor.r_symbol r) (Executor.r_decimals r)
            [] (Executor.r_fromAddresses r) st1
          = (inr results, st2)
        ∧ length results = length (Executor.r_fromAddresses r)
        ∧ Executor.executeTransfer (Env0 := Demo.env Demo.uneven) Demo.context
            (Demo.request "0-1" "TKN" "5" false) Demo.start
          = (inr (last results), st2)
        ∧ ∀ k source, Executor.r_fromAddresses r !! k = Some source →
            ∃ stk out stk',
              Executor.executeSingleTransfer (Env0 := Demo.env Demo.uneven) Demo.context
                (Executor.r_client r) (Executor.r_chainId r) (Executor.r_chainConfig r)
                (address source) (identifier source) (Executor.r_toAddress r)
                (Executor.spec_string (opt_to (Demo.request "0-1" "TKN" "5" false)))
                (Executor.r_tokenAddress r) (Executor.r_symbol r) (Executor.r_decimals r)
                (opt_amount (Demo.request "0-1" "TKN" "5" false))
                (opt_strategy (Demo.request "0-1" "TKN" "5" false))
                (opt_dryRun (Demo.request "0-1" "TKN" "5" false)) stk
              = (out, stk')
              ∧ results !! k
                = Some match out with
                       | inr result => result
                       | inl error =>
                           Executor.failure_of source
                             {| identifier :=
                                  Executor.spec_string
                                    (opt_to (Demo.request "0-1" "TKN" "5" false));
                                address := Executor.r_toAddress r |} error
                       end.
Proof.
  eexists _, _. split; [vm_compute; reflexivity|].
  apply (proj1 (proj2 (per_address_failures_isolated (Env0 := Demo.env Demo.uneven)
                         Demo.context (Demo.request "0-1" "TKN" "5" false) Demo.start))).
  vm_compute; reflexivity.
Defined.

Lemma sweep_all_reserves_gas_witness :
  (Executor.executeSingleTransfer (Env0 := Demo.env Demo.rich) Demo.context tt
     "eip155:31337" (Some Demo.anvil) "0xd0" "0" Demo.hot "hot-wallet"
     NATIVE_TOKEN_ADDRESS "ETH" 18 "all" None true Demo.start).1
  = inr (Executor.successResult (Env0 := Demo.env Demo.rich) "eip155:31337" Demo.anvil
           "0xd0" "0" Demo.hot "hot-wallet" NATIVE_TOKEN_ADDRESS "ETH" 18 58000 legacy
           "0x" None)
  ∧ (Executor.executeSingleTransfer (Env0 := Demo.env Demo.poor) Demo.context tt
       "eip155:31337" (Some Demo.anvil) "0xd0" "0" Demo.hot "hot-wallet"
       NATIVE_TOKEN_ADDRESS "ETH" 18 "all" None false Demo.start).1
    = inl (HotSweepError TRANSFER_INSUFFICIENT_BALANCE "Insufficient balance for transfer")
  ∧ (∃ account answer rest,
       trace (Executor.executeSingleTransfer (Env0 := Demo.env Demo.rich) Demo.context tt
                "eip155:31337" (Some Demo.anvil) "0xd0" "0" Demo.hot "hot-wallet"
                NATIVE_TOKEN_ADDRESS "ETH" 18 "all" None false Demo.start).2
       = ([ {| call := GetBalance "0xd0"; reply := GaveNumber 100000 |};
            {| call := GetGasPrice; reply := GaveNumber 1 |};
            {| call := SendTransaction account Demo.hot 58000; reply := answer |} ]
          ++ rest)%list)
  ∧ Executor.executeSingleTransfer (Env0 := Demo.env Demo.rich) Demo.context tt
      "eip155:31337"
      (Some {| chain_namespace := "eip155"; chain_chainId := None; chain_name := "anvil";
               chain_aliases := None; chain_nativeSymbol := "ETH" |})
      "0xd0" "0" Demo.hot "hot-wallet" NATIVE_TOKEN_ADDRESS "ETH" 18 "all" None false
      Demo.start
    = (inl (HotSweepError CHAIN_UNSUPPORTED
              "Non-EVM chains not supported yet: eip155:31337"),
       {| world := 0%nat; strategyCache := ∅;
          trace := [ {| call := GetBalance "0xd0"; reply := GaveNumber 100000 |};
                     {| call := GetGasPrice; reply := GaveNumber 1 |} ] |})
  ∧ ∃ message evs,
      Executor.executeSingleTransfer (Env0 := Demo.env Demo.rich) Demo.context tt
        "eip155:31337" (Some Demo.anvil) "0xd0" "0" Demo.hot "hot-wallet" Demo.token
        "TKN" 18 "7000000" None false Demo.start
      = (inl (HotSweepError TRANSFER_INSUFFICIENT_BALANCE message),
         {| world := 0%nat; strategyCache := ∅;
            trace := [ {| call := ReadBalanceOf Demo.token "0xd0";
                          reply := GaveNumber 100000 |} ] |})
      ∧ [ {| call := ReadBalanceOf Demo.token "0xd0"; reply := GaveNumber 100000 |} ]
        = ([] ++ evs)%list
      ∧ Forall (fun e => is_amount_read (call e) = true
                         ∧ is_signature (call e) = false
                         ∧ is_submission (call e) = false) evs.
Proof.
  split; [|split; [|split; [|split]]].
  - pose proof (proj1 (sweep_all_reserves_gas (Env0 := Demo.env Demo.rich) Demo.context tt
                         "eip155:31337" (Some Demo.anvil) "0xd0" "0" Demo.hot "hot-wallet"
                         NATIVE_TOKEN_ADDRESS "ETH" 18 None true Demo.start)
                  100000 0%nat 1 0%nat eq_refl eq_refl eq_refl) as (_ & _ & H & _).
    rewrite (H ltac:(lia) ltac:(lia) Demo.anvil eq_refl). reflexivity.
  - pose proof (proj1 (sweep_all_reserves_gas (Env0 := Demo.env Demo.poor) Demo.context tt
                         "eip155:31337" (Some Demo.anvil) "0xd0" "0" Demo.hot "hot-wallet"
                         NATIVE_TOKEN_ADDRESS "ETH" 18 None false Demo.start)
                  1000 0%nat 1 0%nat eq_refl eq_refl eq_refl) as (_ & H & _).
    rewrite (H ltac:(lia)). reflexivity.
  - pose proof (proj1 (sweep_all_reserves_gas (Env0 := Demo.env Demo.rich) Demo.context tt
                         "eip155:31337" (Some Demo.anvil) "0xd0" "0" Demo.hot "hot-wallet"
                         NATIVE_TOKEN_ADDRESS "ETH" 18 None false Demo.start)
                  100000 0%nat 1 0%nat eq_refl eq_refl eq_refl) as (_ & _ & _ & H & _).
    edestruct (H ltac:(lia) ltac:(lia) Demo.anvil) as (answer & rest & Ht);
      [vm_compute; reflexivity | reflexivity |].
    eexists _, answer, rest. exact Ht.
  - pose proof (proj1 (sweep_all_reserves_gas (Env0 := Demo.env Demo.rich) Demo.context tt
                         "eip155:31337"
                         (Some {| chain_namespace := "eip155"; chain_chainId := None;
                                  chain_name := "anvil"; chain_aliases := None;
                                  chain_nativeSymbol := "ETH" |})
                         "0xd0" "0" Demo.hot "hot-wallet"
                         NATIVE_TOKEN_ADDRESS "ETH" 18 None false Demo.start)
                  100000 0%nat 1 0%nat eq_refl eq_refl eq_refl) as (_ & _ & _ & _ & H).
    erewrite (H ltac:(lia) ltac:(lia)); [reflexivity | vm_compute; reflexivity | reflexivity].
  - edestruct (proj2 (sweep_all_reserves_gas (Env0 := Demo.env Demo.rich) Demo.context tt
                        "eip155:31337" (Some Demo.anvil) "0xd0" "0" Demo.hot "hot-wallet"
                        Demo.token "TKN" 18 None false Demo.start) "7000000")
      as (message & evs & Hrun & Ht & HF);
      [vm_compute; reflexivity | vm_compute; reflexivity | right; vm_compute; reflexivity |].
    exists message, evs. split; [exact Hrun|]. split; [exact Ht | exact HF].
Defined.



Lemma permit_hash_reported_witness :
  ∃ r st',
    Executor.executeSingleTransfer (Env0 := Demo.env Demo.rich) Demo.context tt
      "eip155:31337" (Some Demo.anvil) "0xd0" "0" Demo.hot "hot-wallet" Demo.token "TKN"
      18 "5" None false Demo.start
    = (inr (Success r), st')
    ∧ res_tx_hash r = "0xtx0"
    ∧ ∃ evs signer data transferAmount transferHash receipt,
        trace st' =
          (trace Demo.start ++ evs ++
             [ {| call := WritePermit signer Demo.token data;
                  reply := GaveText (res_tx_hash r) |};
               {| call := WriteTransfer signer Demo.token Demo.hot transferAmount;
                  reply := GaveText transferHash |};
               {| call := WaitForTransactionReceipt (res_tx_hash r);
                  reply := GaveReceipt receipt |} ])%list
        ∧ Forall (fun e => is_prelude (call e) = true) evs
        ∧ res_tx_receipt r = Some receipt.
Proof.
  eexists _, _. split; [vm_compute; reflexivity|]. split; [reflexivity|].
  eapply (permit_hash_reported (Env0 := Demo.env Demo.rich) Demo.context tt "eip155:31337"
            (Some Demo.anvil) "0xd0" "0" Demo.hot "hot-wallet" Demo.token "TKN" 18 "5" None);
    [reflexivity | vm_compute; reflexivity | reflexivity].
Defined.

(* ===================================================================== *)
(** * Further properties *)
(* ===================================================================== *)

(** ** Texts and numbers *)

Section TextFacts.
Import Js.

Lemma pretty_N_char_digit d :
  (d < 10)%N →
  is_digit (pretty_N_char d) = true ∧ digit_val (pretty_N_char d) = Z.of_N d.
Proof.
  intros Hd.
  assert (d = 0 ∨ d = 1 ∨ d = 2 ∨ d = 3 ∨ d = 4 ∨ d = 5 ∨ d = 6 ∨ d = 7 ∨ d = 8 ∨ d = 9)%N
    as Hc by lia.
  repeat (destruct Hc as [->|Hc]; [by vm_compute|]). by subst.
Qed.

Lemma is_digit_plain c :
  is_digit c = true →
  is_space c = false ∧ c ≠ "-"%char ∧ c ≠ "+"%char ∧ c ≠ ":"%char ∧ 0 ≤ digit_val c.
Proof.
  destruct c as [[] [] [] [] [] [] [] []]; vm_compute; intros H;
    try discriminate H; repeat split; discriminate.
Qed.

(** [parseInt] by the first character that is not white space. *)
Lemma parseInt_unfold s :
  parseInt s =
    match drop_spaces s with
    | String c t =>
        if Ascii.eqb c "-" then Z.opp <$> read_digits 0 false t
        else if Ascii.eqb c "+" then read_digits 0 false t
        else read_digits 0 false (String c t)
    | EmptyString => None
    end.
Proof.
  unfold parseInt. destruct (drop_spaces s) as [|c t]; [reflexivity|].
  destruct c as [[] [] [] [] [] [] [] []]; reflexivity.
Qed.

Lemma read_digits_pretty_N_go x s seen :
  (0 < x)%N →
  read_digits 0 seen (pretty_N_go x s) = read_digits (Z.of_N x) true s.
Proof.
  revert s seen. induction (N.lt_wf_0 x) as [x _ IH]; intros s seen Hx.
  rewrite pretty_N_go_step by done.
  destruct (pretty_N_char_digit (x `mod` 10)%N) as [Hd Hv]; [by apply N.mod_lt|].
  pose proof (N.div_mod x 10 ltac:(done)) as Hx'.
  apply (f_equal Z.of_N) in Hx'. rewrite N2Z.inj_add, N2Z.inj_mul in Hx'.
  destruct (N.eq_0_gt_0_cases (x `div` 10)) as [H0|Hpos].
  - rewrite H0 in *. rewrite pretty_N_go_0. simpl. rewrite Hd, Hv. f_equal. lia.
  - rewrite IH; [|by apply N.div_lt|done]. simpl. rewrite Hd, Hv. f_equal. lia.
Qed.

Lemma all_digits_pretty_N_go x s :
  all_chars is_digit (pretty_N_go x s) = all_chars is_digit s.
Proof.
  revert s. induction (N.lt_wf_0 x) as [x _ IH]; intros s.
  destruct (N.eq_0_gt_0_cases x) as [->|Hx]; [by rewrite pretty_N_go_0|].
  rewrite pretty_N_go_step by done.
  rewrite IH by (by apply N.div_lt). simpl.
  by destruct (pretty_N_char_digit (x `mod` 10)%N) as [-> _]; [apply N.mod_lt|].
Qed.

Lemma pretty_N_go_head x s :
  (0 < x)%N → ∃ c t, pretty_N_go x s = String c t ∧ is_digit c = true.
Proof.
  revert s. induction (N.lt_wf_0 x) as [x _ IH]; intros s Hx.
  rewrite pretty_N_go_step by done.
  destruct (N.eq_0_gt_0_cases (x `div` 10)) as [H0|Hpos].
  - rewrite H0, pretty_N_go_0. eexists _, _. split; [done|].
    by destruct (pretty_N_char_digit (x `mod` 10)%N) as [-> _]; [apply N.mod_lt|].
  - apply IH; [by apply N.div_lt|done].
Qed.

(** The text of a number that is not negative: digits, at least one. *)
Lemma string_of_number_digits n :
  0 ≤ n → ∃ c t, string_of_number n = String c t ∧ all_chars is_digit (String c t) = true.
Proof.
  intros Hn. unfold string_of_number, pretty, pretty_Z.
  destruct n as [|p|p]; [by exists "0"%char, "" | | lia].
  unfold pretty, pretty_positive, pretty, pretty_N. simpl.
  destruct (pretty_N_go_head (N.pos p) "" ltac:(lia)) as (c & t & Heq & Hc).
  exists c, t. split; [done|]. change (all_chars is_digit (String c t) = true). rewrite <- Heq. apply all_digits_pretty_N_go.
Qed.

(** [parseInt(String(n), 10)] is [n]. *)
Lemma parseInt_string_of_number n : parseInt (string_of_number n) = Some n.
Proof.
  rewrite parseInt_unfold. unfold string_of_number, pretty, pretty_Z.
  destruct n as [|p|p]; [reflexivity| |].
  - unfold pretty, pretty_positive, pretty, pretty_N. simpl.
    destruct (pretty_N_go_head (N.pos p) "" ltac:(lia)) as (c & t & Heq & Hc).
    pose proof (read_digits_pretty_N_go (N.pos p) "" false ltac:(lia)) as Hr.
    rewrite Heq in *. destruct (is_digit_plain c Hc) as (Hs & Hm & Hp & _).
    simpl. rewrite Hs.
    apply Ascii.eqb_neq in Hm, Hp. by rewrite Hm, Hp.
  - unfold pretty, pretty_positive, pretty, pretty_N. simpl.
    change ("" +:+ ?s) with s.
    by rewrite (read_digits_pretty_N_go (N.pos p) "" false ltac:(lia)).
Qed.

Lemma includes_rev_string c acc s :
  includes c (rev_string acc s) = includes c acc || includes c s.
Proof.
  revert acc. induction s as [|d s IH]; intros acc; simpl; [by rewrite orb_false_r|].
  rewrite IH. simpl. by destruct (Ascii.eqb d c), (includes c acc), (includes c s).
Qed.

Lemma includes_drop_spaces c s :
  includes c s = false → includes c (drop_spaces s) = false.
Proof.
  induction s as [|d s IH]; simpl; [done|].
  intros H. apply orb_false_iff in H as [Hd Hs].
  destruct (is_space d); [by apply IH|]. simpl. by rewrite Hd, Hs.
Qed.

Lemma includes_trim c s : includes c s = false → includes c (trim s) = false.
Proof.
  intros H. unfold trim. rewrite includes_rev_string. simpl.
  apply includes_drop_spaces. rewrite includes_rev_string. simpl.
  by apply includes_drop_spaces.
Qed.

Lemma includes_split sep s w : w ∈ split sep s → includes sep w = false.
Proof.
  revert w. induction s as [|c s IH]; intros w; simpl.
  - intros Hw. apply list_elem_of_singleton in Hw as ->. reflexivity.
  - destruct (Ascii.eqb c sep) eqn:Hc.
    + intros Hw. apply elem_of_cons in Hw as [->|Hw]; [reflexivity | by apply IH].
    + destruct (split sep s) as [|w0 ws] eqn:Hs.
      * intros Hw. apply list_elem_of_singleton in Hw as ->. simpl. by rewrite Hc.
      * intros Hw. apply elem_of_cons in Hw as [->|Hw].
        -- simpl. rewrite Hc. apply IH. by left.
        -- apply IH. by right.
Qed.

Lemma read_digits_nonneg s acc seen n :
  0 ≤ acc → read_digits acc seen s = Some n → 0 ≤ n.
Proof.
  revert acc seen. induction s as [|c s IH]; intros acc seen Hacc; simpl.
  - destruct seen; [|discriminate]. by intros [= <-].
  - destruct (is_digit c) eqn:Hc.
    + apply IH. destruct (is_digit_plain c Hc) as (_ & _ & _ & _ & Hv). lia.
    + destruct seen; [|discriminate]. by intros [= <-].
Qed.

(** [parseInt] of a text without a minus sign is not negative. *)
Lemma parseInt_nonneg s n : includes "-" s = false → parseInt s = Some n → 0 ≤ n.
Proof.
  intros Hs. apply (includes_drop_spaces "-") in Hs.
  rewrite parseInt_unfold. destruct (drop_spaces s) as [|c t]; [discriminate|].
  simpl in Hs. apply orb_false_iff in Hs as [Hc Ht]. rewrite Hc.
  destruct (Ascii.eqb c "+"); by apply read_digits_nonneg.
Qed.

Lemma rev_string_rev_string s a b :
  rev_string b (rev_string a s) = rev_string (s +:+ b) a.
Proof.
  revert a. induction s as [|c s IH]; intros a; simpl; [reflexivity|]. by rewrite IH.
Qed.

Lemma all_chars_rev_string p acc s :
  all_chars p (rev_string acc s) = all_chars p acc && all_chars p s.
Proof.
  revert acc. induction s as [|d s IH]; intros acc; simpl; [by rewrite andb_true_r|].
  rewrite IH. simpl. by destruct (p d), (all_chars p acc), (all_chars p s).
Qed.

Lemma drop_spaces_digits s : all_chars is_digit s = true → drop_spaces s = s.
Proof.
  destruct s as [|c s]; simpl; [done|]. intros H. apply andb_true_iff in H as [Hc _].
  by destruct (is_digit_plain c Hc) as (-> & _).
Qed.

Lemma append_nil_r s : s +:+ "" = s.
Proof.
  induction s as [|c s IH]; [done|].
  change (String c (s +:+ "") = String c s). by rewrite IH.
Qed.

(** A run of digits has nothing to trim. *)
Lemma trim_digits s : all_chars is_digit s = true → trim s = s.
Proof.
  intros H. unfold trim. rewrite (drop_spaces_digits s H).
  rewrite drop_spaces_digits by (by rewrite all_chars_rev_string).
  by rewrite rev_string_rev_string, append_nil_r.
Qed.

Lemma includes_digits c s :
  is_digit c = false → all_chars is_digit s = true → includes c s = false.
Proof.
  intros Hc. induction s as [|d s IH]; simpl; [done|].
  intros H. apply andb_true_iff in H as [Hd Hs]. rewrite IH by done.
  destruct (Ascii.eqb_spec d c) as [->|_]; [congruence|done].
Qed.

Lemma includes_split_other c sep s w :
  includes c s = false → w ∈ split sep s → includes c w = false.
Proof.
  revert w. induction s as [|d s IH]; intros w; simpl.
  - intros _ Hw. apply list_elem_of_singleton in Hw as ->. reflexivity.
  - intros H. apply orb_false_iff in H as [Hd Hs].
    destruct (Ascii.eqb d sep).
    + intros Hw. apply elem_of_cons in Hw as [->|Hw]; [reflexivity | by apply IH].
    + destruct (split sep s) as [|w0 ws] eqn:Hsp.
      * intros Hw. apply list_elem_of_singleton in Hw as ->. simpl. by rewrite Hd.
      * intros Hw. apply elem_of_cons in Hw as [->|Hw].
        -- simpl. rewrite Hd. apply IH; [done|]. by left.
        -- apply IH; [done|]. by right.
Qed.

Lemma append_cons c s t : String c s +:+ t = String c (s +:+ t).
Proof. reflexivity. Qed.

Lemma append_assoc (a b c : string) : (a +:+ b) +:+ c = a +:+ b +:+ c.
Proof.
  induction a as [|x a IH]; [reflexivity|]. rewrite !append_cons. by rewrite IH.
Qed.

End TextFacts.

(** ** More on [address/parser.ts] *)

Section ParserMore.
Import Js Parser.

Lemma set_spread_go_NoDup seen l :
  NoDup l → (∀ x, x ∈ l → x ∉ seen) → set_spread_go seen l = l.
Proof.
  revert seen. induction l as [|y l IH]; intros seen Hnd Hseen; simpl; [done|].
  apply NoDup_cons in Hnd as [Hy Hnd].
  rewrite bool_decide_eq_false_2 by (apply Hseen; by left).
  f_equal. apply IH; [done|]. intros x Hx Hin.
  apply elem_of_cons in Hin as [->|Hin]; [done|]. eapply Hseen; [by right|done].
Qed.

Lemma StronglySorted_lt_NoDup (l : list Z) : StronglySorted Z.lt l → NoDup l.
Proof.
  induction 1 as [|x l Hs IH Hall]; constructor; [|done].
  intros Hx. rewrite Forall_forall in Hall. specialize (Hall x Hx). lia.
Qed.

Lemma StronglySorted_lt_le (l : list Z) : StronglySorted Z.lt l → StronglySorted Z.le l.
Proof.
  induction 1 as [|x l Hs IH Hall]; constructor; [done|].
  eapply Forall_impl; [exact Hall|]. intros y Hy. simpl in Hy. lia.
Qed.

(** A strictly increasing list is left as it is by
    [[...new Set(l)].sort((a, b) => a - b)]. *)
Lemma normalize_fixpoint l :
  StronglySorted Z.lt l → sort_numeric (set_spread l) = l.
Proof.
  intros Hl. unfold set_spread.
  rewrite set_spread_go_NoDup;
    [|by apply StronglySorted_lt_NoDup | intros x _ Hx; inversion Hx].
  unfold sort_numeric. apply (StronglySorted_unique Z.le).
  - apply (StronglySorted_merge_sort Z.le).
  - by apply StronglySorted_lt_le.
  - apply merge_sort_Permutation.
Qed.

Lemma push_range_singleton index : push_range index index = [index].
Proof.
  unfold push_range. replace (index - index + 1) with 1 by lia.
  unfold seqZ. simpl. f_equal.
Qed.

(** What a segment that is read pushes: the integers from a bound that is
    not negative to a bound that is not smaller. *)
Lemma parsePart_inr part pushed :
  parsePart part = inr pushed →
  ∃ start end_, pushed = push_range start end_ ∧ 0 ≤ start ≤ end_.
Proof.
  unfold parsePart. destruct (includes "-" part) eqn:Hdash.
  - destruct (parseInt (trim (default "" (split "-" part !! 0%nat)))) as [a|] eqn:Ha;
      [|discriminate].
    destruct (parseInt (trim (default "" (split "-" part !! 1%nat)))) as [b|]; [|discriminate].
    destruct (a >? b) eqn:Hab; [discriminate|]. intros [= <-].
    exists a, b. split; [done|]. split; [|lia].
    apply parseInt_nonneg in Ha; [done|]. apply includes_trim.
    destruct (split "-" part !! 0%nat) as [f|] eqn:Hf; [|reflexivity].
    simpl. eapply includes_split, list_elem_of_lookup_2, Hf.
  - destruct (parseInt part) as [index|] eqn:Hi; [|discriminate]. intros [= <-].
    exists index, index. split; [by rewrite push_range_singleton|].
    apply parseInt_nonneg in Hi; [lia|done].
Qed.

Lemma parseParts_inl_iff acc parts e :
  parseParts acc parts = inl e ↔
  ∃ i part, parts !! i = Some part ∧ parsePart part = inl e
            ∧ ∀ j p, (j < i)%nat → parts !! j = Some p → succeeded (parsePart p) = true.
Proof.
  revert acc. induction parts as [|q parts IH]; intros acc; simpl.
  - split; [discriminate|]. by intros (i & part & Hi & _).
  - destruct (parsePart q) as [e'|ps] eqn:Hq.
    + split.
      * intros [= ->]. exists 0%nat, q. split; [done|]. split; [done|]. intros j p Hj. lia.
      * intros (i & part & Hi & Hp & Hbefore). destruct i as [|i].
        -- injection Hi as ->. congruence.
        -- specialize (Hbefore 0%nat q ltac:(lia) eq_refl). by rewrite Hq in Hbefore.
    + rewrite IH. split.
      * intros (i & part & Hi & Hp & Hbefore). exists (S i), part.
        split; [done|]. split; [done|]. intros [|j] p Hj Hjp.
        -- injection Hjp as <-. by rewrite Hq.
        -- apply (Hbefore j); [lia|done].
      * intros (i & part & Hi & Hp & Hbefore). destruct i as [|i].
        -- injection Hi as ->. congruence.
        -- exists i, part. split; [done|]. split; [done|].
           intros j p Hj Hjp. apply (Hbefore (S j)); [lia|done].
Qed.

(** No index that [parseRange] returns is negative. *)
Lemma parseRange_nonneg range l x : parseRange range = inr l → x ∈ l → 0 ≤ x.
Proof.
  intros H Hx.
  apply (parseRange_elements _ _ x H) in Hx as (part & pushed & _ & Hp & Hx).
  destruct (parsePart_inr _ _ Hp) as (a & b & -> & Ha).
  apply elem_of_push_range in Hx. lia.
Qed.

(** X1.  Whatever [parseRange] returns is strictly increasing, hence
    free of duplicates, and holds exactly the integers that its segments
    cover: [x] is returned if and only if some segment of the text, read
    as the bounds [start] and [end_], has [start <= x <= end_]. *)
Theorem parseRange_sorted_exact range l :
  parseRange range = inr l →
  StronglySorted Z.lt l
  ∧ ∀ x, x ∈ l ↔ ∃ part start end_,
                   part ∈ (trim <$> split "," range)
                   ∧ parsePart part = inr (push_range start end_)
                   ∧ start ≤ x ≤ end_.
Proof.
  intros H. split; [by eapply parseRange_strictly_increasing|].
  intros x. rewrite (parseRange_elements _ _ x H). split.
  - intros (part & pushed & Hin & Hp & Hx).
    destruct (parsePart_inr _ _ Hp) as (a & b & -> & _).
    exists part, a, b. split; [done|]. split; [done|]. by apply elem_of_push_range.
  - intros (part & a & b & Hin & Hp & Hx).
    exists part, (push_range a b). split; [done|]. split; [done|].
    by apply elem_of_push_range.
Qed.

(** X2.  [parseRange] never returns a negative index, although
    [parseInt] accepts a sign: a segment that holds a dash is cut at its
    dashes, so no bound is ever read from a text with a minus sign. *)
Theorem parseRange_nonnegative range l :
  parseRange range = inr l → Forall (fun x => 0 ≤ x) l.
Proof.
  intros H. apply Forall_forall. intros x. by apply parseRange_nonneg with range.
Qed.

(** X3.  [parseRange] throws exactly when one of its segments is
    refused, and then it throws the error of the first segment that is
    refused, every segment before that one having been read; the error is
    an [ADDRESS_RANGE_INVALID]. *)
Theorem parseRange_throws_first_refusal range e :
  (parseRange range = inl e ↔
   ∃ i part, (trim <$> split "," range) !! i = Some part
             ∧ parsePart part = inl e
             ∧ ∀ j p, (j < i)%nat → (trim <$> split "," range) !! j = Some p →
                 succeeded (parsePart p) = true)
  ∧ (parseRange range = inl e → ∃ message, e = HotSweepError ADDRESS_RANGE_INVALID message).
Proof.
  split; [|apply parseRange_error].
  rewrite <- (parseParts_inl_iff []). unfold parseRange.
  destruct (parseParts [] (trim <$> split "," range)) as [e'|ix].
  - split; congruence.
  - split; discriminate.
Qed.

(** X4.  What [resolveToIndices] returns is in normal form: given
    back to [resolveToIndices] as an index list, it comes out unchanged. *)
Theorem resolveToIndices_normal_form spec l :
  resolveToIndices spec = inr l → resolveToIndices (SpecIndices l) = inr l.
Proof.
  intros H. simpl. f_equal. apply normalize_fixpoint.
  destruct spec as [v|v|v|v|v]; simpl in H; try discriminate.
  - injection H as <-. repeat constructor.
  - injection H as <-. apply normalize_strictly_increasing.
  - by eapply parseRange_strictly_increasing.
Qed.

(** X5.  For a specification that names one address (an index, an
    address, a label), [resolveToAddresses] gives the one address that
    [resolveToAddress] gives, under the identifier of the specification,
    and throws what [resolveToAddress] throws.  An index list or a range
    is refused by [resolveToAddress] with [VALIDATION_ERROR]. *)
Theorem resolveToAddress_agrees wallets addressResolver spec :
  let single text :=
    resolveToAddresses wallets addressResolver spec
    = res_map (fun a => [ {| identifier := text; address := a |} ])
        (resolveToAddress wallets addressResolver spec) in
  match spec with
  | SpecIndex index => single (string_of_number index)
  | SpecAddress text | SpecLabel text => single text
  | SpecIndices _ | SpecRange _ =>
      ∃ message,
        resolveToAddress wallets addressResolver spec
        = inl (HotSweepError VALIDATION_ERROR message)
  end.
Proof.
  destruct spec as [v|v|v|v|v]; simpl; eauto.
  - destruct addressResolver as [resolver|]; [|reflexivity]. by destruct (resolver v).
  - by destruct (lookup_wallet wallets v).
Qed.

Lemma map_resolver_entries resolver indices l :
  map_resolver resolver indices = inr l →
  Forall2 (fun i r => identifier r = string_of_number i ∧ resolver i = inr (address r))
    indices l.
Proof.
  revert l. induction indices as [|i indices IH]; intros l; simpl.
  - intros [= <-]. constructor.
  - destruct (resolver i) as [e|a] eqn:Hi; [discriminate|].
    destruct (map_resolver resolver indices) as [e|tl]; [discriminate|].
    intros [= <-]. constructor; [by split | by apply IH].
Qed.

(** What is resolved through indices is the image of a list of indices,
    each entry carrying the text of its index and the address the
    resolver gave for it. *)
Lemma resolveToAddresses_by_index wallets resolver spec l :
  by_index spec = true →
  resolveToAddresses wallets (Some resolver) spec = inr l →
  ∃ indices,
    Forall2 (fun i r => identifier r = string_of_number i ∧ resolver i = inr (address r))
      indices l.
Proof.
  intros Hspec H.
  assert (∃ indices, map_resolver resolver indices = inr l) as [indices Hmap].
  { destruct spec as [v|v|v|v|v]; try discriminate; simpl in H.
    - exists [v]. simpl. by destruct (resolver v).
    - by exists v.
    - destruct (parseRange v) as [e|indices]; [discriminate|]. by exists indices. }
  exists indices. by apply map_resolver_entries.
Qed.

(** The indices through which [resolveToAddresses] resolves are among
    those that [resolveToIndices] gives for the specification. *)
Lemma resolveToAddresses_among_indices wallets resolver spec l :
  by_index spec = true →
  resolveToAddresses wallets (Some resolver) spec = inr l →
  ∃ indices all,
    resolveToIndices spec = inr all
    ∧ indices ⊆ all
    ∧ Forall2 (fun i r => identifier r = string_of_number i ∧ resolver i = inr (address r))
        indices l.
Proof.
  intros Hspec H.
  assert (∃ indices all, resolveToIndices spec = inr all ∧ indices ⊆ all
                         ∧ map_resolver resolver indices = inr l)
    as (indices & all & Hall & Hsub & Hmap).
  { destruct spec as [v|v|v|v|v]; try discriminate; simpl in H.
    - exists [v], [v]. split; [reflexivity|]. split; [done|].
      simpl. by destruct (resolver v).
    - exists v, (sort_numeric (set_spread v)). split; [reflexivity|]. split; [|done].
      intros x Hx. by apply elem_of_normalize.
    - simpl. destruct (parseRange v) as [e|indices]; [discriminate|].
      by exists indices, indices. }
  exists indices, all. split; [done|]. split; [done|]. by apply map_resolver_entries.
Qed.

(** X6.  When the indices that a specification stands for are safe
    integers, every entry that [resolveToAddresses] resolves through
    indices has for identifier the decimal text of a safe index;
    [parseInt] reads that index back from the identifier, and the address
    of the entry is the one the resolver gave for that index. *)
Theorem resolved_identifiers_parse_back wallets resolver spec l :
  by_index spec = true →
  (∀ indices, resolveToIndices spec = inr indices → Forall safe_integer indices) →
  resolveToAddresses wallets (Some resolver) spec = inr l →
  Forall (fun r => ∃ index, safe_integer index
                            ∧ parseInt (identifier r) = Some index
                            ∧ identifier r = string_of_number index
                            ∧ resolver index = inr (address r)) l.
Proof.
  intros Hspec Hsafe H.
  destruct (resolveToAddresses_among_indices _ _ _ _ Hspec H)
    as (indices & all & Hall & Hsub & Hmap).
  apply Forall_forall. intros r Hr.
  apply list_elem_of_lookup in Hr as [k Hk].
  destruct (Forall2_lookup_r _ _ _ _ _ Hmap Hk) as (i & Hi & Hid & Hres).
  exists i. split.
  { eapply Forall_forall; [exact (Hsafe all Hall)|].
    apply Hsub. by eapply list_elem_of_lookup_2. }
  split; [|done]. rewrite Hid. apply parseInt_string_of_number.
Qed.

(** X7.  The decimal text of a safe integer that is not negative,
    unless [isAddress] takes it for an address, is read by
    [parseAddressSpec] as the specification that the number itself is
    read as: the index of that number. *)
Theorem parseAddressSpec_decimal isAddress wallets n :
  0 ≤ n ≤ MAX_SAFE_INTEGER →
  isAddress (string_of_number n) = false →
  parseAddressSpec isAddress (RawString (string_of_number n)) wallets
  = parseAddressSpec isAddress (RawNumber n) wallets.
Proof.
  intros [Hn _] Haddr. destruct (string_of_number_digits n Hn) as (c & t & Heq & Hd).
  simpl. rewrite trim_digits by (by rewrite Heq). rewrite Haddr.
  assert (matches_plus is_digit (string_of_number n) = true) as -> by (by rewrite Heq).
  by rewrite parseInt_string_of_number.
Qed.

End ParserMore.

(** ** More on [transfer/strategy.ts] *)

Section KeyFacts.
Import Js Strategy.

Lemma includes_pretty_N_go c x s :
  is_digit c = false → includes c (pretty_N_go x s) = includes c s.
Proof.
  intros Hc. revert s. induction (N.lt_wf_0 x) as [x _ IH]; intros s.
  destruct (N.eq_0_gt_0_cases x) as [->|Hx]; [by rewrite pretty_N_go_0|].
  rewrite pretty_N_go_step by done. rewrite IH by (by apply N.div_lt). simpl.
  destruct (pretty_N_char_digit (x `mod` 10)%N) as [Hd _]; [by apply N.mod_lt|].
  destruct (Ascii.eqb_spec (pretty_N_char (x `mod` 10)) c) as [Heq|Hne]; [|done].
  congruence.
Qed.

Lemma includes_colon_string_of_number n : includes ":" (string_of_number n) = false.
Proof.
  unfold string_of_number, pretty, pretty_Z.
  destruct n as [|p|p]; [reflexivity| |];
    unfold pretty, pretty_positive, pretty, pretty_N; simpl.
  - by apply includes_pretty_N_go.
  - change ("" +:+ ?s) with s. by apply includes_pretty_N_go.
Qed.

Lemma append_colon_inj a a' b b' :
  includes ":" a = false → includes ":" a' = false →
  a +:+ String ":" b = a' +:+ String ":" b' → a = a' ∧ b = b'.
Proof.
  revert a'. induction a as [|c a IH]; intros [|c' a'] Ha Ha' Heq.
  - by injection Heq as ->.
  - injection Heq as <- _. simpl in Ha'. discriminate.
  - injection Heq as -> _. simpl in Ha. discriminate.
  - injection Heq as -> Heq. simpl in Ha, Ha'.
    apply orb_false_iff in Ha as [_ Ha]. apply orb_false_iff in Ha' as [_ Ha'].
    destruct (IH a' Ha Ha' Heq) as [-> ->]. done.
Qed.

(** X8.  Two keys of the strategy cache are equal exactly when the
    chain ids are equal and the token addresses are equal up to the case
    of their letters: the entries of different chains or of different
    tokens never collide. *)
Theorem getCacheKey_inj token1 chainId1 token2 chainId2 :
  getCacheKey token1 chainId1 = getCacheKey token2 chainId2
  ↔ chainId1 = chainId2 ∧ toLowerCase token1 = toLowerCase token2.
Proof.
  unfold getCacheKey. split; [|by intros [-> ->]].
  intros H. apply append_colon_inj in H as [Hc Ht]; try apply includes_colon_string_of_number.
  split; [|done]. unfold string_of_number in Hc. by apply (inj pretty) in Hc.
Qed.

End KeyFacts.

Section StrategyMore.
Context {W Client Account : Type} `{!Env W Client Account}.
Import Js Strategy.

(** X9.  When the chain id cannot be read, [detectStrategy] on a
    token that is not native and has no forced strategy throws the error
    of that read: the chain-id read is its only call, no probe is made and
    the cache is left as it is. *)
Theorem detectStrategy_chain_id_failure client token tokenConfig st message w1 :
  is_native token = false → unforced tokenConfig →
  rpc_getChainId client (world st) = (inl message, w1) →
  detectStrategy client token tokenConfig st
  = (inl (OtherError message),
     {| world := w1; strategyCache := strategyCache st;
        trace := trace st ++ [ {| call := GetChainId; reply := Threw message |} ] |}).
Proof.
  intros Hnat Hun Hid. unfold detectStrategy. rewrite Hnat.
  assert (∀ A (k : Z → M W A),
            bind (getChainId client) k st
            = (inl (OtherError message),
               {| world := w1; strategyCache := strategyCache st;
                  trace := trace st ++ [ {| call := GetChainId; reply := Threw message |} ] |}))
    as Hrun.
  { intros A k. apply bind_err. by apply perform_err. }
  destruct Hun as [-> | ->]; [apply Hrun|].
  rewrite bool_decide_eq_false_2 by (intros H; by apply H). apply Hrun.
Qed.

End StrategyMore.

(** ** More on [transfer/signatures.ts] *)

Section SignatureFacts.
Import Js Signatures.

Lemma substring_all s m : (String.length s ≤ m)%nat → substring 0 m s = s.
Proof.
  revert m. induction s as [|c s IH]; intros m Hm; [by destruct m|].
  destruct m as [|m]; simpl in *; [lia|]. f_equal. apply IH. lia.
Qed.

Lemma substring_app_take a b : substring 0 (String.length a) (a +:+ b) = a.
Proof.
  induction a as [|c a IH]; [by destruct b|]. rewrite append_cons. simpl. by f_equal.
Qed.

Lemma substring_app_skip a b k m :
  substring (String.length a + k) m (a +:+ b) = substring k m b.
Proof. induction a as [|c a IH]; [reflexivity|]. rewrite append_cons. simpl. exact IH. Qed.

Lemma length_append a b :
  String.length (a +:+ b) = (String.length a + String.length b)%nat.
Proof. induction a as [|c a IH]; [reflexivity|]. rewrite append_cons. simpl. by f_equal. Qed.

Lemma hex_val_plain c h :
  hex_val c = Some h →
  is_space c = false ∧ c ≠ "-"%char ∧ c ≠ "+"%char ∧ c ≠ "x"%char ∧ c ≠ "X"%char.
Proof.
  destruct c as [[] [] [] [] [] [] [] []]; vm_compute; intros H;
    try discriminate H; repeat split; discriminate.
Qed.

(** [parseInt(s, 16)] of two hexadecimal digits. *)
Lemma parseInt16_byte c1 c2 h1 h2 :
  hex_val c1 = Some h1 → hex_val c2 = Some h2 →
  parseInt16 (String c1 (String c2 "")) = Some (16 * h1 + h2).
Proof.
  intros H1 H2.
  destruct (hex_val_plain _ _ H1) as (Hs & Hm & Hp & _).
  destruct (hex_val_plain _ _ H2) as (_ & _ & _ & Hx & HX).
  unfold parseInt16. simpl drop_spaces. rewrite Hs.
  assert (strip_0x (String c1 (String c2 "")) = String c1 (String c2 "")) as Hstrip.
  { unfold strip_0x.
    destruct (Ascii.eqb_spec c2 "x") as [->|_]; [done|].
    destruct (Ascii.eqb_spec c2 "X") as [->|_]; [done|].
    destruct c1 as [[] [] [] [] [] [] [] []]; try reflexivity;
      destruct c2 as [[] [] [] [] [] [] [] []]; try reflexivity; congruence. }
  assert (read_hex 0 false (String c1 (String c2 "")) = Some (16 * h1 + h2)) as Hread.
  { simpl. rewrite H1, H2. f_equal; lia. }
  destruct (Ascii.eqb_spec c1 "-") as [->|_]; [done|].
  destruct (Ascii.eqb_spec c1 "+") as [->|_]; [done|].
  rewrite <- Hread, <- Hstrip at 1.
  destruct c1 as [[] [] [] [] [] [] [] []]; try reflexivity; congruence.
Qed.

(** X10.  [parseSignature] on a signature made of the prefix 0x,
    64 characters, 64 more characters and two hexadecimal digits returns
    the first 64 characters and the next 64, each under the prefix 0x, as
    [r] and [s], and the value of the two digits as [v]. *)
Theorem parseSignature_components r s c1 c2 h1 h2 :
  String.length r = 64%nat → String.length s = 64%nat →
  hex_val c1 = Some h1 → hex_val c2 = Some h2 →
  parseSignature ("0x" +:+ r +:+ s +:+ String c1 (String c2 ""))
  = ("0x" +:+ r, "0x" +:+ s, Some (16 * h1 + h2)).
Proof.
  intros Hr Hs H1 H2. unfold parseSignature, slice.
  set (v := String c1 (String c2 "")).
  assert (substring 2 (String.length ("0x" +:+ r +:+ s +:+ v)) ("0x" +:+ r +:+ s +:+ v)
          = r +:+ s +:+ v) as ->.
  { rewrite !append_cons. simpl substring.
    apply substring_all. change ("" +:+ ?x) with x. simpl. lia. }
  change (64 - 0)%nat with 64%nat. change (128 - 64)%nat with 64%nat.
  change (130 - 128)%nat with 2%nat.
  rewrite <- Hr at 1. rewrite substring_app_take.
  replace 64%nat with (String.length r + 0)%nat at 1 by lia.
  rewrite substring_app_skip. rewrite <- Hs at 1. rewrite substring_app_take.
  replace 128%nat with (String.length r + (String.length s + 0))%nat by lia.
  rewrite !substring_app_skip. subst v. simpl substring.
  by rewrite (parseInt16_byte _ _ _ _ H1 H2).
Qed.

End SignatureFacts.

Section SigningFacts.
Context {W Client Account : Type} `{!Env W Client Account}.
Import Js Signatures.

Lemma bind_inl {A B} (m : M W A) (k : A → M W B) st e st' :
  bind m k st = (inl e, st') →
  m st = (inl e, st') ∨ ∃ a st1, m st = (inr a, st1) ∧ k a st1 = (inl e, st').
Proof.
  unfold bind. destruct (m st) as [[e'|a] st1]; [intros [= <- <-]; by left|]. eauto.
Qed.

Lemma signPermit_inr account client tokenAddress tokenName tokenVersion spender value
    nonce deadline st data st' :
  signPermit account client tokenAddress tokenName tokenVersion spender value nonce
    deadline st = (inr data, st') →
  ∃ chainId signature,
    trace st' =
      (trace st ++
         [ {| call := GetChainId; reply := GaveNumber chainId |};
           {| call := SignTypedData (account_address account)
                        {| domain_name := tokenName;
                           domain_version := default "1" tokenVersion;
                           domain_chainId := chainId;
                           domain_verifyingContract := tokenAddress |}
                        (PermitMessage (account_address account) spender value nonce
                           (default maxUint256 deadline));
              reply := GaveText signature |} ])%list
    ∧ strategyCache st' = strategyCache st
    ∧ data = {| permit_owner := account_address account;
                permit_spender := spender;
                permit_value := value;
                permit_deadline := default maxUint256 deadline;
                permit_v := (parseSignature signature).2;
                permit_r := (parseSignature signature).1.1;
                permit_s := (parseSignature signature).1.2 |}.
Proof.
  intros H. unfold signPermit in H.
  apply bind_inr in H as (chainId & s1 & H1 & H).
  apply bind_inr in H as (signature & s2 & H2 & H).
  apply perform_inr in H1 as (w1 & _ & ->).
  apply perform_inr in H2 as (w2 & _ & ->).
  exists chainId, signature.
  destruct (parseSignature signature) as [[r s] v].
  apply ret_inr in H as [<- <-]. simpl. by rewrite <- app_assoc.
Qed.

Lemma signTransferWithAuthorization_inr account client tokenAddress tokenName tokenVersion
    to value validAfter validBefore nonce st data st' :
  signTransferWithAuthorization account client tokenAddress tokenName tokenVersion
    to value validAfter validBefore nonce st = (inr data, st') →
  ∃ chainId used signature,
    trace st' =
      (trace st ++
         {| call := GetChainId; reply := GaveNumber chainId |}
         :: match nonce with
            | Some _ => []
            | None => [ {| call := GetRandomValues; reply := GaveText used |} ]
            end ++
         [ {| call := SignTypedData (account_address account)
                        {| domain_name := tokenName;
                           domain_version := default "2" tokenVersion;
                           domain_chainId := chainId;
                           domain_verifyingContract := tokenAddress |}
                        (TransferWithAuthorizationMessage (account_address account) to value
                           (default 0 validAfter) (default maxUint256 validBefore) used);
              reply := GaveText signature |} ])%list
    ∧ (∀ given, nonce = Some given → used = given)
    ∧ strategyCache st' = strategyCache st
    ∧ data = {| auth_from := account_address account;
                auth_to := to;
                auth_value := value;
                auth_validAfter := default 0 validAfter;
                auth_validBefore := default maxUint256 validBefore;
                auth_nonce := used;
                auth_v := (parseSignature signature).2;
                auth_r := (parseSignature signature).1.1;
                auth_s := (parseSignature signature).1.2 |}.
Proof.
  intros H. unfold signTransferWithAuthorization in H.
  apply bind_inr in H as (chainId & s1 & H1 & H).
  apply bind_inr in H as (used & s2 & Hn & H).
  apply bind_inr in H as (signature & s3 & H3 & H).
  apply perform_inr in H1 as (w1 & _ & ->).
  apply perform_inr in H3 as (w3 & _ & ->).
  exists chainId, used, signature.
  destruct (parseSignature signature) as [[r s] v].
  apply ret_inr in H as [<- <-]. simpl.
  destruct nonce as [given|].
  - apply ret_inr in Hn as [-> <-]. simpl. rewrite <- app_assoc.
    split; [done|]. split; [by intros ? [= <-]|]. by split.
  - unfold generateAuthorizationNonce in Hn.
    apply perform_inr in Hn as (w2 & _ & ->). simpl. rewrite <- !app_assoc.
    split; [done|]. split; [intros ?; discriminate|]. by split.
Qed.

(** X11.  When [signPermit] returns, it has read the chain id and
    asked the account for one signature, in that order and nothing else;
    the message signed is the permit of the data returned: its owner (the
    address of the account), its spender, its value and its deadline (the
    largest 256-bit number when none is given), with the nonce given, in
    the domain of the token under the chain id just read and the version
    given ("1" by default); [r], [s] and [v] are read from the signature
    obtained. *)
Theorem signPermit_signs_what_it_returns account client tokenAddress tokenName
    tokenVersion spender value nonce deadline st data st' :
  signPermit account client tokenAddress tokenName tokenVersion spender value nonce
    deadline st = (inr data, st') →
  ∃ chainId signature,
    trace st' =
      (trace st ++
         [ {| call := GetChainId; reply := GaveNumber chainId |};
           {| call := SignTypedData (account_address account)
                        {| domain_name := tokenName;
                           domain_version := default "1" tokenVersion;
                           domain_chainId := chainId;
                           domain_verifyingContract := tokenAddress |}
                        (PermitMessage (permit_owner data) (permit_spender data)
                           (permit_value data) nonce (permit_deadline data));
              reply := GaveText signature |} ])%list
    ∧ permit_owner data = account_address account
    ∧ permit_spender data = spender
    ∧ permit_value data = value
    ∧ permit_deadline data = default maxUint256 deadline
    ∧ (permit_r data, permit_s data, permit_v data) = parseSignature signature.
Proof.
  intros H. apply signPermit_inr in H as (chainId & signature & Ht & _ & ->).
  exists chainId, signature. simpl. split; [exact Ht|]. repeat (split; [reflexivity|]).
  reflexivity.
Qed.

(** X12.  When [signTransferWithAuthorization] returns, it has
    read the chain id, drawn a random nonce unless one was given, and
    asked the account for one signature; the message signed is the
    authorization of the data returned: from the address of the account,
    to the recipient, the value, valid after 0 and before the largest
    256-bit number unless given, with the nonce given or the one drawn, in
    the domain of the token under the chain id just read and the version
    given ("2" by default). *)
Theorem signTransferWithAuthorization_signs_what_it_returns account client tokenAddress
    tokenName tokenVersion to value validAfter validBefore nonce st data st' :
  signTransferWithAuthorization account client tokenAddress tokenName tokenVersion
    to value validAfter validBefore nonce st = (inr data, st') →
  ∃ chainId signature drawn,
    trace st' =
      (trace st ++
         {| call := GetChainId; reply := GaveNumber chainId |}
         :: drawn ++
         [ {| call := SignTypedData (account_address account)
                        {| domain_name := tokenName;
                           domain_version := default "2" tokenVersion;
                           domain_chainId := chainId;
                           domain_verifyingContract := tokenAddress |}
                        (TransferWithAuthorizationMessage (auth_from data) (auth_to data)
                           (auth_value data) (auth_validAfter data) (auth_validBefore data)
                           (auth_nonce data));
              reply := GaveText signature |} ])%list
    ∧ drawn = match nonce with
              | Some _ => []
              | None => [ {| call := GetRandomValues; reply := GaveText (auth_nonce data) |} ]
              end
    ∧ (∀ given, nonce = Some given → auth_nonce data = given)
    ∧ auth_from data = account_address account
    ∧ auth_to data = to
    ∧ auth_value data = value
    ∧ auth_validAfter data = default 0 validAfter
    ∧ auth_validBefore data = default maxUint256 validBefore
    ∧ (auth_r data, auth_s data, auth_v data) = parseSignature signature.
Proof.
  intros H.
  apply signTransferWithAuthorization_inr in H
    as (chainId & used & signature & Ht & Hgiven & _ & ->).
  exists chainId, signature. eexists. simpl. split; [exact Ht|].
  split; [reflexivity|]. split; [exact Hgiven|]. repeat (split; [reflexivity|]).
  reflexivity.
Qed.

End SigningFacts.

(** ** More on [transfer/executor.ts] *)

Section UnitFacts.
Context {W Client Account : Type} `{!Env W Client Account}.
Import Js Executor.

Lemma amount_read_dry_run c : is_amount_read c = true → is_dry_run_call c = true.
Proof. by destruct c. Qed.

Lemma detection_dry_run c : is_detection c = true → is_dry_run_call c = true.
Proof. by destruct c. Qed.

(** The phases that a dry run and a real run share: either one of them
    throws, and then both runs throw that error in that state, or they
    give the amount and the strategy, and each run goes on from there. *)
Lemma executeSingleTransfer_phases context client chainId chainConfig fromAddress
    fromIdentifier toAddress toIdentifier tokenAddress symbol decimals amount
    strategyOption st :
  let unit dry :=
    executeSingleTransfer context client chainId chainConfig fromAddress fromIdentifier
      toAddress toIdentifier tokenAddress symbol decimals amount strategyOption dry st in
  (∃ e s, emits is_dry_run_call st s ∧ ∀ dry, unit dry = (inl e, s))
  ∨ (∃ balance transferAmount strategy s2 s3,
       emits is_dry_run_call st s3
       ∧ transferAmount ≠ 0 ∧ transferAmount ≤ balance
       ∧ determineStrategy context client chainId tokenAddress symbol strategyOption s2
         = (inr strategy, s3)
       ∧ unit true
         = (let* cc := chainConfig_read chainConfig in
            ret (successResult chainId cc fromAddress fromIdentifier toAddress
                   toIdentifier tokenAddress symbol decimals transferAmount strategy
                   "0x" None)) s3
       ∧ unit false
         = (let* account :=
              match getSignerAccount context fromIdentifier with
              | inl e => throw e
              | inr None =>
                  throw (HotSweepError WALLET_KEY_NOT_FOUND
                           ("No signer available for address: " +:+ fromAddress))
              | inr (Some account) => ret account
              end in
            let* cc := lift (buildChainDefinition chainConfig chainId) in
            let* txHash :=
              submitTransfer client account chainId fromAddress toAddress tokenAddress
                transferAmount strategy in
            let* receipt :=
              perform (WaitForTransactionReceipt txHash) GaveReceipt
                (rpc_waitForTransactionReceipt client txHash) in
            ret (successResult chainId cc fromAddress fromIdentifier toAddress
                   toIdentifier tokenAddress symbol decimals transferAmount strategy
                   txHash (Some receipt))) s3).
Proof.
  intros unit. subst unit. cbv beta. unfold executeSingleTransfer.
  destruct (checkBalance client tokenAddress fromAddress st) as [[e|B] s1] eqn:H1.
  { left. exists e, s1. split.
    - eapply stepwise_mono, H1; [apply amount_read_dry_run | apply checkBalance_emits].
    - intros dry. by rewrite (bind_err _ _ _ _ _ H1). }
  assert (emits is_dry_run_call st s1) as E1.
  { eapply stepwise_mono, H1; [apply amount_read_dry_run | apply checkBalance_emits]. }
  destruct (calculateTransferAmount client tokenAddress decimals amount B s1)
    as [[e|amt] s2] eqn:H2.
  { left. exists e, s2. split.
    - etransitivity; [exact E1|].
      eapply stepwise_mono, H2; [apply amount_read_dry_run | apply calculateTransferAmount_emits].
    - intros dry. by rewrite (bind_ok _ _ _ _ _ H1), (bind_err _ _ _ _ _ H2). }
  assert (emits is_dry_run_call st s2) as E2.
  { etransitivity; [exact E1|].
    eapply stepwise_mono, H2; [apply amount_read_dry_run | apply calculateTransferAmount_emits]. }
  destruct (guardTransferAmount decimals B amt s2) as [[e|u] s2'] eqn:Hg.
  { assert (s2' = s2) as ->.
    { unfold guardTransferAmount in Hg.
      destruct (amt =? 0); [by injection Hg as _ <-|].
      destruct (amt >? B); by injection Hg as _ <-. }
    left. exists e, s2. split; [exact E2|]. intros dry.
    rewrite (bind_ok _ _ _ _ _ H1), (bind_ok _ _ _ _ _ H2).
    by rewrite (bind_err _ _ _ _ _ Hg). }
  apply guardTransferAmount_inr in Hg as (-> & Hnz & Hle).
  pose proof (guardTransferAmount_ok decimals B amt s2 Hnz Hle) as Hg.
  destruct (determineStrategy context client chainId tokenAddress symbol strategyOption s2)
    as [[e|strategy] s3] eqn:H3.
  { left. exists e, s3. split.
    - etransitivity; [exact E2|].
      eapply stepwise_mono, H3; [apply detection_dry_run | apply determineStrategy_emits_detection].
    - intros dry.
      rewrite (bind_ok _ _ _ _ _ H1), (bind_ok _ _ _ _ _ H2), (bind_ok _ _ _ _ _ Hg).
      by rewrite (bind_err _ _ _ _ _ H3). }
  right. exists B, amt, strategy, s2, s3. split.
  { etransitivity; [exact E2|].
    eapply stepwise_mono, H3; [apply detection_dry_run | apply determineStrategy_emits_detection]. }
  split; [done|]. split; [done|]. split; [done|]. split.
  - rewrite (bind_ok _ _ _ _ _ H1), (bind_ok _ _ _ _ _ H2), (bind_ok _ _ _ _ _ Hg).
    by rewrite (bind_ok _ _ _ _ _ H3).
  - rewrite (bind_ok _ _ _ _ _ H1), (bind_ok _ _ _ _ _ H2), (bind_ok _ _ _ _ _ Hg).
    by rewrite (bind_ok _ _ _ _ _ H3).
Qed.

(** X13.  When no signer can be had for a source address, a real
    run of its unit throws, having made no call but those a dry run
    makes: nothing is signed and nothing submitted.  If the dry run from
    the same state returns, the real run throws [WALLET_KEY_NOT_FOUND]
    naming the source address, in the state the dry run ends in. *)
Theorem real_run_without_signer context client chainId chainConfig fromAddress
    fromIdentifier toAddress toIdentifier tokenAddress symbol decimals amount
    strategyOption st :
  getSignerAccount context fromIdentifier = inr None →
  let unit dry :=
    executeSingleTransfer context client chainId chainConfig fromAddress fromIdentifier
      toAddress toIdentifier tokenAddress symbol decimals amount strategyOption dry st in
  (∃ e, (unit false).1 = inl e)
  ∧ emits is_dry_run_call st (unit false).2
  ∧ (∀ res st', unit true = (inr res, st') →
       unit false
       = (inl (HotSweepError WALLET_KEY_NOT_FOUND
                 ("No signer available for address: " +:+ fromAddress)), st')).
Proof.
  intros Hsigner unit. subst unit. cbv beta.
  destruct (executeSingleTransfer_phases context client chainId chainConfig fromAddress
              fromIdentifier toAddress toIdentifier tokenAddress symbol decimals amount
              strategyOption st)
    as [(e & s & E & Hall)|(B & amt & strategy & s2 & s3 & E & _ & _ & _ & Hdry & Hreal)].
  - rewrite (Hall false). split; [by exists e|]. split; [exact E|].
    intros res st'. rewrite (Hall true). discriminate.
  - rewrite Hsigner in Hreal. rewrite Hreal. split; [by eexists|]. split; [exact E|].
    intros res st'. rewrite Hdry. destruct chainConfig as [cc|]; [|discriminate].
    by intros [= _ <-].
Qed.

(** X14.  A token transfer requested with the strategy [eip7702]
    is never carried out: the real run of its unit throws having made no
    call but those a dry run makes.  Yet the dry run, when it returns,
    reports a [Success] under [eip7702]; from the same state and with a
    signer at hand the real run throws, in the state the dry run ends
    in: the refusal of [buildChainDefinition] when the chain is one it
    refuses, and [STRATEGY_UNSUPPORTED] when it accepts the chain. *)
Theorem unsupported_strategy_is_refused context client chainId chainConfig fromAddress
    fromIdentifier toAddress toIdentifier tokenAddress symbol decimals amount st :
  is_native tokenAddress = false →
  let unit dry :=
    executeSingleTransfer context client chainId chainConfig fromAddress fromIdentifier
      toAddress toIdentifier tokenAddress symbol decimals amount (Some eip7702) dry st in
  (∃ e, (unit false).1 = inl e)
  ∧ emits is_dry_run_call st (unit false).2
  ∧ (∀ res st', unit true = (inr res, st') →
       (∃ r, res = Success r ∧ res_strategy r = eip7702)
       ∧ ∀ account, getSignerAccount context fromIdentifier = inr (Some account) →
           unit false
           = (inl match buildChainDefinition chainConfig chainId with
                  | inl refusal => refusal
                  | inr _ => HotSweepError STRATEGY_UNSUPPORTED
                               "Strategy not supported: eip7702"
                  end, st')).
Proof.
  intros Hn unit. subst unit. cbv beta.
  destruct (executeSingleTransfer_phases context client chainId chainConfig fromAddress
              fromIdentifier toAddress toIdentifier tokenAddress symbol decimals amount
              (Some eip7702) st)
    as [(e & s & E & Hall)|(B & amt & strategy & s2 & s3 & E & _ & _ & H3 & Hdry & Hreal)].
  - rewrite (Hall false). split; [by exists e|]. split; [exact E|].
    intros res st'. rewrite (Hall true). discriminate.
  - injection H3 as <- <-.
    assert (∃ e, executeSingleTransfer context client chainId chainConfig fromAddress
                   fromIdentifier toAddress toIdentifier tokenAddress symbol decimals
                   amount (Some eip7702) false st = (inl e, s2)
                 ∧ ∀ account,
                     getSignerAccount context fromIdentifier = inr (Some account) →
                     e = match buildChainDefinition chainConfig chainId with
                         | inl refusal => refusal
                         | inr _ => HotSweepError STRATEGY_UNSUPPORTED
                                      "Strategy not supported: eip7702"
                         end)
      as (e & Hrun & He).
    { rewrite Hreal. unfold submitTransfer. rewrite Hn.
      destruct (getSignerAccount context fromIdentifier) as [e|[account|]].
      - eexists. split; [reflexivity|]. discriminate.
      - destruct (buildChainDefinition chainConfig chainId) as [refusal|cc].
        + eexists. split; [reflexivity|]. reflexivity.
        + eexists. split; [reflexivity|]. reflexivity.
      - eexists. split; [reflexivity|]. discriminate. }
    rewrite Hrun. split; [by exists e|]. split; [exact E|].
    intros res st'. rewrite Hdry. destruct chainConfig as [cc|]; [|discriminate].
    intros [= <- <-]. split; [by eexists|].
    intros account Hacc. by rewrite (He account Hacc).
Qed.

(** X15.  A unit that transfers the native asset, dry or real,
    and whatever strategy is asked for, calls nothing but the balance
    read, the gas-price read, the sending of the transaction and the wait
    for its receipt: no token is read, no capability probed and nothing
    signed. *)
Theorem native_transfer_calls context client chainId chainConfig fromAddress
    fromIdentifier toAddress toIdentifier tokenAddress symbol decimals amount
    strategyOption dryRun :
  is_native tokenAddress = true →
  stepwise (emits is_native_call)
    (executeSingleTransfer context client chainId chainConfig fromAddress fromIdentifier
       toAddress toIdentifier tokenAddress symbol decimals amount strategyOption dryRun).
Proof.
  intros Hn.
  unfold executeSingleTransfer, checkBalance, calculateTransferAmount, guardTransferAmount,
    determineStrategy, Strategy.detectStrategy, chainConfig_read, submitTransfer.
  rewrite Hn. stepwise_split; apply emits_perform; reflexivity.
Qed.

Lemma prelude_emits context client chainId tokenAddress fromAddress symbol decimals amount
    strategyOption st balance s1 transferAmount s2 strategy s3 :
  checkBalance client tokenAddress fromAddress st = (inr balance, s1) →
  calculateTransferAmount client tokenAddress decimals amount balance s1
  = (inr transferAmount, s2) →
  determineStrategy context client chainId tokenAddress symbol strategyOption s2
  = (inr strategy, s3) →
  emits is_dry_run_call st s3.
Proof.
  intros H1 H2 H3.
  etransitivity; [eapply stepwise_mono, H1;
                  [apply amount_read_dry_run | apply checkBalance_emits]|].
  etransitivity; [eapply stepwise_mono, H2;
                  [apply amount_read_dry_run | apply calculateTransferAmount_emits]|].
  eapply stepwise_mono, H3; [apply detection_dry_run | apply determineStrategy_emits_detection].
Qed.

Lemma submitTransfer_plain client account chainId fromAddress toAddress tokenAddress
    transferAmount strategy st txHash st' :
  is_native tokenAddress = true ∨ strategy = legacy →
  submitTransfer client account chainId fromAddress toAddress tokenAddress
    transferAmount strategy st = (inr txHash, st') →
  trace st' =
    (trace st ++
       [ {| call := if is_native tokenAddress
                    then SendTransaction (account_address account) toAddress transferAmount
                    else WriteTransfer (account_address account) tokenAddress toAddress
                           transferAmount;
            reply := GaveText txHash |} ])%list.
Proof.
  intros Hplain H. unfold submitTransfer in H.
  destruct (is_native tokenAddress).
  - by apply perform_inr in H as (w & _ & ->).
  - destruct Hplain as [?| ->]; [discriminate|].
    by apply perform_inr in H as (w & _ & ->).
Qed.

Lemma submitTransfer_authorization client account chainId fromAddress toAddress
    tokenAddress transferAmount st txHash st' :
  is_native tokenAddress = false →
  submitTransfer client account chainId fromAddress toAddress tokenAddress
    transferAmount eip3009 st = (inr txHash, st') →
  ∃ tokenName chainNumber nonce signature,
    trace st' =
      (trace st ++
         [ {| call := ReadName tokenAddress; reply := GaveText tokenName |};
           {| call := GetChainId; reply := GaveNumber chainNumber |};
           {| call := GetRandomValues; reply := GaveText nonce |};
           {| call := SignTypedData (account_address account)
                        {| domain_name := tokenName; domain_version := "2";
                           domain_chainId := chainNumber;
                           domain_verifyingContract := tokenAddress |}
                        (TransferWithAuthorizationMessage (account_address account)
                           toAddress transferAmount 0 Signatures.maxUint256 nonce);
              reply := GaveText signature |};
           {| call := WriteTransferWithAuthorization (account_address account) tokenAddress
                        {| auth_from := account_address account;
                           auth_to := toAddress;
                           auth_value := transferAmount;
                           auth_validAfter := 0;
                           auth_validBefore := Signatures.maxUint256;
                           auth_nonce := nonce;
                           auth_v := (Signatures.parseSignature signature).2;
                           auth_r := (Signatures.parseSignature signature).1.1;
                           auth_s := (Signatures.parseSignature signature).1.2 |};
              reply := GaveText txHash |} ])%list.
Proof.
  intros Hn H. unfold submitTransfer in H. rewrite Hn in H.
  apply bind_inr in H as (name & s1 & H1 & H).
  apply bind_inr in H as (data & s2 & H2 & H).
  apply perform_inr in H1 as (w1 & _ & ->).
  apply signTransferWithAuthorization_inr in H2
    as (chainNumber & nonce & signature & Ht & _ & _ & ->).
  apply perform_inr in H as (w & _ & ->).
  exists name, chainNumber, nonce, signature. simpl. rewrite Ht. simpl.
  by rewrite <- !app_assoc.
Qed.

Lemma submitTransfer_permit_calls client account chainId fromAddress toAddress
    tokenAddress transferAmount st txHash st' :
  is_native tokenAddress = false →
  submitTransfer client account chainId fromAddress toAddress tokenAddress
    transferAmount eip2612 st = (inr txHash, st') →
  ∃ tokenName nonce chainNumber signature transferHash,
    trace st' =
      (trace st ++
         [ {| call := ReadName tokenAddress; reply := GaveText tokenName |};
           {| call := ReadNonces tokenAddress fromAddress; reply := GaveNumber nonce |};
           {| call := GetChainId; reply := GaveNumber chainNumber |};
           {| call := SignTypedData (account_address account)
                        {| domain_name := tokenName; domain_version := "1";
                           domain_chainId := chainNumber;
                           domain_verifyingContract := tokenAddress |}
                        (PermitMessage (account_address account) toAddress transferAmount
                           nonce Signatures.maxUint256);
              reply := GaveText signature |};
           {| call := WritePermit (account_address account) tokenAddress
                        {| permit_owner := account_address account;
                           permit_spender := toAddress;
                           permit_value := transferAmount;
                           permit_deadline := Signatures.maxUint256;
                           permit_v := (Signatures.parseSignature signature).2;
                           permit_r := (Signatures.parseSignature signature).1.1;
                           permit_s := (Signatures.parseSignature signature).1.2 |};
              reply := GaveText txHash |};
           {| call := WriteTransfer (account_address account) tokenAddress toAddress
                        transferAmount;
              reply := GaveText transferHash |} ])%list.
Proof.
  intros Hn H. unfold submitTransfer in H. rewrite Hn in H.
  apply bind_inr in H as (name & s1 & H1 & H).
  apply bind_inr in H as (nonce & s2 & H2 & H).
  apply bind_inr in H as (data & s3 & H3 & H).
  apply bind_inr in H as (h1 & s4 & H4 & H).
  apply bind_inr in H as (h2 & s5 & H5 & H).
  apply ret_inr in H as [-> ->].
  apply perform_inr in H1 as (w1 & _ & ->).
  apply perform_inr in H2 as (w2 & _ & ->).
  apply signPermit_inr in H3 as (chainNumber & signature & Ht & _ & ->).
  apply perform_inr in H4 as (w4 & _ & ->).
  apply perform_inr in H5 as (w5 & _ & ->).
  exists name, nonce, chainNumber, signature, h2. simpl. rewrite Ht. simpl.
  by rewrite <- !app_assoc.
Qed.

(** X16.  When a real run returns a [Success] for the native
    asset or under the strategy [legacy], its calls end with one
    submission and the wait for its receipt, and all the calls before are
    those of a dry run: the submission sends the amount reported to the
    destination from the account of the signer (a transaction for the
    native asset, a [transfer] of the token otherwise), the hash reported
    is the reply to it, and the receipt reported is the one waited
    for. *)
Theorem plain_transfer_calls context client chainId chainConfig fromAddress
    fromIdentifier toAddress toIdentifier tokenAddress symbol decimals amount
    strategyOption st r st' :
  executeSingleTransfer context client chainId chainConfig fromAddress fromIdentifier
    toAddress toIdentifier tokenAddress symbol decimals amount strategyOption false st
  = (inr (Success r), st') →
  is_native tokenAddress = true ∨ res_strategy r = legacy →
  ∃ evs account transferAmount receipt,
    getSignerAccount context fromIdentifier = inr (Some account)
    ∧ trace st' =
      (trace st ++ evs ++
         [ {| call := if is_native tokenAddress
                      then SendTransaction (account_address account) toAddress
                             transferAmount
                      else WriteTransfer (account_address account) tokenAddress toAddress
                             transferAmount;
              reply := GaveText (res_tx_hash r) |};
           {| call := WaitForTransactionReceipt (res_tx_hash r);
              reply := GaveReceipt receipt |} ])%list
    ∧ Forall (fun e => is_dry_run_call (call e) = true) evs
    ∧ res_amount_raw r = string_of_number transferAmount
    ∧ res_tx_receipt r = Some receipt.
Proof.
  intros Hrun Hplain.
  apply executeSingleTransfer_inr in Hrun
    as (B & s1 & amt & s2 & strat & s3 & cc & H1 & H2 & _ & _ & H3 & _
        & account & h & s4 & rc & Hacc & Hsub & Hwait & Hres).
  injection Hres as ->. simpl in Hplain.
  apply (submitTransfer_plain _ _ _ _ _ _ _ _ _ _ _ Hplain) in Hsub.
  apply perform_inr in Hwait as (w & _ & ->).
  destruct (prelude_emits _ _ _ _ _ _ _ _ _ _ _ _ _ _ _ _ H1 H2 H3) as (evs & Ht & HF).
  exists evs, account, amt, rc. simpl. split; [done|].
  split; [by rewrite Hsub, Ht, <- !app_assoc|]. by split.
Qed.

(** X17.  When a real run returns a [Success] under [eip3009],
    its calls end with: the read of the token name, the read of the chain
    id, the draw of a nonce, the signature of the authorization (from the
    signer to the destination, of the amount reported, valid after 0 and
    before the largest 256-bit number, under the nonce drawn, in the
    domain of the token with version "2"), the submission of that same
    authorization with the signature obtained, and the wait for the
    receipt of that submission, whose hash is the one reported. *)
Theorem authorization_transfer_calls context client chainId chainConfig fromAddress
    fromIdentifier toAddress toIdentifier tokenAddress symbol decimals amount
    strategyOption st r st' :
  is_native tokenAddress = false →
  executeSingleTransfer context client chainId chainConfig fromAddress fromIdentifier
    toAddress toIdentifier tokenAddress symbol decimals amount strategyOption false st
  = (inr (Success r), st') →
  res_strategy r = eip3009 →
  ∃ evs account transferAmount tokenName chainNumber nonce signature receipt,
    getSignerAccount context fromIdentifier = inr (Some account)
    ∧ trace st' =
      (trace st ++ evs ++
         [ {| call := ReadName tokenAddress; reply := GaveText tokenName |};
           {| call := GetChainId; reply := GaveNumber chainNumber |};
           {| call := GetRandomValues; reply := GaveText nonce |};
           {| call := SignTypedData (account_address account)
                        {| domain_name := tokenName; domain_version := "2";
                           domain_chainId := chainNumber;
                           domain_verifyingContract := tokenAddress |}
                        (TransferWithAuthorizationMessage (account_address account)
                           toAddress transferAmount 0 Signatures.maxUint256 nonce);
              reply := GaveText signature |};
           {| call := WriteTransferWithAuthorization (account_address account) tokenAddress
                        {| auth_from := account_address account;
                           auth_to := toAddress;
                           auth_value := transferAmount;
                           auth_validAfter := 0;
                           auth_validBefore := Signatures.maxUint256;
                           auth_nonce := nonce;
                           auth_v := (Signatures.parseSignature signature).2;
                           auth_r := (Signatures.parseSignature signature).1.1;
                           auth_s := (Signatures.parseSignature signature).1.2 |};
              reply := GaveText (res_tx_hash r) |};
           {| call := WaitForTransactionReceipt (res_tx_hash r);
              reply := GaveReceipt receipt |} ])%list
    ∧ Forall (fun e => is_dry_run_call (call e) = true) evs
    ∧ res_amount_raw r = string_of_number transferAmount
    ∧ res_tx_receipt r = Some receipt.
Proof.
  intros Hn Hrun Hstrat.
  apply executeSingleTransfer_inr in Hrun
    as (B & s1 & amt & s2 & strat & s3 & cc & H1 & H2 & _ & _ & H3 & _
        & account & h & s4 & rc & Hacc & Hsub & Hwait & Hres).
  injection Hres as ->. simpl in Hstrat. subst strat.
  apply (submitTransfer_authorization _ _ _ _ _ _ _ _ _ _ Hn) in Hsub
    as (name & chainNumber & nonce & signature & Hsub).
  apply perform_inr in Hwait as (w & _ & ->).
  destruct (prelude_emits _ _ _ _ _ _ _ _ _ _ _ _ _ _ _ _ H1 H2 H3) as (evs & Ht & HF).
  exists evs, account, amt, name, chainNumber, nonce, signature, rc. simpl.
  split; [done|]. split; [by rewrite Hsub, Ht, <- !app_assoc|]. by split.
Qed.

(** X18.  When a real run returns a [Success] under [eip2612],
    the permit it submits is the one it had signed: after the calls of a
    dry run it reads the token name, reads the permit nonce of the source
    address, reads the chain id, has the signer sign the permit (owner the
    signer, spender the destination, value the amount reported, the nonce
    read, deadline the largest 256-bit number, in the domain of the token
    with version "1"), and submits the permit with exactly those fields
    and that signature; the hash reported is the reply to the permit. *)
Theorem permit_transfer_calls context client chainId chainConfig fromAddress
    fromIdentifier toAddress toIdentifier tokenAddress symbol decimals amount
    strategyOption st r st' :
  is_native tokenAddress = false →
  executeSingleTransfer context client chainId chainConfig fromAddress fromIdentifier
    toAddress toIdentifier tokenAddress symbol decimals amount strategyOption false st
  = (inr (Success r), st') →
  res_strategy r = eip2612 →
  ∃ evs account transferAmount tokenName nonce chainNumber signature data,
    getSignerAccount context fromIdentifier = inr (Some account)
    ∧ (∃ rest, trace st' =
      (trace st ++ evs ++
         [ {| call := ReadName tokenAddress; reply := GaveText tokenName |};
           {| call := ReadNonces tokenAddress fromAddress; reply := GaveNumber nonce |};
           {| call := GetChainId; reply := GaveNumber chainNumber |};
           {| call := SignTypedData (account_address account)
                        {| domain_name := tokenName; domain_version := "1";
                           domain_chainId := chainNumber;
                           domain_verifyingContract := tokenAddress |}
                        (PermitMessage (account_address account) toAddress transferAmount
                           nonce Signatures.maxUint256);
              reply := GaveText signature |};
           {| call := WritePermit (account_address account) tokenAddress data;
              reply := GaveText (res_tx_hash r) |} ] ++ rest)%list)
    ∧ Forall (fun e => is_dry_run_call (call e) = true) evs
    ∧ data = {| permit_owner := account_address account;
                permit_spender := toAddress;
                permit_value := transferAmount;
                permit_deadline := Signatures.maxUint256;
                permit_v := (Signatures.parseSignature signature).2;
                permit_r := (Signatures.parseSignature signature).1.1;
                permit_s := (Signatures.parseSignature signature).1.2 |}
    ∧ res_amount_raw r = string_of_number transferAmount.
Proof.
  intros Hn Hrun Hstrat.
  apply executeSingleTransfer_inr in Hrun
    as (B & s1 & amt & s2 & strat & s3 & cc & H1 & H2 & _ & _ & H3 & _
        & account & h & s4 & rc & Hacc & Hsub & Hwait & Hres).
  injection Hres as ->. simpl in Hstrat. subst strat.
  apply (submitTransfer_permit_calls _ _ _ _ _ _ _ _ _ _ Hn) in Hsub
    as (name & nonce & chainNumber & signature & h2 & Hsub).
  apply perform_inr in Hwait as (w & _ & ->).
  destruct (prelude_emits _ _ _ _ _ _ _ _ _ _ _ _ _ _ _ _ H1 H2 H3) as (evs & Ht & HF).
  exists evs, account, amt, name, nonce, chainNumber, signature. eexists. simpl.
  split; [done|]. split; [|by split].
  eexists. rewrite Hsub, Ht, <- !app_assoc. simpl. reflexivity.
Qed.

End UnitFacts.

Section RequestFacts.
Context {W Client Account : Type} `{!Env W Client Account}.
Import Js Executor.

(** The account [getSignerAccount] derives at an index. *)
Lemma getSignerAccount_index context actx identifier index :
  signerAccount context = None →
  addressContext context = Some actx →
  parseInt identifier = Some index →
  getSignerAccount context identifier
  = match truthy (ctx_mnemonic actx) with
    | Some mnemonic =>
        res_map Some (accountFromMnemonic mnemonic (ctx_passphrase actx) index)
    | None =>
        match truthy (ctx_xpriv actx) with
        | Some xpriv => res_map Some (accountFromExtendedKey xpriv index)
        | None => inr None
        end
    end.
Proof. intros Hs Ha Hi. unfold getSignerAccount. by rewrite Hs, Ha, Hi. Qed.

(** X19.  With no signer set and an address generator at hand,
    the account that signs for a source resolved through indices is
    derived at the very index at which the address of that source was
    generated: from the mnemonic when there is one, else from the extended
    private key, else there is no signer. *)
Theorem signer_of_resolved_source context actx spec sources :
  signerAccount context = None →
  addressContext context = Some actx →
  by_index spec = true →
  Parser.resolveToAddresses (Some (wallets (config context)))
    (Some (generateAddress actx)) spec = inr sources →
  Forall (fun source =>
            ∃ index,
              generateAddress actx index = inr (address source)
              ∧ identifier source = string_of_number index
              ∧ getSignerAccount context (identifier source)
                = match truthy (ctx_mnemonic actx) with
                  | Some mnemonic =>
                      res_map Some
                        (accountFromMnemonic mnemonic (ctx_passphrase actx) index)
                  | None =>
                      match truthy (ctx_xpriv actx) with
                      | Some xpriv => res_map Some (accountFromExtendedKey xpriv index)
                      | None => inr None
                      end
                  end) sources.
Proof.
  intros Hs Ha Hspec Hres.
  destruct (resolveToAddresses_by_index _ _ _ _ Hspec Hres) as [indices Hmap].
  apply Forall_forall. intros source Hsource.
  apply list_elem_of_lookup in Hsource as [k Hk].
  destruct (Forall2_lookup_r _ _ _ _ _ Hmap Hk) as (index & _ & Hid & Haddr).
  exists index. split; [done|]. split; [done|].
  apply getSignerAccount_index; [done | done |].
  rewrite Hid. apply parseInt_string_of_number.
Qed.

(** X20.  For a source given as an address, whose identifier is
    the address itself, [getSignerAccount] reads the index 0 from the
    leading 0 of the prefix 0x: with no signer set, the account that signs
    is the one derived at index 0, whatever the address. *)
Theorem signer_of_address_literal context actx rest :
  signerAccount context = None →
  addressContext context = Some actx →
  getSignerAccount context ("0x" +:+ rest)
  = match truthy (ctx_mnemonic actx) with
    | Some mnemonic => res_map Some (accountFromMnemonic mnemonic (ctx_passphrase actx) 0)
    | None =>
        match truthy (ctx_xpriv actx) with
        | Some xpriv => res_map Some (accountFromExtendedKey xpriv 0)
        | None => inr None
        end
    end.
Proof. intros Hs Ha. by apply getSignerAccount_index. Qed.

Lemma parseAddressSpec_literal text wallets :
  match Parser.parseAddressSpec isAddress (Parser.RawString text) wallets with
  | SpecAddress value => value
  | _ => "0x0"
  end
  = if isAddress (trim text) then trim text else "0x0".
Proof.
  unfold Parser.parseAddressSpec. destruct (isAddress (trim text)); [done|].
  repeat case_match; done.
Qed.

(** A request that does not resolve has made no call. *)
Lemma resolveRequest_inl context options st e st1 :
  resolveRequest context options st = (inl e, st1) → st1 = st.
Proof.
  unfold resolveRequest. intros H.
  apply bind_inl in H as [H|(chainId & s1 & Hc & H)].
  { destruct (truthy _); [discriminate|]. by injection H as _ <-. }
  assert (s1 = st) as ->.
  { destruct (truthy _); [|discriminate]. by injection Hc as _ <-. }
  apply bind_inl in H as [H|(client & s1 & [= _ <-] & H)]; [by injection H as _ <-|].
  apply bind_inl in H as [H|(sources & s1 & [= _ <-] & H)]; [by injection H as _ <-|].
  apply bind_inl in H as [H|(toAddress & s1 & [= _ <-] & H)]; [by injection H as _ <-|].
  apply bind_inl in H as [H|(tokenAddress & s1 & [= _ <-] & H)]; [by injection H as _ <-|].
  apply bind_inl in H as [H|(symbol & s1 & _ & H)]; [|discriminate].
  destruct (negb _ && negb _); [|discriminate].
  unfold try_catch in H. rewrite perform_run in H.
  by destruct (rpc_symbol _ _ _).1.
Qed.

(** X21.  A request that cannot be resolved (unknown chain, label
    or token, no resolver, a range that is refused) makes no call at all,
    and [executeTransfer] returns one [Failure] for it, in the state it
    started from: the failure carries the code and message of the error
    ([TRANSFER_FAILED] for an error that is not a [HotSweepError]), the
    texts of [from] and [to] as identifiers, and as addresses those texts
    trimmed when [isAddress] accepts them, "0x0" otherwise. *)
Theorem executeTransfer_unresolved context options st e st1 :
  resolveRequest context options st = (inl e, st1) →
  let literal text := if isAddress (trim text) then trim text else "0x0" in
  st1 = st
  ∧ executeTransfer context options st
    = (inr (Some (failure_of
                    {| identifier := spec_string (opt_from options);
                       address := literal (spec_string (opt_from options)) |}
                    {| identifier := spec_string (opt_to options);
                       address := literal (spec_string (opt_to options)) |}
                    e)), st).
Proof.
  intros Hres literal. pose proof (resolveRequest_inl _ _ _ _ _ Hres) as ->.
  split; [done|]. unfold executeTransfer, try_catch.
  rewrite (bind_err _ _ _ _ _ Hres). unfold ret. subst literal. cbv beta.
  by rewrite !parseAddressSpec_literal.
Qed.

End RequestFacts.

Section SweepFacts.
Context {W Client Account : Type} `{!Env W Client Account}.
Import Js Executor.

Lemma submitTransfer_extends client account chainId fromAddress toAddress tokenAddress
    transferAmount strategy st r st' :
  submitTransfer client account chainId fromAddress toAddress tokenAddress
    transferAmount strategy st = (r, st') →
  ∃ evs, trace st' = (trace st ++ evs)%list.
Proof.
  intros H.
  assert (stepwise (emits (fun _ => true))
            (submitTransfer client account chainId fromAddress toAddress tokenAddress
               transferAmount strategy)) as Hs.
  { unfold submitTransfer, Signatures.signPermit, Signatures.signTransferWithAuthorization,
      Signatures.generateAuthorizationNonce, Strategy.getChainId.
    stepwise_split; apply emits_perform; reflexivity. }
  destruct (Hs _ _ _ H) as (evs & Ht & _). eauto.
Qed.

(** X29.  A sweep of a token takes the whole balance: when a unit that
    transfers a token with the amount "all" returns a [Success], dry or
    real, its first call was the read of the balance of the source
    address, that balance is not zero, and the amount reported is exactly
    that balance: no gas reserve is taken from a token. *)
Theorem token_sweep_takes_whole_balance context client chainId chainConfig fromAddress
    fromIdentifier toAddress toIdentifier tokenAddress symbol decimals strategyOption
    dryRun st r st' :
  is_native tokenAddress = false →
  executeSingleTransfer context client chainId chainConfig fromAddress fromIdentifier
    toAddress toIdentifier tokenAddress symbol decimals "all" strategyOption dryRun st
  = (inr (Success r), st') →
  ∃ balance rest,
    trace st' =
      (trace st ++
         {| call := ReadBalanceOf tokenAddress fromAddress; reply := GaveNumber balance |}
         :: rest)%list
    ∧ balance ≠ 0
    ∧ res_amount_raw r = string_of_number balance
    ∧ res_amount_value r = formatUnits balance decimals.
Proof.
  intros Hn Hrun.
  apply executeSingleTransfer_inr in Hrun
    as (B & s1 & amt & s2 & strat & s3 & cc & H1 & H2 & Hnz & _ & H3 & _ & Htail).
  unfold checkBalance in H1. rewrite Hn in H1. apply perform_inr in H1 as (w1 & _ & ->).
  unfold calculateTransferAmount in H2. rewrite Hn in H2. simpl in H2.
  apply ret_inr in H2 as [<- <-].
  destruct (determineStrategy_emits _ _ _ _ _ _ _ _ _ H3) as (evs3 & Ht3 & _).
  simpl in Ht3.
  destruct dryRun.
  - destruct Htail as [-> Hres]. injection Hres as ->.
    exists B, evs3. rewrite Ht3, <- app_assoc. by repeat split.
  - destruct Htail as (account & h & s4 & rc & _ & Hsub & Hwait & Hres).
    injection Hres as ->.
    apply submitTransfer_extends in Hsub as [evs4 Ht4].
    apply perform_inr in Hwait as (w & _ & ->). simpl.
    exists B, (evs3 ++ evs4 ++ [ {| call := WaitForTransactionReceipt h;
                                    reply := GaveReceipt rc |} ])%list.
    rewrite Ht4, Ht3, <- !app_assoc. by repeat split.
Qed.

End SweepFacts.

(** ** The strategy cache across a transfer *)

Section CacheFacts.
Context {W Client Account : Type} `{!Env W Client Account}.
Import Js Strategy Executor.

Global Instance cache_grows_preorder : PreOrder (cache_grows (W := W)).
Proof.
  split.
  - intros st. unfold cache_grows. reflexivity.
  - intros st1 st2 st3 H1 H2. unfold cache_grows in *. by etransitivity.
Qed.

Lemma grows_perform {A} c (give : A → Reply) (op : W → (string + A) * W) :
  stepwise cache_grows (perform c give op).
Proof. intros st r st'. rewrite perform_run. intros [= _ <-]. by unfold cache_grows. Qed.

Lemma detectStrategy_grows client token tokenConfig :
  stepwise cache_grows (detectStrategy client token tokenConfig).
Proof.
  intros st r st' Hrun.
  destruct (is_native token) eqn:Hnat.
  { unfold detectStrategy in Hrun. rewrite Hnat in Hrun. injection Hrun as _ <-.
    reflexivity. }
  assert (unforced tokenConfig ∨ ∃ forced, tokenConfig ≫= token_strategy = Some forced
                                           ∧ forced ≠ auto) as [Hun|(forced & Hf & Hne)].
  { unfold unforced. destruct (tokenConfig ≫= token_strategy) as [[]|]; eauto;
      right; eexists; split; try reflexivity; discriminate. }
  - destruct (rpc_getChainId client (world st)) as [[msg|chainId] w1] eqn:Hid.
    + assert (∀ A (k : Z → M W A),
                bind (getChainId client) k st
                = (inl (OtherError msg),
                   {| world := w1; strategyCache := strategyCache st;
                      trace := trace st
                               ++ [ {| call := GetChainId; reply := Threw msg |} ] |}))
        as Hfail by (intros A k; apply bind_err; by apply perform_err).
      unfold detectStrategy in Hrun. rewrite Hnat in Hrun.
      destruct Hun as [Hu|Hu]; rewrite Hu in Hrun;
        [|rewrite bool_decide_eq_false_2 in Hrun by (intros H; by apply H)];
        rewrite Hfail in Hrun; injection Hrun as _ <-; by unfold cache_grows.
    + rewrite (detectStrategy_unforced _ _ _ _ _ _ Hnat Hun Hid) in Hrun.
      destruct (strategyCache st !! getCacheKey token chainId) eqn:Hc.
      * injection Hrun as _ <-. by unfold cache_grows.
      * cbv zeta in Hrun. injection Hrun as _ <-. unfold cache_grows. simpl.
        by apply insert_subseteq.
  - unfold detectStrategy in Hrun. rewrite Hnat, Hf in Hrun.
    rewrite bool_decide_eq_true_2 in Hrun by done. injection Hrun as _ <-. reflexivity.
Qed.

Lemma executeSingleTransfer_grows context client chainId chainConfig fromAddress
    fromIdentifier toAddress toIdentifier tokenAddress symbol decimals amount
    strategyOption dryRun :
  stepwise cache_grows
    (executeSingleTransfer context client chainId chainConfig fromAddress fromIdentifier
       toAddress toIdentifier tokenAddress symbol decimals amount strategyOption dryRun).
Proof.
  unfold executeSingleTransfer, checkBalance, calculateTransferAmount, guardTransferAmount,
    determineStrategy, chainConfig_read, submitTransfer, Signatures.signPermit,
    Signatures.signTransferWithAuthorization, Signatures.generateAuthorizationNonce,
    Strategy.getChainId.
  stepwise_split; try apply grows_perform; apply detectStrategy_grows.
Qed.

Lemma transferEach_grows context client chainId chainConfig toAddress options
    tokenAddress symbol decimals fromAddresses :
  ∀ results,
    stepwise cache_grows
      (transferEach context client chainId chainConfig toAddress options tokenAddress
         symbol decimals results fromAddresses).
Proof.
  induction fromAddresses as [|[ident addr] rest IH]; intros results; simpl.
  - apply stepwise_ret; apply _.
  - apply stepwise_bind; [apply _ | | intros ?; apply IH].
    apply stepwise_try_catch; [apply _ | | intros ?; apply stepwise_ret; apply _].
    apply executeSingleTransfer_grows.
Qed.

(** X22.  [executeTransfer] never changes and never removes a
    cached strategy: the strategy cache it leaves extends the one it
    found; and it never caches [auto]. *)
Theorem executeTransfer_keeps_cached_strategies context options st :
  strategyCache st ⊆ strategyCache (executeTransfer context options st).2
  ∧ (no_auto st → no_auto (executeTransfer context options st).2).
Proof.
  destruct (executeTransfer context options st) as [out st'] eqn:Hrun. simpl. split.
  - revert Hrun. generalize st out st'.
    change (stepwise cache_grows (executeTransfer context options)).
    unfold executeTransfer, resolveRequest.
    stepwise_split; try apply grows_perform; apply transferEach_grows.
  - by eapply executeTransfer_keeps_no_auto.
Qed.

End CacheFacts.

(** ** [config/loader.ts]: chains by identifier *)

Section ConfigFacts.
Import Js Config.

Lemma record_get_is_Some {V} (r : list (string * V)) k :
  is_Some (record_get r k) ↔ k ∈ r.*1.
Proof.
  induction r as [|[k' v] r IH]; simpl.
  - split; [by intros [? ?] | intros H; inversion H].
  - destruct (String.eqb_spec k' k) as [->|Hne].
    + split; [intros _; by left | by eexists].
    + rewrite IH, elem_of_cons. split; [tauto | intros [?|?]; [congruence|done]].
Qed.

Lemma find_chain_key normalized entries caip2Id :
  find_chain normalized entries = Some caip2Id → caip2Id ∈ entries.*1.
Proof.
  induction entries as [|[k c] entries IH]; simpl; [discriminate|].
  destruct (String.eqb _ normalized); [intros [= <-]; by left|].
  destruct (existsb _ _); [intros [= <-]; by left|].
  intros H. right. by apply IH.
Qed.

Lemma find_chain_config_lookup normalized entries :
  NoDup entries.*1 →
  find_chain_config normalized (snd <$> entries)
  = find_chain normalized entries ≫= record_get entries.
Proof.
  induction entries as [|[k c] entries IH]; intros Hnd; [reflexivity|].
  rewrite fmap_cons in Hnd. apply NoDup_cons in Hnd as [Hk Hnd].
  rewrite fmap_cons. cbn [find_chain find_chain_config snd].
  destruct (String.eqb _ normalized); [simpl; by rewrite String.eqb_refl|].
  destruct (existsb _ _); [simpl; by rewrite String.eqb_refl|].
  rewrite IH by done.
  destruct (find_chain normalized entries) as [k'|] eqn:Hf; [|reflexivity]. simpl.
  destruct (String.eqb_spec k k') as [->|_]; [|reflexivity].
  apply find_chain_key in Hf. contradiction.
Qed.

(** X23.  [getChainConfig] and [toCaip2ChainId] agree: in a
    configuration whose chains have distinct keys, the chain that
    [getChainConfig] finds for an identifier is the one configured under
    the id that [toCaip2ChainId] gives for it, and it finds none exactly
    when there is no such id or nothing is configured under it. *)
Theorem getChainConfig_toCaip2ChainId config identifier :
  NoDup (chains config).*1 →
  getChainConfig config identifier
  = toCaip2ChainId config identifier ≫= record_get (chains config).
Proof.
  intros Hnd. unfold getChainConfig, toCaip2ChainId.
  destruct identifier as [s|n]; simpl.
  - destruct (includes ":" s); [reflexivity|].
    destruct (matches_plus is_digit s).
    + case_bool_decide as Hc; [reflexivity|].
      destruct (record_get (chains config) ("eip155:" +:+ s)) eqn:Hr; [|reflexivity].
      exfalso. apply Hc. by eexists.
    + by apply find_chain_config_lookup.
  - case_bool_decide as Hc; [reflexivity|].
    destruct (record_get (chains config) ("eip155:" +:+ string_of_number n)) eqn:Hr;
      [|reflexivity].
    exfalso. apply Hc. by eexists.
Qed.

(** X24.  The id that [toCaip2ChainId] returns is the key of a
    configured chain, except when the identifier is itself a text with a
    colon, which is returned as it is whether configured or not. *)
Theorem toCaip2ChainId_configured config identifier caip2Id :
  toCaip2ChainId config identifier = Some caip2Id →
  (∃ text, identifier = ChainString text ∧ includes ":" text = true ∧ caip2Id = text)
  ∨ is_Some (record_get (chains config) caip2Id).
Proof.
  unfold toCaip2ChainId. destruct identifier as [s|n]; simpl.
  - destruct (includes ":" s) eqn:Hc; [intros [= <-]; left; by exists s|].
    destruct (matches_plus is_digit s).
    + case_bool_decide as Hr; [|discriminate]. intros [= <-]. by right.
    + intros H. right. apply record_get_is_Some. by eapply find_chain_key.
  - case_bool_decide as Hr; [|discriminate]. intros [= <-]. by right.
Qed.

End ConfigFacts.

(** ** Derivation paths *)

Section DerivationFacts.
Import Js Derivation.

(** A run of digits followed by a text that does not start with a digit
    is the group read at the head. *)
Lemma take_digits_app digits rest :
  all_chars is_digit digits = true →
  match rest with String c _ => is_digit c = false | EmptyString => True end →
  take_digits (digits +:+ rest) = (digits, rest).
Proof.
  intros Hd Hrest. induction digits as [|c digits IH].
  - change ("" +:+ rest) with rest. destruct rest as [|c rest]; [reflexivity|].
    simpl. by rewrite Hrest.
  - rewrite append_cons. simpl in *. apply andb_true_iff in Hd as [-> Hd].
    by rewrite IH.
Qed.

Lemma group_number n rest :
  0 ≤ n →
  match rest with String c _ => is_digit c = false | EmptyString => True end →
  group (string_of_number n +:+ rest) = Some (string_of_number n, rest).
Proof.
  intros Hn Hrest. destruct (string_of_number_digits n Hn) as (c & t & Heq & Hd).
  unfold group. rewrite take_digits_app; [|by rewrite Heq|done]. by rewrite Heq.
Qed.

Lemma literal_app lit s : literal lit (lit +:+ s) = Some s.
Proof.
  induction lit as [|c lit IH]; [by destruct s|].
  rewrite append_cons. simpl. by rewrite Ascii.eqb_refl.
Qed.

Lemma group_number_then n c lit rest :
  0 ≤ n → is_digit c = false →
  group (string_of_number n +:+ String c lit +:+ rest)
  = Some (string_of_number n, String c lit +:+ rest).
Proof. intros Hn Hc. by apply group_number. Qed.

Lemma group_number_end n :
  0 ≤ n → group (string_of_number n) = Some (string_of_number n, "").
Proof.
  intros Hn. rewrite <- (append_nil_r (string_of_number n)) at 1. by apply group_number.
Qed.

Lemma parsePath_buildPath_defaults purpose coinType account change addressIndex :
  0 ≤ default 44 purpose → 0 ≤ default ETH_COIN_TYPE coinType →
  0 ≤ default 0 account → 0 ≤ default 0 change → 0 ≤ addressIndex →
  parsePath (buildPath purpose coinType account change addressIndex)
  = inr {| Derivation.purpose := default 44 purpose;
           Derivation.coinType := default ETH_COIN_TYPE coinType;
           Derivation.account := default 0 account;
           Derivation.change := default 0 change;
           Derivation.addressIndex := addressIndex |}.
Proof.
  intros Hp Hc Ha Hch Hi.
  assert (match_path (buildPath purpose coinType account change addressIndex)
          = Some (string_of_number (default 44 purpose),
                  string_of_number (default ETH_COIN_TYPE coinType),
                  string_of_number (default 0 account),
                  string_of_number (default 0 change),
                  string_of_number addressIndex)) as Hmatch.
  { unfold buildPath, match_path.
    rewrite literal_app. change (Some ?x ≫= ?f) with (f x). cbv beta.
    do 4 (rewrite group_number_then by done; change (Some ?x ≫= ?f) with (f x);
          cbv beta iota; rewrite literal_app; change (Some ?x ≫= ?f) with (f x);
          cbv beta).
    rewrite group_number_end by done. reflexivity. }
  unfold parsePath. rewrite Hmatch. by rewrite !parseInt_string_of_number.
Qed.

(** X25.  [parsePath] reads back what [buildPath] builds: for
    components that are safe integers and not negative, the path built
    from them parses to those five components. *)
Theorem parsePath_buildPath p c a ch i :
  0 ≤ p ≤ MAX_SAFE_INTEGER → 0 ≤ c ≤ MAX_SAFE_INTEGER → 0 ≤ a ≤ MAX_SAFE_INTEGER →
  0 ≤ ch ≤ MAX_SAFE_INTEGER → 0 ≤ i ≤ MAX_SAFE_INTEGER →
  parsePath (buildPath (Some p) (Some c) (Some a) (Some ch) i)
  = inr {| purpose := p; coinType := c; account := a; change := ch; addressIndex := i |}.
Proof. intros [? _] [? _] [? _] [? _] [? _]. by apply parsePath_buildPath_defaults. Qed.

(** X26.  The path under which [deriveAddress] derives from a
    master key, the parent path of the coin type followed by a slash and
    the index, is the path that [buildPath] builds from the coin type and
    the index with its defaults and, for a coin type and an index that
    are safe integers and not negative, [parsePath] reads from it:
    purpose 44, the coin type, account 0, change 0 and the index. *)
Theorem derived_path_parses coinType index :
  0 ≤ default ETH_COIN_TYPE coinType ≤ MAX_SAFE_INTEGER →
  0 ≤ index ≤ MAX_SAFE_INTEGER →
  let fullPath := getParentPath coinType +:+ "/" +:+ string_of_number index in
  fullPath = buildPath None coinType None None index
  ∧ parsePath fullPath
    = inr {| purpose := 44; coinType := default ETH_COIN_TYPE coinType;
             account := 0; change := 0; addressIndex := index |}.
Proof.
  intros [Hc _] [Hi _] fullPath.
  assert (fullPath = buildPath None coinType None None index) as ->.
  { unfold fullPath, getParentPath, buildPath. simpl default. by rewrite !append_assoc. }
  split; [done|]. by apply parsePath_buildPath_defaults.
Qed.

End DerivationFacts.

(** ** Configuration paths *)

Section DotPathFacts.
Import Js DotPath.

Lemma parse_loop_plain parts current part rest :
  includes "." part = false → includes "[" part = false → includes "]" part = false →
  parse_loop parts current false (part +:+ rest)
  = parse_loop parts (current +:+ part) false rest.
Proof.
  revert current. induction part as [|c part IH]; intros current Hd Hl Hr.
  - change ("" +:+ rest) with rest. by rewrite append_nil_r.
  - simpl in Hd, Hl, Hr.
    apply orb_false_iff in Hd as [Hd1 Hd]. apply orb_false_iff in Hl as [Hl1 Hl].
    apply orb_false_iff in Hr as [Hr1 Hr].
    rewrite append_cons. cbn [parse_loop]. rewrite Hd1, Hl1, Hr1. cbn [andb].
    rewrite IH by done. f_equal.
    rewrite append_assoc. reflexivity.
Qed.

Lemma parse_loop_parts parts part rest :
  plain_part part → Forall plain_part rest →
  parse_loop parts "" false (buildDotPath (part :: rest)) = (parts ++ part :: rest)%list.
Proof.
  intros Hp Hrest. revert parts part Hp.
  induction Hrest as [|next rest Hnext Hrest IH]; intros parts part (Hne & Hd & Hl & Hr).
  - cbn [buildDotPath]. rewrite <- (append_nil_r part) at 1.
    rewrite parse_loop_plain by done. change ("" +:+ part) with part.
    cbn [parse_loop]. by destruct part.
  - change (buildDotPath (part :: next :: rest))
      with (part +:+ "." +:+ buildDotPath (next :: rest)).
    rewrite parse_loop_plain by done. change ("" +:+ part) with part.
    rewrite append_cons. change ("" +:+ ?s) with s. cbn [parse_loop].
    change (Ascii.eqb "." "[") with false. change (Ascii.eqb "." "]") with false.
    change (Ascii.eqb "." ".") with true. cbn [andb negb].
    rewrite IH by done. destruct part; [done|]. cbn [push]. by rewrite <- app_assoc.
Qed.

(** X27.  [parseDotPath] reads back what [buildDotPath] builds:
    for parts that are not empty and hold neither a dot nor a bracket
    (a chain id such as eip155:1 is one), the path built from them parses
    to those parts. *)
Theorem parseDotPath_buildDotPath parts :
  Forall plain_part parts → parseDotPath (buildDotPath parts) = parts.
Proof.
  intros Hparts. destruct Hparts as [|part rest Hp Hrest]; [reflexivity|].
  pose proof (parse_loop_parts [] part rest Hp Hrest) as Hloop.
  unfold parseDotPath. rewrite Hloop.
  destruct (buildDotPath (part :: rest)) eqn:Hb; [|reflexivity].
  exfalso. destruct Hp as (Hne & _). destruct rest; simpl in Hb; [done|].
  by destruct part.
Qed.

End DotPathFacts.

(** ** The targets of a balance query *)

Section QueryFacts.
Context {W Client Account : Type} `{!Env W Client Account}.
Import Js Parser Query.

(** The indices that [parseAddressSpec] reads from a text are not
    negative. *)
Lemma parseAddressSpec_nonneg isAddress text wallets :
  match parseAddressSpec isAddress (RawString text) wallets with
  | SpecIndex value => 0 ≤ value
  | SpecIndices value => Forall (fun x => 0 ≤ x) value
  | _ => True
  end.
Proof.
  unfold parseAddressSpec. destruct (isAddress (trim text)); [done|].
  destruct (matches_plus is_digit (trim text)) eqn:Hd.
  { destruct (parseInt (trim text)) as [n|] eqn:Hn; simpl; [|lia].
    eapply parseInt_nonneg, Hn. apply includes_digits; [done|].
    by destruct (trim text). }
  destruct (_ && negb (includes "-" (trim text))) eqn:Hl.
  { apply andb_true_iff in Hl as [_ Hdash]. apply negb_true_iff in Hdash.
    apply Forall_forall. intros x Hx. apply list_elem_of_omap in Hx as (w & Hw & Hx).
    eapply parseInt_nonneg, Hx. apply includes_trim.
    by eapply includes_split_other. }
  repeat case_match; done.
Qed.

Lemma map_resolver_typed resolver indices sources :
  Forall (fun x => 0 ≤ x) indices →
  map_resolver resolver indices = inr sources →
  Forall (fun source => inferIdentifierType (identifier source) = TypeIndex) sources.
Proof.
  intros Hnn Hmap. apply map_resolver_entries in Hmap.
  apply Forall_forall. intros source Hs.
  apply list_elem_of_lookup in Hs as [k Hk].
  destruct (Forall2_lookup_r _ _ _ _ _ Hmap Hk) as (i & Hi & Hid & _).
  rewrite Hid. unfold inferIdentifierType.
  rewrite Forall_forall in Hnn.
  destruct (string_of_number_digits i) as (c & t & -> & Hd);
    [apply Hnn; by eapply list_elem_of_lookup_2|].
  by rewrite (Hd : matches_plus is_digit (String c t) = true).
Qed.

(** X28.  The targets of a balance query are typed by their
    identifiers, and that typing is right for indices: every target
    resolved from a text that is read as an index, an index list or a
    range is typed as an index, and a target resolved from a label is
    never typed as an index. *)
Theorem resolved_targets_typed config target context sources :
  resolveTargetAddresses config target context = inr sources →
  match parseAddressSpec isAddress (RawString (Executor.spec_string target))
          (Some (wallets config)) with
  | SpecIndex _ | SpecIndices _ | SpecRange _ =>
      Forall (fun source => inferIdentifierType (identifier source) = TypeIndex) sources
  | SpecLabel _ =>
      Forall (fun source => inferIdentifierType (identifier source) ≠ TypeIndex) sources
  | SpecAddress _ => True
  end.
Proof.
  unfold resolveTargetAddresses.
  pose proof (parseAddressSpec_nonneg isAddress (Executor.spec_string target)
                (Some (wallets config))) as Hnn.
  assert (∀ label,
            parseAddressSpec isAddress (RawString (Executor.spec_string target))
              (Some (wallets config)) = SpecLabel label →
            matches_plus is_digit label = false) as Hlabel.
  { unfold parseAddressSpec. intros label.
    destruct (isAddress _); [discriminate|].
    destruct (matches_plus is_digit _) eqn:Hd; [discriminate|].
    repeat case_match; try discriminate; by intros [= <-]. }
  destruct (parseAddressSpec isAddress (RawString (Executor.spec_string target))
              (Some (wallets config))) as [v|v|v|v|v]; simpl; [| | |done|].
  - destruct context as [ctx|]; simpl; [|discriminate].
    destruct (generateAddress ctx v) as [e|a]; [discriminate|]. intros [= <-].
    apply (map_resolver_typed (fun _ => inr a) [v]); [by constructor|reflexivity].
  - destruct context as [ctx|]; simpl; [|discriminate]. by apply map_resolver_typed.
  - destruct context as [ctx|]; simpl; [|discriminate].
    destruct (parseRange v) as [e|indices] eqn:Hr; [discriminate|].
    apply map_resolver_typed. apply Forall_forall. intros x. by eapply parseRange_nonneg.
  - repeat case_match; try discriminate; intros [= <-].
    all: constructor; [|constructor]; simpl; unfold inferIdentifierType.
    all: rewrite (Hlabel v eq_refl); by case_match.
Qed.

End QueryFacts.

(** ** Sign-in nonces *)

Section SiweFacts.
Import Siwe.

Lemma verifyNonce_absent now nonce store :
  store !! nonce = None → verifyNonce now nonce store = (false, store).
Proof. intros H. unfold verifyNonce. by rewrite H. Qed.

(** X30.  A sign-in nonce can be used once: a nonce just generated, as
    long as it is not older than its time to live, is accepted by
    [consumeNonce], and from then on every verification and every
    consumption of it is refused, at whatever time. *)
Theorem nonce_is_single_use nonce createdAt cleanedAt now store :
  cleanedAt - createdAt ≤ NONCE_TTL →
  now - createdAt ≤ NONCE_TTL →
  ∃ store',
    consumeNonce now nonce (generateNonce nonce createdAt cleanedAt store) = (true, store')
    ∧ ∀ later,
        verifyNonce later nonce store' = (false, store')
        ∧ consumeNonce later nonce store' = (false, store').
Proof.
  intros Hclean Hnow.
  assert (generateNonce nonce createdAt cleanedAt store !! nonce = Some createdAt) as Hin.
  { unfold generateNonce, cleanupExpiredNonces.
    apply map_lookup_filter_Some. split; [by rewrite lookup_insert_eq|]. simpl. lia. }
  exists (delete nonce (generateNonce nonce createdAt cleanedAt store)). split.
  - unfold consumeNonce, verifyNonce. rewrite Hin.
    by rewrite bool_decide_eq_false_2 by lia.
  - intros later.
    assert (verifyNonce later nonce (delete nonce (generateNonce nonce createdAt cleanedAt store))
            = (false, delete nonce (generateNonce nonce createdAt cleanedAt store))) as Hv
      by (apply verifyNonce_absent; by rewrite lookup_delete_eq).
    split; [exact Hv|]. unfold consumeNonce. by rewrite Hv.
Qed.

End SiweFacts.

(** ** The properties above on concrete inputs *)

Lemma parseRange_sorted_exact_witness :
  StronglySorted Z.lt [0; 1; 2; 10; 20; 21; 22]
  ∧ ∀ x, x ∈ [0; 1; 2; 10; 20; 21; 22] ↔
         ∃ part start end_,
           part ∈ (Js.trim <$> Js.split "," "0-2,10,20-22")
           ∧ Parser.parsePart part = inr (Parser.push_range start end_)
           ∧ start ≤ x ≤ end_.
Proof.
  apply (parseRange_sorted_exact "0-2,10,20-22"). vm_compute. reflexivity.
Defined.

Lemma parseRange_nonnegative_witness :
  Forall (fun x => 0 ≤ x) [1; 2; 3; 4].
Proof.
  apply (parseRange_nonnegative "1-3,2-4"). vm_compute. reflexivity.
Defined.

Lemma resolveToIndices_normal_form_witness :
  Parser.resolveToIndices (SpecIndices [1; 5]) = inr [1; 5].
Proof.
  apply (resolveToIndices_normal_form (SpecIndices [5; 1; 5])). vm_compute. reflexivity.
Defined.

Lemma resolved_identifiers_parse_back_witness :
  Forall (fun r => ∃ index, Js.safe_integer index
                            ∧ Js.parseInt (identifier r) = Some index
                            ∧ identifier r = Js.string_of_number index
                            ∧ inr ("0xd" +:+ pretty index) = inr (address r) :> Res Address)
    [ {| identifier := "3"; address := "0xd3" |};
      {| identifier := "4"; address := "0xd4" |} ].
Proof.
  apply (resolved_identifiers_parse_back None (fun i => inr ("0xd" +:+ pretty i))
           (SpecRange "3-4")); [reflexivity | | vm_compute; reflexivity].
  intros indices [= <-]. repeat constructor; vm_compute; discriminate.
Defined.

Lemma parseAddressSpec_decimal_witness :
  Parser.parseAddressSpec Executor.is_hex_address (Parser.RawString "42") None
  = SpecIndex 42.
Proof.
  apply (parseAddressSpec_decimal Executor.is_hex_address None 42);
    [unfold Js.MAX_SAFE_INTEGER; lia | reflexivity].
Defined.

Lemma detectStrategy_chain_id_failure_witness :
  Strategy.detectStrategy (Env0 := Cases.unreachable Demo.rich) tt Demo.token None Demo.start
  = (inl (OtherError "fetch failed"),
     {| world := 0%nat; strategyCache := ∅;
        trace := [ {| call := GetChainId; reply := Threw "fetch failed" |} ] |}).
Proof.
  apply (detectStrategy_chain_id_failure (Env0 := Cases.unreachable Demo.rich) tt Demo.token
           None Demo.start "fetch failed" 0%nat);
    [reflexivity | left; reflexivity | reflexivity].
Defined.

Lemma parseSignature_components_witness :
  Signatures.parseSignature
    ("0x" +:+ "1111111111111111111111111111111111111111111111111111111111111111"
          +:+ "2222222222222222222222222222222222222222222222222222222222222222"
          +:+ "1b")
  = ("0x" +:+ "1111111111111111111111111111111111111111111111111111111111111111",
     "0x" +:+ "2222222222222222222222222222222222222222222222222222222222222222",
     Some 27).
Proof.
  apply (parseSignature_components
           "1111111111111111111111111111111111111111111111111111111111111111"
           "2222222222222222222222222222222222222222222222222222222222222222"
           "1" "b" 1 11); reflexivity.
Defined.

Lemma signPermit_signs_what_it_returns_witness :
  ∃ data st',
    Signatures.signPermit (Env0 := Demo.env Demo.rich) "0xd0" tt Demo.token "Token" None
      Demo.hot 5 0 None Demo.start = (inr data, st')
    ∧ ∃ chainId signature,
        trace st' =
          (trace Demo.start ++
             [ {| call := GetChainId; reply := GaveNumber chainId |};
               {| call := SignTypedData "0xd0"
                            {| domain_name := "Token"; domain_version := "1";
                               domain_chainId := chainId;
                               domain_verifyingContract := Demo.token |}
                            (PermitMessage (permit_owner data) (permit_spender data)
                               (permit_value data) 0 (permit_deadline data));
                  reply := GaveText signature |} ])%list
        ∧ permit_owner data = "0xd0"
        ∧ permit_spender data = Demo.hot
        ∧ permit_value data = 5
        ∧ permit_deadline data = Signatures.maxUint256
        ∧ (permit_r data, permit_s data, permit_v data)
          = Signatures.parseSignature signature.
Proof.
  eexists _, _. split; [vm_compute; reflexivity|].
  apply (signPermit_signs_what_it_returns (Env0 := Demo.env Demo.rich) "0xd0" tt Demo.token
           "Token" None Demo.hot 5 0 None Demo.start).
  vm_compute. reflexivity.
Defined.

Lemma signTransferWithAuthorization_signs_what_it_returns_witness :
  ∃ data st',
    Signatures.signTransferWithAuthorization (Env0 := Demo.env Demo.rich) "0xd0" tt
      Demo.token "Token" None Demo.hot 5 None None None Demo.start = (inr data, st')
    ∧ auth_nonce data = "0x01"
    ∧ auth_from data = "0xd0"
    ∧ auth_validBefore data = Signatures.maxUint256.
Proof.
  eexists _, _. split; [vm_compute; reflexivity|].
  edestruct (signTransferWithAuthorization_signs_what_it_returns
               (Env0 := Demo.env Demo.rich) "0xd0" tt Demo.token "Token" None Demo.hot 5
               None None None Demo.start)
    as (chainId & signature & drawn & _ & _ & _ & Hfrom & _ & _ & _ & Hbefore & _);
    [vm_compute; reflexivity|].
  split; [reflexivity|]. split; [exact Hfrom | exact Hbefore].
Defined.

Lemma real_run_without_signer_witness :
  Executor.executeSingleTransfer (Env0 := Demo.env Demo.rich) Cases.keyless tt
    "eip155:31337" (Some Demo.anvil) Demo.hot "hot-wallet" "0xd1" "1" Demo.token "TKN" 18
    "5" None false Demo.start
  = (inl (HotSweepError WALLET_KEY_NOT_FOUND
            ("No signer available for address: " +:+ Demo.hot)),
     (Executor.executeSingleTransfer (Env0 := Demo.env Demo.rich) Cases.keyless tt
        "eip155:31337" (Some Demo.anvil) Demo.hot "hot-wallet" "0xd1" "1" Demo.token "TKN"
        18 "5" None true Demo.start).2).
Proof.
  eapply (proj2 (proj2 (real_run_without_signer (Env0 := Demo.env Demo.rich)
                          Cases.keyless tt "eip155:31337" (Some Demo.anvil) Demo.hot
                          "hot-wallet" "0xd1" "1" Demo.token "TKN" 18 "5" None Demo.start
                          eq_refl))).
  vm_compute. reflexivity.
Defined.

Lemma unsupported_strategy_is_refused_witness :
  let unit dry :=
    Executor.executeSingleTransfer (Env0 := Demo.env Demo.rich) Demo.context tt
      "eip155:31337" (Some Demo.anvil) "0xd0" "0" Demo.hot "hot-wallet" Demo.token
      "TKN" 18 "5" (Some eip7702) dry Demo.start in
  (∃ r, (unit true).1 = inr (Success r) ∧ res_strategy r = eip7702)
  ∧ unit false
    = (inl (HotSweepError STRATEGY_UNSUPPORTED "Strategy not supported: eip7702"),
       (unit true).2).
Proof.
  destruct (unsupported_strategy_is_refused (Env0 := Demo.env Demo.rich) Demo.context
              tt "eip155:31337" (Some Demo.anvil) "0xd0" "0" Demo.hot "hot-wallet"
              Demo.token "TKN" 18 "5" Demo.start eq_refl) as (_ & _ & H).
  edestruct H as [(r & Hr & Hs) Hreal]; [vm_compute; reflexivity|].
  split.
  - exists r. split; [|exact Hs]. rewrite <- Hr. vm_compute. reflexivity.
  - erewrite Hreal; [|vm_compute; reflexivity]. vm_compute. reflexivity.
Defined.

Lemma native_transfer_calls_witness :
  stepwise (emits is_native_call)
    (Executor.executeSingleTransfer (Env0 := Demo.env Demo.rich) Demo.context tt
       "eip155:31337" (Some Demo.anvil) "0xd0" "0" Demo.hot "hot-wallet"
       NATIVE_TOKEN_ADDRESS "ETH" 18 "all" (Some eip2612) false).
Proof.
  apply (native_transfer_calls (Env0 := Demo.env Demo.rich)). reflexivity.
Defined.

Lemma plain_transfer_calls_witness :
  ∃ r st',
    Executor.executeSingleTransfer (Env0 := Demo.env Demo.rich) Demo.context tt
      "eip155:31337" (Some Demo.anvil) "0xd0" "0" Demo.hot "hot-wallet" Demo.token "TKN"
      18 "5" (Some legacy) false Demo.start
    = (inr (Success r), st')
    ∧ ∃ evs account transferAmount receipt,
        Executor.getSignerAccount (Env0 := Demo.env Demo.rich) Demo.context "0"
        = inr (Some account)
        ∧ trace st' =
          (trace Demo.start ++ evs ++
             [ {| call := WriteTransfer account Demo.token Demo.hot transferAmount;
                  reply := GaveText (res_tx_hash r) |};
               {| call := WaitForTransactionReceipt (res_tx_hash r);
                  reply := GaveReceipt receipt |} ])%list
        ∧ Forall (fun e => is_dry_run_call (call e) = true) evs
        ∧ res_amount_raw r = Js.string_of_number transferAmount
        ∧ res_tx_receipt r = Some receipt.
Proof.
  eexists _, _. split; [vm_compute; reflexivity|].
  apply (plain_transfer_calls (Env0 := Demo.env Demo.rich) Demo.context tt "eip155:31337"
           (Some Demo.anvil) "0xd0" "0" Demo.hot "hot-wallet" Demo.token "TKN" 18 "5"
           (Some legacy) Demo.start);
    [vm_compute; reflexivity | right; reflexivity].
Defined.

Lemma authorization_transfer_calls_witness :
  ∃ r st',
    Executor.executeSingleTransfer (Env0 := Demo.env Demo.capable) Demo.context tt
      "eip155:31337" (Some Demo.anvil) "0xd0" "0" Demo.hot "hot-wallet" Demo.token "TKN"
      18 "5" None false Demo.start
    = (inr (Success r), st')
    ∧ res_strategy r = eip3009
    ∧ res_tx_hash r = "0xtx0"
    ∧ res_amount_raw r = "5".
Proof.
  eexists _, _. split; [vm_compute; reflexivity|]. split; [reflexivity|].
  split; [reflexivity|].
  edestruct (authorization_transfer_calls (Env0 := Demo.env Demo.capable) Demo.context tt
               "eip155:31337" (Some Demo.anvil) "0xd0" "0" Demo.hot "hot-wallet" Demo.token
               "TKN" 18 "5" None Demo.start)
    as (evs & account & amt & name & chainNumber & nonce & signature & receipt & _ & _ & _
        & Hraw & _); [reflexivity | vm_compute; reflexivity | reflexivity |].
  reflexivity.
Defined.

Lemma permit_transfer_calls_witness :
  ∃ r st',
    Executor.executeSingleTransfer (Env0 := Demo.env Demo.rich) Demo.context tt
      "eip155:31337" (Some Demo.anvil) "0xd0" "0" Demo.hot "hot-wallet" Demo.token "TKN"
      18 "5" None false Demo.start
    = (inr (Success r), st')
    ∧ res_strategy r = eip2612
    ∧ ∃ data,
        data = {| permit_owner := "0xd0";
                  permit_spender := Demo.hot;
                  permit_value := 5;
                  permit_deadline := Signatures.maxUint256;
                  permit_v := (Signatures.parseSignature "0xsig").2;
                  permit_r := (Signatures.parseSignature "0xsig").1.1;
                  permit_s := (Signatures.parseSignature "0xsig").1.2 |}
        ∧ {| call := WritePermit "0xd0" Demo.token data;
             reply := GaveText (res_tx_hash r) |} ∈ trace st'.
Proof.
  eexists _, _. split; [vm_compute; reflexivity|]. split; [reflexivity|].
  edestruct (permit_transfer_calls (Env0 := Demo.env Demo.rich) Demo.context tt
               "eip155:31337" (Some Demo.anvil) "0xd0" "0" Demo.hot "hot-wallet" Demo.token
               "TKN" 18 "5" None Demo.start)
    as (evs & account & amt & name & nonce & chainNumber & signature & data & _ & _ & _
        & _ & _); [reflexivity | vm_compute; reflexivity | reflexivity |].
  eexists. split; [reflexivity|]. vm_compute.
  repeat (first [apply list_elem_of_here | apply list_elem_of_further]).
Defined.

Lemma signer_of_resolved_source_witness :
  Forall (fun source =>
            ∃ index,
              inr ("0xd" +:+ pretty index) = inr (address source) :> Res Address
              ∧ identifier source = Js.string_of_number index
              ∧ Executor.getSignerAccount (Env0 := Demo.env Demo.rich) Demo.context
                  (identifier source)
                = inr (Some ("0xd" +:+ pretty index)))
    [ {| identifier := "3"; address := "0xd3" |};
      {| identifier := "4"; address := "0xd4" |} ].
Proof.
  apply (signer_of_resolved_source (Env0 := Demo.env Demo.rich) Demo.context
           {| ctx_mnemonic := Some "test test test"; ctx_xpriv := None;
              ctx_passphrase := None |} (SpecRange "3-4"));
    [reflexivity | reflexivity | reflexivity | vm_compute; reflexivity].
Defined.

Lemma signer_of_address_literal_witness :
  Executor.getSignerAccount (Env0 := Demo.env Demo.rich) Demo.context Demo.hot
  = inr (Some "0xd0").
Proof.
  apply (signer_of_address_literal (Env0 := Demo.env Demo.rich) Demo.context
           {| ctx_mnemonic := Some "test test test"; ctx_xpriv := None;
              ctx_passphrase := None |} "70997970C51812dc3A010C7d01b50e0d17dc79C8");
    reflexivity.
Defined.

Lemma executeTransfer_unresolved_witness :
  Executor.executeTransfer (Env0 := Demo.env Demo.rich) Demo.context
    (Demo.request "cold-wallet" "TKN" "5" false) Demo.start
  = (inr (Some (Failure {| identifier := "cold-wallet"; address := "0x0" |}
                  {| identifier := "hot-wallet"; address := "0x0" |}
                  ADDRESS_LABEL_NOT_FOUND "Wallet label not found: cold-wallet")),
     Demo.start).
Proof.
  destruct (executeTransfer_unresolved (Env0 := Demo.env Demo.rich) Demo.context
              (Demo.request "cold-wallet" "TKN" "5" false) Demo.start
              (HotSweepError ADDRESS_LABEL_NOT_FOUND "Wallet label not found: cold-wallet")
              Demo.start) as [_ Hrun]; [vm_compute; reflexivity|].
  rewrite Hrun. reflexivity.
Defined.

Lemma getChainConfig_toCaip2ChainId_witness :
  Config.getChainConfig Demo.hotsweep (ChainString "anvil")
  = Config.toCaip2ChainId Demo.hotsweep (ChainString "anvil")
    ≫= Js.record_get (chains Demo.hotsweep).
Proof.
  apply (getChainConfig_toCaip2ChainId Demo.hotsweep (ChainString "anvil")).
  vm_compute. repeat constructor. intros H. inversion H.
Defined.

Lemma toCaip2ChainId_configured_witness :
  (∃ text, ChainNumber 31337 = ChainString text ∧ Js.includes ":" text = true
           ∧ "eip155:31337" = text)
  ∨ is_Some (Js.record_get (chains Demo.hotsweep) "eip155:31337").
Proof.
  apply (toCaip2ChainId_configured Demo.hotsweep (ChainNumber 31337) "eip155:31337").
  vm_compute. reflexivity.
Defined.

Lemma parsePath_buildPath_witness :
  Derivation.parsePath "m/44'/60'/0'/0/7"
  = inr {| Derivation.purpose := 44; Derivation.coinType := 60;
           Derivation.account := 0; Derivation.change := 0;
           Derivation.addressIndex := 7 |}.
Proof. apply (parsePath_buildPath 44 60 0 0 7); unfold Js.MAX_SAFE_INTEGER; lia. Defined.

Lemma derived_path_parses_witness :
  Derivation.getParentPath None +:+ "/" +:+ Js.string_of_number 7
  = Derivation.buildPath None None None None 7
  ∧ Derivation.parsePath (Derivation.getParentPath None +:+ "/" +:+ Js.string_of_number 7)
    = inr {| Derivation.purpose := 44; Derivation.coinType := 60;
             Derivation.account := 0; Derivation.change := 0;
             Derivation.addressIndex := 7 |}.
Proof.
  apply (derived_path_parses None 7);
    unfold Js.MAX_SAFE_INTEGER, Derivation.ETH_COIN_TYPE; simpl; lia.
Defined.

Lemma parseDotPath_buildDotPath_witness :
  DotPath.parseDotPath "chains.eip155:1.name" = ["chains"; "eip155:1"; "name"].
Proof.
  apply (parseDotPath_buildDotPath ["chains"; "eip155:1"; "name"]).
  repeat constructor; discriminate.
Defined.

Lemma resolved_targets_typed_witness :
  Forall (fun source => Query.inferIdentifierType (identifier source) = Query.TypeIndex)
    [ {| identifier := "3"; address := "0xd3" |};
      {| identifier := "4"; address := "0xd4" |} ].
Proof.
  apply (resolved_targets_typed (Env0 := Demo.env Demo.rich) Demo.hotsweep (inl "3-4")
           (Some {| ctx_mnemonic := Some "test test test"; ctx_xpriv := None;
                    ctx_passphrase := None |})).
  vm_compute. reflexivity.
Defined.

Lemma token_sweep_takes_whole_balance_witness :
  ∃ r st',
    Executor.executeSingleTransfer (Env0 := Demo.env Demo.rich) Demo.context tt
      "eip155:31337" (Some Demo.anvil) "0xd0" "0" Demo.hot "hot-wallet" Demo.token "TKN"
      18 "all" None false Demo.start
    = (inr (Success r), st')
    ∧ res_amount_raw r = "100000".
Proof.
  eexists _, _. split; [vm_compute; reflexivity|].
  edestruct (token_sweep_takes_whole_balance (Env0 := Demo.env Demo.rich) Demo.context tt
               "eip155:31337" (Some Demo.anvil) "0xd0" "0" Demo.hot "hot-wallet" Demo.token
               "TKN" 18 None false Demo.start)
    as (balance & rest & _ & _ & Hraw & _); [reflexivity | vm_compute; reflexivity |].
  reflexivity.
Defined.

Lemma nonce_is_single_use_witness :
  ∃ store',
    Siwe.consumeNonce 1060000 "n0nce" (Siwe.generateNonce "n0nce" 1000000 1000000 ∅)
    = (true, store')
    ∧ ∀ later,
        Siwe.verifyNonce later "n0nce" store' = (false, store')
        ∧ Siwe.consumeNonce later "n0nce" store' = (false, store').
Proof.
  apply (nonce_is_single_use "n0nce" 1000000 1000000 1060000 ∅); vm_compute; discriminate.
Defined.
